(** * podsmith: the staged audio-analysis pipeline and its temporal aligner

    A shallow embedding of [pipeline2.py] (the cached pipeline), and of the
    two older scripts [pipeline.py] and [python_diarization.py], together
    with the properties stated about them.

    Conventions of the embedding.
    - Times are Python floats in the source.  A float is embedded as the
      rational it stands for ([Q]); comparisons and [min]/[max] are exact,
      and every sum, difference and product is rounded as IEEE 754 binary64
      rounds it (53 bits, to nearest, ties to even): see [Float].  Overflow,
      infinities and NaN are outside the model.
    - A Python [str] is the [string] of the bytes of its UTF-8 encoding;
      a [list] is a [list]; a [dict] whose
      iteration order matters is an association list kept in insertion order.
    - External collaborators (Whisper, pyannote, pydub, the classifiers) are
      fields of an environment record: each call either returns a value or
      raises. *)

From Stdlib Require Import Ascii String QArith Qminmax Qround Qabs Qpower Lqa.
From stdpp Require Import base option list strings gmap.

Local Open Scope Q_scope.

(** ** Python primitives *)

Module Py.

(** [a > b] on floats. *)
Definition gt (a b : Q) : bool := negb (Qle_bool a b).

(** [a < b] on floats. *)
Definition lt (a b : Q) : bool := negb (Qle_bool b a).

(** [a <= b] and [a >= b]. *)
Definition le (a b : Q) : bool := Qle_bool a b.
Definition ge (a b : Q) : bool := Qle_bool b a.

(** Builtin [max(a, b)]: the first argument unless the second is greater. *)
Definition max2 (a b : Q) : Q := if gt b a then b else a.

(** Builtin [min(a, b)]: the first argument unless the second is smaller. *)
Definition min2 (a b : Q) : Q := if lt b a then b else a.

(** Builtin [max(xs, key=f)] on a non-empty iterable [x :: xs]: one pass that
    replaces the current best only by an item whose key is strictly greater,
    so that the first maximal item wins. *)
Fixpoint max_from {A K : Type} (gtb : K -> K -> bool) (key : A -> K)
    (best : A) (rest : list A) : A :=
  match rest with
  | [] => best
  | x :: rest' =>
      max_from gtb key (if gtb (key x) (key best) then x else best) rest'
  end.

(** [max] of an empty iterable raises [ValueError]: [None]. *)
Definition max_by {A K : Type} (gtb : K -> K -> bool) (key : A -> K)
    (xs : list A) : option A :=
  match xs with
  | [] => None
  | x :: rest => Some (max_from gtb key x rest)
  end.

(** [a > b] on ints that are counts. *)
Definition gt_nat (a b : nat) : bool := (b <? a)%nat.

(** [xs.count(x)] on a list of [str]. *)
Fixpoint count (xs : list string) (x : string) : nat :=
  match xs with
  | [] => O
  | y :: xs' => if String.eqb y x then S (count xs' x) else count xs' x
  end.

(** An insertion-ordered [dict] from [str] to float. *)
Definition dict : Type := list (string * Q).

(** [d.get(k, default)]. *)
Fixpoint get (d : dict) (k : string) (default : Q) : Q :=
  match d with
  | [] => default
  | (k', v) :: d' => if String.eqb k' k then v else get d' k default
  end.

(** [d[k] = v]: an existing key keeps its position, a new key goes last. *)
Fixpoint set (d : dict) (k : string) (v : Q) : dict :=
  match d with
  | [] => [(k, v)]
  | (k', v') :: d' =>
      if String.eqb k' k then (k', v) :: d' else (k', v') :: set d' k v
  end.

(** Iterating a dict yields its keys in insertion order. *)
Definition keys (d : dict) : list string := map fst d.

(** The whitespace [str.strip()] removes, by the UTF-8 encoding of each
    character.  One byte: TAB, LF, VT, FF, CR, FS, GS, RS, US and SPACE. *)
Definition space1 (c : ascii) : bool :=
  let n := nat_of_ascii c in
  ((9 <=? n)%nat && (n <=? 13)%nat) || ((28 <=? n)%nat && (n <=? 32)%nat).

(** Two bytes: U+0085 (NEL) and U+00A0 (NO-BREAK SPACE). *)
Definition space2 (c1 c2 : ascii) : bool :=
  let a := nat_of_ascii c1 in
  let b := nat_of_ascii c2 in
  (a =? 194)%nat && ((b =? 133)%nat || (b =? 160)%nat).

(** Three bytes: U+1680, U+2000 to U+200A, U+2028, U+2029, U+202F, U+205F
    and U+3000. *)
Definition space3 (c1 c2 c3 : ascii) : bool :=
  let a := nat_of_ascii c1 in
  let b := nat_of_ascii c2 in
  let c := nat_of_ascii c3 in
  ((a =? 225)%nat && (b =? 154)%nat && (c =? 128)%nat)
  || ((a =? 226)%nat && (b =? 128)%nat
      && (((128 <=? c)%nat && (c <=? 138)%nat)
          || (c =? 168)%nat || (c =? 169)%nat || (c =? 175)%nat))
  || ((a =? 226)%nat && (b =? 129)%nat && (c =? 159)%nat)
  || ((a =? 227)%nat && (b =? 128)%nat && (c =? 128)%nat).

(** [w] is one character of one, two or three bytes that passes the test
    for its length. *)
Definition token (t1 : ascii -> bool) (t2 : ascii -> ascii -> bool)
    (t3 : ascii -> ascii -> ascii -> bool) (w : list ascii) : bool :=
  match w with
  | [a] => t1 a
  | [a; b] => t2 a b
  | [a; b; c] => t3 a b c
  | _ => false
  end.

(** [w] is the encoding of one whitespace character. *)
Definition isspace (w : list ascii) : bool := token space1 space2 space3 w.

(** [l] without its leading characters that pass the tests. *)
Fixpoint drop_tokens (t1 : ascii -> bool) (t2 : ascii -> ascii -> bool)
    (t3 : ascii -> ascii -> ascii -> bool) (l : list ascii) : list ascii :=
  match l with
  | [] => []
  | a :: l1 =>
      if t1 a then drop_tokens t1 t2 t3 l1
      else
        match l1 with
        | [] => l
        | b :: l2 =>
            if t2 a b then drop_tokens t1 t2 t3 l2
            else
              match l2 with
              | [] => l
              | c :: l3 => if t3 a b c then drop_tokens t1 t2 t3 l3 else l
              end
        end
  end.

(** [lstrip] and [rstrip] on the bytes; [rstrip] reads the bytes from the
    end, each character with its bytes in reverse.  In valid UTF-8 a
    trailing run of bytes that encodes a character is a character. *)
Definition lstrip_bytes (l : list ascii) : list ascii := drop_tokens space1 space2 space3 l.
Definition rstrip_bytes (l : list ascii) : list ascii :=
  rev (drop_tokens space1 (fun a b => space2 b a) (fun a b c => space3 c b a) (rev l)).

(** [s.lstrip()], [s.rstrip()] and [s.strip()]. *)
Definition lstrip (s : string) : string :=
  string_of_list_ascii (lstrip_bytes (list_ascii_of_string s)).
Definition rstrip (s : string) : string :=
  string_of_list_ascii (rstrip_bytes (list_ascii_of_string s)).
Definition strip (s : string) : string :=
  string_of_list_ascii (rstrip_bytes (lstrip_bytes (list_ascii_of_string s))).

(** [int(x)] on a float: truncation towards zero. *)
Definition int (x : Q) : Z :=
  if Qle_bool 0 x then Qfloor x else Qceiling x.

End Py.

(** ** Float arithmetic *)

Module Float.

Definition pow2 (e : Z) : Q := 2 ^ e.

(** For [x > 0], the integer [k] with [2^k <= x < 2^(k+1)]. *)
Definition ilog2 (x : Q) : Z :=
  let k := (Z.log2 (Qnum x) - Z.log2 (Zpos (Qden x)))%Z in
  if Qle_bool (pow2 k) x then k else (k - 1)%Z.

(** The integer nearest to [t]; halfway between two integers, the even one. *)
Definition nearest_even (t : Q) : Z :=
  let f := Qfloor t in
  match Qcompare (t - inject_Z f) (1 # 2) with
  | Lt => f
  | Gt => (f + 1)%Z
  | Eq => if Z.even f then f else (f + 1)%Z
  end.

(** The exponent of the last of the 53 bits of [x]. *)
Definition exponent (x : Q) : Z := (ilog2 (Qabs x) - 52)%Z.

(** The binary64 number nearest to [x]. *)
Definition round (x : Q) : Q :=
  if Qeq_bool x 0 then 0
  else Qred (inject_Z (nearest_even (x / pow2 (exponent x))) * pow2 (exponent x)).

(** [x + y], [x - y] and [x * y] on floats. *)
Definition add (x y : Q) : Q := round (x + y).
Definition sub (x y : Q) : Q := round (x - y).
Definition mul (x y : Q) : Q := round (x * y).

End Float.

(** ** Data model *)

(** A Whisper segment: the keys of the dict the code reads. *)
Record WhisperSegment := {
  ws_start : Q;
  ws_end : Q;
  ws_text : string
}.

(** [pyannote.core.Segment]. *)
Record Segment := {
  seg_start : Q;
  seg_end : Q
}.

(** What [diarization.itertracks(yield_label=True)] yields: the turn and the
    speaker label (the track name is not used by the code), in the order of
    iteration. *)
Definition Tracks : Type := list (Segment * string).

(** The dict the aligners append: ["start"], ["end"], ["text"], ["speaker"]. *)
Record MappedSegment := {
  start : Q;
  end_ : Q;
  text : string;
  speaker : string
}.

(** ** [pipeline2.py]: [map_speakers_to_segments] *)

Module Pipeline2.

(** The body of the inner loop: [max(0, min(end, turn.end) - max(start, turn.start))]. *)
Definition overlap_duration (start_whisper end_whisper : Q) (turn : Segment) : Q :=
  let overlap_start := Py.max2 start_whisper (seg_start turn) in
  let overlap_end := Py.min2 end_whisper (seg_end turn) in
  Py.max2 0 (Float.sub overlap_end overlap_start).

(** The list [overlapping_speakers] after the inner loop. *)
Fixpoint overlapping_speakers (start_whisper end_whisper : Q)
    (diarization : Tracks) : list (string * Q) :=
  match diarization with
  | [] => []
  | (turn, spk) :: rest =>
      let overlap := overlap_duration start_whisper end_whisper turn in
      if Py.gt overlap 0
      then (spk, overlap) :: overlapping_speakers start_whisper end_whisper rest
      else overlapping_speakers start_whisper end_whisper rest
  end.

(** The accumulation loop, from a given state of [speaker_counts]. *)
Fixpoint count_from (speaker_counts : Py.dict) (overlapping : list (string * Q)) : Py.dict :=
  match overlapping with
  | [] => speaker_counts
  | (spk, duration) :: rest =>
      count_from (Py.set speaker_counts spk (Float.add (Py.get speaker_counts spk 0) duration))
        rest
  end.

(** [speaker_counts] after the loop, starting from [{}]. *)
Definition speaker_counts (overlapping : list (string * Q)) : Py.dict :=
  count_from [] overlapping.

(** The speaker chosen for one segment. *)
Definition choose_speaker (start_whisper end_whisper : Q) (diarization : Tracks) : string :=
  let overlapping := overlapping_speakers start_whisper end_whisper diarization in
  match overlapping with
  | [] => "Unknown"
  | _ :: _ =>
      let counts := speaker_counts overlapping in
      match Py.max_by Py.gt (fun k => Py.get counts k 0) (Py.keys counts) with
      | Some speaker_id => speaker_id
      | None => "Unknown" (* [max] of an empty dict would raise; a non-empty
                             [overlapping] never leaves the dict empty, see
                             [speaker_counts_nonempty] *)
      end
  end.

(** One iteration of the outer loop: the dict appended to [mapped_segments]. *)
Definition map_segment (diarization : Tracks) (seg : WhisperSegment) : MappedSegment :=
  let start_whisper := ws_start seg in
  let end_whisper := ws_end seg in
  {| start := start_whisper;
     end_ := end_whisper;
     text := Py.strip (ws_text seg);
     speaker := choose_speaker start_whisper end_whisper diarization |}.

Definition map_speakers_to_segments (whisper_segments : list WhisperSegment)
    (diarization : Tracks) : list MappedSegment :=
  map (map_segment diarization) whisper_segments.

End Pipeline2.

(** ** [pipeline.py]: the first [map_speakers_to_segments] *)

Module Pipeline1.

Section SetOrder.

(** [set(overlapping)] is iterated by [max]; the order in which a [set] of
    [str] yields its elements is fixed by the interpreter's string hashing,
    not by the code or its inputs.  It is a parameter here: the elements of
    the list, each once, in the order of that iteration. *)
Variable set_iter : list string -> list string.

(** The list [overlapping]: the labels of the turns met by the test
    [start < turn.end and end > turn.start], in iteration order. *)
Fixpoint overlapping (start_ end__ : Q) (diarization : Tracks) : list string :=
  match diarization with
  | [] => []
  | (turn, spk) :: rest =>
      if Py.lt start_ (seg_end turn) && Py.gt end__ (seg_start turn)
      then spk :: overlapping start_ end__ rest
      else overlapping start_ end__ rest
  end.

(** [max(set(overlapping), key=overlapping.count)], or ["Unknown"]. *)
Definition choose_speaker (start_ end__ : Q) (diarization : Tracks) : string :=
  let ov := overlapping start_ end__ diarization in
  match ov with
  | [] => "Unknown"
  | _ :: _ =>
      match Py.max_by Py.gt_nat (Py.count ov) (set_iter ov) with
      | Some spk => spk
      | None => "Unknown" (* not reached: the set of a non-empty list is
                             non-empty *)
      end
  end.

Definition map_segment (diarization : Tracks) (seg : WhisperSegment) : MappedSegment :=
  {| start := ws_start seg;
     end_ := ws_end seg;
     text := ws_text seg;
     speaker := choose_speaker (ws_start seg) (ws_end seg) diarization |}.

Definition map_speakers_to_segments (whisper_segments : list WhisperSegment)
    (diarization : Tracks) : list MappedSegment :=
  map (map_segment diarization) whisper_segments.

End SetOrder.

(** What every iteration order of a set satisfies. *)
Definition set_order (set_iter : list string -> list string) : Prop :=
  forall xs, List.NoDup (set_iter xs) /\ (forall x, In x (set_iter xs) <-> In x xs).

(** Two iteration orders: first occurrence first, and its reverse. *)
Fixpoint first_seen (xs : list string) : list string :=
  match xs with
  | [] => []
  | x :: xs' => x :: List.filter (fun y => negb (String.eqb x y)) (first_seen xs')
  end.

Definition last_seen (xs : list string) : list string := rev (first_seen xs).

End Pipeline1.

(** ** [python_diarization.py]: [align_segments] *)

Module Diarization.

(** An element of the list [diarize_pyannote] returns: [(start, end, speaker)]. *)
Definition DiarTuple : Type := (Q * Q * string)%type.

(** The comprehension of [diarize_pyannote] over [itertracks]. *)
Definition segments_of (tracks : Tracks) : list DiarTuple :=
  map (fun ts : Segment * string => (seg_start (fst ts), seg_end (fst ts), snd ts)) tracks.

(** The comprehension [overlapping]. *)
Definition overlapping (s : WhisperSegment) (diarization : list DiarTuple) : list DiarTuple :=
  List.filter (fun seg : DiarTuple =>
            let '(seg0, seg1, _) := seg in
            negb (Py.le (ws_end s) seg0 || Py.ge (ws_start s) seg1))
         diarization.

(** The key of [max]: [min(s["end"], seg[1]) - max(s["start"], seg[0])]. *)
Definition overlap_key (s : WhisperSegment) (seg : DiarTuple) : Q :=
  let '(seg0, seg1, _) := seg in
  Float.sub (Py.min2 (ws_end s) seg1) (Py.max2 (ws_start s) seg0).

Definition choose_speaker (s : WhisperSegment) (diarization : list DiarTuple) : string :=
  match Py.max_by Py.gt (overlap_key s) (overlapping s diarization) with
  | Some best_seg => "Speaker_" +:+ snd best_seg
  | None => "Speaker_unknown"
  end.

Definition align_segment (diarization : list DiarTuple) (s : WhisperSegment) : MappedSegment :=
  {| start := ws_start s;
     end_ := ws_end s;
     text := Py.strip (ws_text s);
     speaker := choose_speaker s diarization |}.

Definition align_segments (ts : list WhisperSegment) (diarization : list DiarTuple)
    : list MappedSegment :=
  map (align_segment diarization) ts.

End Diarization.

Definition mkseg (a b : Q) : Segment := {| seg_start := a; seg_end := b |}.

(** ** Audio, files and collaborators *)

(** A call that returns or raises. *)
Inductive result (A : Type) : Type :=
| Ok (a : A)
| Raise (e : string).
Arguments Ok {A} a.
Arguments Raise {A} e.

(** What the code can observe of a [pydub.AudioSegment]: the channel count,
    the frame rate in Hz and [len(audio)], the duration in milliseconds. *)
Record AudioSegment := {
  channels : Z;
  frame_rate : Z;
  duration_ms : Z
}.

Module Pydub.

(** [audio[:ms]] for a bound [0 <= ms]: the first [ms] milliseconds, the whole
    audio when it is shorter.  (The code only slices from the start.) *)
Definition slice_to (audio : AudioSegment) (ms : Z) : AudioSegment :=
  {| channels := channels audio;
     frame_rate := frame_rate audio;
     duration_ms := Z.min ms (duration_ms audio) |}.

(** [audio.set_channels(n)]. *)
Definition set_channels (audio : AudioSegment) (n : Z) : AudioSegment :=
  {| channels := n;
     frame_rate := frame_rate audio;
     duration_ms := duration_ms audio |}.

(** [audio.set_frame_rate(hz)]. *)
Definition set_frame_rate (audio : AudioSegment) (hz : Z) : AudioSegment :=
  {| channels := channels audio;
     frame_rate := hz;
     duration_ms := duration_ms audio |}.

End Pydub.

(** A file of the output directory that holds a value of type [A]: missing,
    present but unreadable (it does not decode), or present with a value.
    A file that decodes is taken to hold a value of the shape its stage
    writes: the code does not check the shape of what it loads, and a
    record of another shape, which only a writer other than these stages
    can leave, is outside this model. *)
Inductive file (A : Type) : Type :=
| Absent
| Corrupt
| Stored (a : A).
Arguments Absent {A}.
Arguments Corrupt {A}.
Arguments Stored {A} a.

(** [os.path.exists]. *)
Definition exists_ {A : Type} (f : file A) : bool :=
  match f with
  | Absent => false
  | _ => true
  end.

(** [python_diarization.py]: [trim_to_wav].  [from_file] is the result of
    [AudioSegment.from_file(input_mp3)]; the value is the WAV file written
    by [export]. *)
Definition trim_to_wav (from_file : result AudioSegment) (max_sec : Z)
    : result (file AudioSegment) :=
  match from_file with
  | Raise e => Raise e
  | Ok audio =>
      let audio := Pydub.set_frame_rate (Pydub.set_channels audio 1) 16000 in
      Ok (Stored (Pydub.slice_to audio (max_sec * 1000)))
  end.

(** [pipeline.py]: [convert_and_trim]. *)
Definition convert_and_trim (from_file : result AudioSegment) (max_duration_sec : Z)
    : result (file AudioSegment) :=
  match from_file with
  | Raise e => Raise e
  | Ok audio =>
      let trimmed := Pydub.slice_to audio (max_duration_sec * 1000) in
      Ok (Stored trimmed)
  end.

(** The record [{"text": ..., "segments": [...]}] Whisper returns. *)
Record WhisperResult := {
  wr_text : string;
  wr_segments : list WhisperSegment
}.

(** An item of the list saved as [diarization_raw]. *)
Record DiarItem := {
  di_speaker : string;
  di_start : Q;
  di_end : Q
}.

(** An item of the list [extract_audio_features] returns. *)
Record AudioFeatures := {
  mfccs : list Q;
  chroma : list Q;
  rms_energy : Q
}.

(** The stages of [run_full_pipeline] that leave a file behind which a later
    run picks up: the trimmed WAV of step 1 and the eight intermediate JSON
    records, named as the [step_name] passed to [save_intermediate_json]. *)
Inductive Stage : Type :=
| audio_trimmed
| whisper_raw
| diarization_raw
| mapped_segments
| audio_features
| text_embeddings
| text_emotions
| speech_emotions
| keywords.

Global Instance Stage_eq_dec : EqDecision Stage.
Proof. solve_decision. Defined.

(** The position of a stage in the order of execution, from 1. *)
Definition stage_index (s : Stage) : nat :=
  match s with
  | audio_trimmed => 1
  | whisper_raw => 2
  | diarization_raw => 3
  | mapped_segments => 4
  | audio_features => 5
  | text_embeddings => 6
  | text_emotions => 7
  | speech_emotions => 8
  | keywords => 9
  end.

(** The stages cached as a JSON record (all but the WAV of step 1). *)
Definition json_stage (s : Stage) : bool :=
  match s with
  | audio_trimmed => false
  | _ => true
  end.

(** The value a stage's file holds. *)
Definition payload (s : Stage) : Type :=
  match s with
  | audio_trimmed => AudioSegment
  | whisper_raw => WhisperResult
  | diarization_raw => list DiarItem
  | mapped_segments => list MappedSegment
  | audio_features => list AudioFeatures
  | text_embeddings => list (list Q)
  | text_emotions => list string
  | speech_emotions => list string
  | keywords => list (list string)
  end.

(** The files [<filename_base>_<step>] of the output directory, one per
    stage.  A stored record has the shape the stage writes. *)
Record Cache := {
  f_audio_trimmed : file AudioSegment;
  f_whisper_raw : file WhisperResult;
  f_diarization_raw : file (list DiarItem);
  f_mapped_segments : file (list MappedSegment);
  f_audio_features : file (list AudioFeatures);
  f_text_embeddings : file (list (list Q));
  f_text_emotions : file (list string);
  f_speech_emotions : file (list string);
  f_keywords : file (list (list string))
}.

Definition get (s : Stage) (c : Cache) : file (payload s) :=
  match s return file (payload s) with
  | audio_trimmed => f_audio_trimmed c
  | whisper_raw => f_whisper_raw c
  | diarization_raw => f_diarization_raw c
  | mapped_segments => f_mapped_segments c
  | audio_features => f_audio_features c
  | text_embeddings => f_text_embeddings c
  | text_emotions => f_text_emotions c
  | speech_emotions => f_speech_emotions c
  | keywords => f_keywords c
  end.

Definition put (s : Stage) (v : file (payload s)) (c : Cache) : Cache :=
  match s return file (payload s) -> Cache with
  | audio_trimmed => fun v =>
      Build_Cache v (f_whisper_raw c) (f_diarization_raw c) (f_mapped_segments c)
        (f_audio_features c) (f_text_embeddings c) (f_text_emotions c)
        (f_speech_emotions c) (f_keywords c)
  | whisper_raw => fun v =>
      Build_Cache (f_audio_trimmed c) v (f_diarization_raw c) (f_mapped_segments c)
        (f_audio_features c) (f_text_embeddings c) (f_text_emotions c)
        (f_speech_emotions c) (f_keywords c)
  | diarization_raw => fun v =>
      Build_Cache (f_audio_trimmed c) (f_whisper_raw c) v (f_mapped_segments c)
        (f_audio_features c) (f_text_embeddings c) (f_text_emotions c)
        (f_speech_emotions c) (f_keywords c)
  | mapped_segments => fun v =>
      Build_Cache (f_audio_trimmed c) (f_whisper_raw c) (f_diarization_raw c) v
        (f_audio_features c) (f_text_embeddings c) (f_text_emotions c)
        (f_speech_emotions c) (f_keywords c)
  | audio_features => fun v =>
      Build_Cache (f_audio_trimmed c) (f_whisper_raw c) (f_diarization_raw c)
        (f_mapped_segments c) v (f_text_embeddings c) (f_text_emotions c)
        (f_speech_emotions c) (f_keywords c)
  | text_embeddings => fun v =>
      Build_Cache (f_audio_trimmed c) (f_whisper_raw c) (f_diarization_raw c)
        (f_mapped_segments c) (f_audio_features c) v (f_text_emotions c)
        (f_speech_emotions c) (f_keywords c)
  | text_emotions => fun v =>
      Build_Cache (f_audio_trimmed c) (f_whisper_raw c) (f_diarization_raw c)
        (f_mapped_segments c) (f_audio_features c) (f_text_embeddings c) v
        (f_speech_emotions c) (f_keywords c)
  | speech_emotions => fun v =>
      Build_Cache (f_audio_trimmed c) (f_whisper_raw c) (f_diarization_raw c)
        (f_mapped_segments c) (f_audio_features c) (f_text_embeddings c)
        (f_text_emotions c) v (f_keywords c)
  | keywords => fun v =>
      Build_Cache (f_audio_trimmed c) (f_whisper_raw c) (f_diarization_raw c)
        (f_mapped_segments c) (f_audio_features c) (f_text_embeddings c)
        (f_text_emotions c) (f_speech_emotions c) v
  end v.

(** A record of [final_segments]: the mapped segment's keys and the five
    keys the aggregation loop sets.  The two heavy keys are optional, since
    the simplified document pops them: [None] is an absent key. *)
Record FinalSegment := {
  fs_segment : MappedSegment;
  fs_audio_features : option AudioFeatures;
  fs_text_embedding : option (list Q);
  fs_text_emotion : string;
  fs_speech_emotion : string;
  fs_keywords : list string
}.

(** [full_output_data] and [simplified_output_data]. *)
Record Document := {
  audio_file : string;
  full_transcript : string;
  segments : list FinalSegment
}.

(** The files [save_final_results] writes: the JSON document, the CSV
    summary (its rows, one per segment) and the plain transcript. *)
Inductive OutFile : Type :=
| JsonFile (d : Document)
| CsvFile (rows : list FinalSegment)
| TextFile (s : string).

(** What a run prints or does, as far as the properties below observe it. *)
Inductive Event : Type :=
| Call (s : Stage)              (* the stage's compute function is called *)
| CacheHit (s : Stage)          (* the stage's file is used instead *)
| CacheUnreadable (s : Stage)   (* "Error decoding JSON ... File might be corrupted." *)
| CacheSave (s : Stage)         (* the stage's file is written *)
| PipelineStopped (s : Stage) (e : string)  (* "Pipeline stopped at Step ..." *)
| NoValidSegments               (* "No valid segments found after mapping. ..." *)
| Discrepancy (min_len total : nat) (* "Warning: Discrepancy in segment counts. ..." *)
| FinalSave (name : string).    (* a file of [save_final_results] is written *)

(** The state a run reads and changes: the stage files, the final files of
    the output directory by name, and what was printed or called so far. *)
Record World := {
  cache : Cache;
  outputs : gmap string OutFile;
  log : list Event
}.

Definition emit (e : Event) (w : World) : World :=
  {| cache := cache w; outputs := outputs w; log := log w ++ [e] |}.

Definition write_stage (s : Stage) (v : file (payload s)) (w : World) : World :=
  {| cache := put s v (cache w); outputs := outputs w; log := log w |}.

Definition write_output (name : string) (f : OutFile) (w : World) : World :=
  {| cache := cache w; outputs := <[name := f]> (outputs w); log := log w |}.

(** The collaborators the pipeline calls.  Each is a function of what the
    code passes to it; the WAV path is passed as the file it names. *)
Record Env := {
  (** [os.path.basename] *)
  basename : string -> string;
  (** [os.path.splitext(...)[0]] *)
  splitext_root : string -> string;
  (** [AudioSegment.from_file] *)
  from_file : string -> result AudioSegment;
  (** [get_whisper_model().transcribe(wav_path)] *)
  whisper_transcribe : file AudioSegment -> result WhisperResult;
  (** [get_pyannote_pipeline()(wav_path)], as the tracks the annotation yields *)
  pyannote_pipeline : file AudioSegment -> result Tracks;
  (** the tracks yielded by the [Annotation] that step 3 fills with
      [annotation[Segment(start, end)] = speaker], item by item *)
  annotation_tracks : list DiarItem -> Tracks;
  (** [extract_audio_features(wav_path, segments)] *)
  librosa_features : file AudioSegment -> list MappedSegment -> result (list AudioFeatures);
  (** [get_sentence_transformer_model().encode(texts).tolist()] *)
  sentence_encode : list string -> result (list (list Q));
  (** [get_text_emotion_classifier()(texts)], the labels *)
  text_classifier : list string -> result (list string);
  (** [get_ser_models()] *)
  get_ser_models : result unit;
  (** [torchaudio.load(wav_path)] made mono and resampled: [len(speech_tensor)] *)
  torchaudio_load : file AudioSegment -> result Z;
  (** [classifier.classify_batch(speech_tensor[a:b])]: the list [text_lab] *)
  classify_batch : Z -> Z -> result (list string);
  (** [get_yake_extractor().extract_keywords(text)], the keywords *)
  yake_keywords : string -> result (list string)
}.

(** The control of [run_full_pipeline]: a step continues with a value,
    returns [{}] from the function, or lets an exception out of it. *)
Inductive outcome (A : Type) : Type :=
| Val (a : A)
| Stop
| Exn (e : string).
Arguments Val {A} a.
Arguments Stop {A}.
Arguments Exn {A} e.

Definition Run (A : Type) : Type := World -> outcome A * World.

Definition ret {A : Type} (a : A) : Run A := fun w => (Val a, w).

Definition bind {A B : Type} (m : Run A) (k : A -> Run B) : Run B :=
  fun w =>
    match m w with
    | (Val a, w') => k a w'
    | (Stop, w') => (Stop, w')
    | (Exn e, w') => (Exn e, w')
    end.

Definition tell (e : Event) : Run unit := fun w => (Val tt, emit e w).

Definition stop {A : Type} : Run A := fun w => (Stop, w).

Definition throw {A : Type} (e : string) : Run A := fun w => (Exn e, w).

Declare Scope run_scope.
Delimit Scope run_scope with run.
Notation "x <- m ;; k" := (bind m (fun x => k))
  (at level 100, m at next level, right associativity) : run_scope.
Notation "m ;;; k" := (bind m (fun _ => k))
  (at level 100, right associativity) : run_scope.

(** ** [pipeline2.py]: the stage cache *)

(** [load_intermediate_json]: the stored value, or [None] when the file is
    missing or does not decode (the [except] branches print and return
    [None]).  A stored value is never JSON [null]: no stage writes one.
    The value is returned as it is decoded, with no check of its shape. *)
Definition load_intermediate_json (s : Stage) (w : World) : option (payload s) * World :=
  match get s (cache w) with
  | Absent => (None, w)
  | Corrupt => (None, emit (CacheUnreadable s) w)
  | Stored data => (Some data, emit (CacheHit s) w)
  end.

(** [save_intermediate_json].  The write is taken to succeed; the caller
    ignores what the function returns. *)
Definition save_intermediate_json (s : Stage) (data : payload s) (w : World) : World :=
  emit (CacheSave s) (write_stage s (Stored data) w).

(** The block every step from 2 to 8 repeats:
<<
    try:
        loaded = load_intermediate_json(output_dir, filename_base, step)
        if loaded is None:
            value = compute(...)
            save_intermediate_json(value, output_dir, filename_base, step)
        else:
            value = loaded
    except Exception as e:
        print(f"Pipeline stopped at Step ... due to error: {e}")
        return {}
>>
    [compute] is what the call returns if it is made; the call is made, and
    logged, only on the branch that makes it. *)
Definition cached_step (s : Stage) (compute : result (payload s)) : Run (payload s) :=
  fun w =>
    match load_intermediate_json s w with
    | (Some loaded, w1) => (Val loaded, w1)
    | (None, w1) =>
        let w2 := emit (Call s) w1 in
        match compute with
        | Ok value => (Val value, save_intermediate_json s value w2)
        | Raise e => (Stop, emit (PipelineStopped s e) w2)
        end
    end.

(** ** [pipeline2.py]: the stage functions *)

(** [preprocess_audio]: the path of the trimmed WAV ([Some tt]: the path is
    fixed by the output directory and the file name), or [None]. *)
Definition preprocess_audio (env : Env) (input_audio_path : string)
    (max_duration_sec : Z) (w : World) : option unit * World :=
  if exists_ (get audio_trimmed (cache w))
  then (Some tt, emit (CacheHit audio_trimmed) w)
  else
    let w1 := emit (Call audio_trimmed) w in
    match from_file env input_audio_path with
    | Ok audio =>
        let trimmed_audio := Pydub.slice_to audio (max_duration_sec * 1000) in
        (Some tt, write_stage audio_trimmed (Stored trimmed_audio) w1)
    | Raise e => (None, w1)
    end.

(** [transcribe_audio]: any error is re-raised as a [RuntimeError]. *)
Definition transcribe_audio (env : Env) (wav : file AudioSegment) : result WhisperResult :=
  whisper_transcribe env wav.

(** [perform_speaker_diarization]. *)
Definition perform_speaker_diarization (env : Env) (wav : file AudioSegment) : result Tracks :=
  pyannote_pipeline env wav.

(** The comprehension of step 3 that flattens the annotation. *)
Definition diarization_list_of (tracks : Tracks) : list DiarItem :=
  map (fun ts : Segment * string =>
         {| di_speaker := snd ts; di_start := seg_start (fst ts); di_end := seg_end (fst ts) |})
      tracks.

(** [extract_audio_features], taken as a whole. *)
Definition extract_audio_features (env : Env) (wav : file AudioSegment)
    (segs : list MappedSegment) : result (list AudioFeatures) :=
  librosa_features env wav segs.

(** [get_text_embeddings]. *)
Definition get_text_embeddings (env : Env) (texts : list string) : result (list (list Q)) :=
  sentence_encode env texts.

(** [run_text_emotion_analysis]. *)
Definition run_text_emotion_analysis (env : Env) (texts : list string) : result (list string) :=
  text_classifier env texts.

(** The sampling rate [sr] of [run_speech_emotion_recognition]. *)
Definition sr : Q := 16000.

(** [speech_tensor[a:b]] on a tensor of [n] samples, for [0 < b <= n] or
    [b = 0 = n]: the bounds after Python has resolved a negative [a]. *)
Definition slice_start (n a : Z) : Z :=
  if (a <? 0)%Z then Z.max (a + n) 0 else Z.min a n.

(** The body of the loop of [run_speech_emotion_recognition]: the label of
    one segment, on a tensor of [n] samples. *)
Definition segment_emotion (env : Env) (n : Z) (seg : MappedSegment) : string :=
  let start_sample := Py.int (Float.mul (start seg) sr) in
  let end_sample := Py.int (Float.mul (end_ seg) sr) in
  if (start_sample >=? n)%Z || (end_sample <=? 0)%Z || (start_sample >=? end_sample)%Z
  then "unknown"
  else
    let a := slice_start n start_sample in
    let b := Z.min end_sample n in
    if (b - a <=? 0)%Z
    then "unknown"
    else
      match classify_batch env a b with
      | Ok (label :: _) => label
      | Ok [] => "unknown_no_label"
      | Raise _ => "unknown"
      end.

(** [run_speech_emotion_recognition]. *)
Definition run_speech_emotion_recognition (env : Env) (wav : file AudioSegment)
    (segs : list MappedSegment) : result (list string) :=
  match get_ser_models env with
  | Raise e => Raise e
  | Ok _ =>
      if negb (exists_ wav)
      then Raise "Audio file not found for SER"
      else
        match torchaudio_load env wav with
        | Raise e => Raise e
        | Ok n => Ok (map (segment_emotion env n) segs)
        end
  end.

(** [extract_keywords]: the loop is inside one [try], the first text whose
    extraction raises ends it. *)
Fixpoint extract_keywords (env : Env) (texts : list string) : result (list (list string)) :=
  match texts with
  | [] => Ok []
  | text_ :: rest =>
      match yake_keywords env text_ with
      | Raise e => Raise e
      | Ok kws =>
          match extract_keywords env rest with
          | Raise e => Raise e
          | Ok all_keywords => Ok (kws :: all_keywords)
          end
      end
  end.

(** [save_final_results]: the JSON document, the CSV summary when there are
    segments, and the transcript text.  The three writes are taken to
    succeed. *)
Definition save_final_results (filename_base : string) (full_output_data : Document)
    (segmented_data : list FinalSegment) : Run unit :=
  fun w =>
    let json_path := filename_base +:+ "_final_output.json" in
    let w := emit (FinalSave json_path) (write_output json_path (JsonFile full_output_data) w) in
    let csv_path := filename_base +:+ "_summary.csv" in
    let w :=
      match segmented_data with
      | [] => w
      | _ :: _ => emit (FinalSave csv_path) (write_output csv_path (CsvFile segmented_data) w)
      end in
    let txt_path := filename_base +:+ "_transcript.txt" in
    (Val tt,
     emit (FinalSave txt_path)
       (write_output txt_path (TextFile (full_transcript full_output_data)) w)).

(** ** [pipeline2.py]: aggregation *)

(** [min(len(...), ..., len(...))] of the six lists. *)
Definition min_len (diarized_segments : list MappedSegment)
    (audio_features_ : list AudioFeatures) (text_embeddings_ : list (list Q))
    (text_emotions_ speech_emotions_ : list string) (keywords_ : list (list string)) : nat :=
  Nat.min (length diarized_segments)
    (Nat.min (length audio_features_)
       (Nat.min (length text_embeddings_)
          (Nat.min (length text_emotions_)
             (Nat.min (length speech_emotions_) (length keywords_))))).

(** The body of the aggregation loop at index [i]; an index out of range
    raises [IndexError]: [None]. *)
Definition combine (diarized_segments : list MappedSegment)
    (audio_features_ : list AudioFeatures) (text_embeddings_ : list (list Q))
    (text_emotions_ speech_emotions_ : list string) (keywords_ : list (list string))
    (i : nat) : option FinalSegment :=
  seg_data ← diarized_segments !! i;
  af ← audio_features_ !! i;
  emb ← text_embeddings_ !! i;
  temo ← text_emotions_ !! i;
  semo ← speech_emotions_ !! i;
  kws ← keywords_ !! i;
  Some {| fs_segment := seg_data;
          fs_audio_features := Some af;
          fs_text_embedding := Some emb;
          fs_text_emotion := temo;
          fs_speech_emotion := semo;
          fs_keywords := kws |}.

(** The loop [for i in range(min_len)]. *)
Definition aggregate (diarized_segments : list MappedSegment)
    (audio_features_ : list AudioFeatures) (text_embeddings_ : list (list Q))
    (text_emotions_ speech_emotions_ : list string) (keywords_ : list (list string))
    : option (list FinalSegment) :=
  mapM (combine diarized_segments audio_features_ text_embeddings_
          text_emotions_ speech_emotions_ keywords_)
       (seq 0 (min_len diarized_segments audio_features_ text_embeddings_
                 text_emotions_ speech_emotions_ keywords_)).

(** The warning printed before the loop, if any. *)
Definition discrepancy (diarized_segments : list MappedSegment)
    (audio_features_ : list AudioFeatures) (text_embeddings_ : list (list Q))
    (text_emotions_ speech_emotions_ : list string) (keywords_ : list (list string))
    : option Event :=
  let n := min_len diarized_segments audio_features_ text_embeddings_
             text_emotions_ speech_emotions_ keywords_ in
  if (n <? length diarized_segments)%nat
  then Some (Discrepancy n (length diarized_segments))
  else None.

(** The copy of a final segment with [audio_features] and [text_embedding]
    popped. *)
Definition simplify (segment : FinalSegment) : FinalSegment :=
  {| fs_segment := fs_segment segment;
     fs_audio_features := None;
     fs_text_embedding := None;
     fs_text_emotion := fs_text_emotion segment;
     fs_speech_emotion := fs_speech_emotion segment;
     fs_keywords := fs_keywords segment |}.

(** ** [pipeline2.py]: [run_full_pipeline] *)

Local Open Scope run_scope.

(** Steps 1 to 8: the values the aggregation uses. *)
Record Collected := {
  c_whisper_result : WhisperResult;
  c_diarized_segments : list MappedSegment;
  c_audio_features : list AudioFeatures;
  c_text_embeddings : list (list Q);
  c_text_emotions : list string;
  c_speech_emotions : list string;
  c_keywords : list (list string)
}.

(** Step 1 and the test [if wav_path is None: print("Pipeline stopped at
    Step 1 due to preprocessing error."); return {}]. *)
Definition preprocess_step (env : Env) (input_audio_path : string)
    (max_duration_sec : Z) : Run unit :=
  fun w =>
    match preprocess_audio env input_audio_path max_duration_sec w with
    | (Some wav_path, w') => (Val wav_path, w')
    | (None, w') => (Stop, emit (PipelineStopped audio_trimmed "preprocessing error") w')
    end.

(** The file [wav_path] names, as the later steps find it. *)
Definition read_wav : Run (file AudioSegment) :=
  fun w => (Val (get audio_trimmed (cache w)), w).

Definition run_stages (env : Env) (input_audio_path : string) (max_duration_sec : Z)
    : Run Collected :=
  preprocess_step env input_audio_path max_duration_sec ;;;
  wav <- read_wav ;;
  if negb (exists_ wav)
  then tell (PipelineStopped audio_trimmed "Preprocessed WAV file not found") ;;; stop
  else
  whisper_result <- cached_step whisper_raw (transcribe_audio env wav) ;;
  let whisper_segments := wr_segments whisper_result in
  diarization_list <- cached_step diarization_raw
      (match perform_speaker_diarization env wav with
       | Ok diarization_obj => Ok (diarization_list_of diarization_obj)
       | Raise e => Raise e
       end) ;;
  let diarization_reconstructed := annotation_tracks env diarization_list in
  diarized_segments <- cached_step mapped_segments
      (Ok (Pipeline2.map_speakers_to_segments whisper_segments diarization_reconstructed)) ;;
  let texts := map text diarized_segments in
  match diarized_segments with
  | [] => tell NoValidSegments ;;; stop
  | _ :: _ =>
      audio_features_ <- cached_step audio_features
          (extract_audio_features env wav diarized_segments) ;;
      text_embeddings_ <- cached_step text_embeddings (get_text_embeddings env texts) ;;
      text_emotions_ <- cached_step text_emotions (run_text_emotion_analysis env texts) ;;
      speech_emotions_ <- cached_step speech_emotions
          (run_speech_emotion_recognition env wav diarized_segments) ;;
      keywords_ <- cached_step keywords (extract_keywords env texts) ;;
      ret {| c_whisper_result := whisper_result;
             c_diarized_segments := diarized_segments;
             c_audio_features := audio_features_;
             c_text_embeddings := text_embeddings_;
             c_text_emotions := text_emotions_;
             c_speech_emotions := speech_emotions_;
             c_keywords := keywords_ |}
  end.

(** The lines after step 8, up to the [return] that ends the function: the
    two statements after it (saving under [filename_base] itself) are never
    executed and have no counterpart here. *)
Definition finish (env : Env) (input_audio_path : string) (c : Collected) : Run Document :=
  let filename_base := splitext_root env (basename env input_audio_path) in
  match discrepancy (c_diarized_segments c) (c_audio_features c) (c_text_embeddings c)
          (c_text_emotions c) (c_speech_emotions c) (c_keywords c) with
  | Some warning => tell warning
  | None => ret tt
  end ;;;
  match aggregate (c_diarized_segments c) (c_audio_features c) (c_text_embeddings c)
          (c_text_emotions c) (c_speech_emotions c) (c_keywords c) with
  | None => throw "IndexError"
  | Some final_segments =>
      let full_output_data :=
        {| audio_file := basename env input_audio_path;
           full_transcript := Py.strip (wr_text (c_whisper_result c));
           segments := final_segments |} in
      let simplified_segments := map simplify final_segments in
      let simplified_output_data :=
        {| audio_file := basename env input_audio_path;
           full_transcript := Py.strip (wr_text (c_whisper_result c));
           segments := simplified_segments |} in
      save_final_results (filename_base +:+ "_no_embeddings")
        simplified_output_data simplified_segments ;;;
      ret full_output_data
  end.

Definition run_full_pipeline (env : Env) (input_audio_path : string)
    (max_duration_sec : Z) : Run Document :=
  c <- run_stages env input_audio_path max_duration_sec ;;
  finish env input_audio_path c.

Local Close Scope run_scope.
(** ** The vocabulary of the specification *)

Module Spec.

(** Overlap of two spans, in the words of the data model:
    [max(0, min(A.end, B.end) - max(A.start, B.start))]. *)
Definition overlap (a_start a_end b_start b_end : Q) : Q :=
  Qmax 0 (Qmin a_end b_end - Qmax a_start b_start).

(** The overlap of a turn with the segment [[s, e]]. *)
Definition turn_overlap (s e : Q) (turn : Segment) : Q :=
  overlap s e (seg_start turn) (seg_end turn).

(** Total overlap of a speaker with the segment [[s, e]], as floats add
    up: the overlaps of the turns of that speaker that overlap the segment,
    each the rounded difference [overlap_duration] computes, added to [acc]
    one after the other in the order of the turns. *)
Fixpoint total_from (s e acc : Q) (turns : Tracks) (spk : string) : Q :=
  match turns with
  | [] => acc
  | (turn, spk') :: rest =>
      let duration := Pipeline2.overlap_duration s e turn in
      total_from s e
        (if String.eqb spk' spk && Py.gt duration 0 then Float.add acc duration else acc)
        rest spk
  end.

Definition total_overlap (s e : Q) (turns : Tracks) (spk : string) : Q :=
  total_from s e 0 turns spk.

(** A segment has positive overlap with some turn. *)
Definition overlaps_some (s e : Q) (turns : Tracks) : Prop :=
  exists turn spk, In (turn, spk) turns /\ 0 < turn_overlap s e turn.

(** A run of tokens: the concatenation of lists that pass [tok]. *)
Inductive runs (tok : list ascii -> bool) : list ascii -> Prop :=
| runs_nil : runs tok []
| runs_cons (w l : list ascii) : tok w = true -> runs tok l -> runs tok (w ++ l).

(** A run of whitespace characters. *)
Definition spaces (l : list ascii) : Prop := runs Py.isspace l.

(** Surrounding whitespace trimmed: [t] is [s] without a leading and a
    trailing run of whitespace, and neither starts nor ends with a
    whitespace character. *)
Definition trimmed_of (s t : string) : Prop :=
  (exists l r,
     list_ascii_of_string s = l ++ list_ascii_of_string t ++ r /\ spaces l /\ spaces r) /\
  (forall w u, list_ascii_of_string t = w ++ u -> Py.isspace w = false) /\
  (forall u w, list_ascii_of_string t = u ++ w -> Py.isspace w = false).

End Spec.

(** The durations a list of [(speaker, duration)] pairs holds for one
    speaker, added to [acc] in list order. *)
Fixpoint sum_from (acc : Q) (overlapping : list (string * Q)) (spk : string) : Q :=
  match overlapping with
  | [] => acc
  | (spk', duration) :: rest =>
      sum_from (if String.eqb spk' spk then Float.add acc duration else acc) rest spk
  end.

(** ** Reasoning about runs *)

(** A world in which nothing has been printed or called yet. *)
Definition initial (c : Cache) (o : gmap string OutFile) : World :=
  {| cache := c; outputs := o; log := [] |}.

Definition stored {A : Type} (f : file A) : bool :=
  match f with
  | Stored _ => true
  | _ => false
  end.

(** The file of a stage lets a run skip the stage: the WAV of step 1 has
    to exist, a JSON record has to decode. *)
Definition usable (s : Stage) (c : Cache) : bool :=
  if json_stage s then stored (get s c) else exists_ (get s c).

(** The world in which the stage is computed: the unreadable record, if
    any, has been reported. *)
Definition after_miss (s : Stage) (w : World) : World :=
  match get s (cache w) with
  | Corrupt => emit (CacheUnreadable s) w
  | _ => w
  end.

(** A cache in which every JSON record that does not decode is removed. *)
Definition as_absent {A : Type} (f : file A) : file A :=
  match f with
  | Corrupt => Absent
  | _ => f
  end.

Definition scrub (c : Cache) : Cache :=
  {| f_audio_trimmed := f_audio_trimmed c;
     f_whisper_raw := as_absent (f_whisper_raw c);
     f_diarization_raw := as_absent (f_diarization_raw c);
     f_mapped_segments := as_absent (f_mapped_segments c);
     f_audio_features := as_absent (f_audio_features c);
     f_text_embeddings := as_absent (f_text_embeddings c);
     f_text_emotions := as_absent (f_text_emotions c);
     f_speech_emotions := as_absent (f_speech_emotions c);
     f_keywords := as_absent (f_keywords c) |}.

(** From a world that satisfies [P], the step continues into [Q], or
    returns [{}] in a world that satisfies [S]; it lets no exception out. *)
Definition triple {A : Type} (P : World -> Prop) (m : Run A)
    (Q : A -> World -> Prop) (S : World -> Prop) : Prop :=
  forall w, P w ->
    match m w with
    | (Val a, w') => Q a w'
    | (Stop, w') => S w'
    | (Exn _, _) => False
    end.

(** Two worlds that a run cannot tell apart: the same final files and the
    same stage files, up to records that do not decode. *)
Definition same_view (w1 w2 : World) : Prop :=
  scrub (cache w1) = scrub (cache w2) /\ outputs w1 = outputs w2.

(** A step that treats such worlds alike. *)
Definition respects {A : Type} (m : Run A) : Prop :=
  forall w1 w2, same_view w1 w2 ->
    fst (m w1) = fst (m w2) /\ same_view (snd (m w1)) (snd (m w2)).

(** What holds of a run that found the files of the first [k] stages in
    the cache [c0], once [n] stages are over: no compute function of these
    stages was called, their files are as they were, and those among the
    first [n] were read from their file. *)
Definition resumed (c0 : Cache) (k n : nat) (w : World) : Prop :=
  (forall s, In (Call s) (log w) -> (k < stage_index s)%nat) /\
  (forall s, (stage_index s <= k)%nat -> get s (cache w) = get s c0) /\
  (forall s, (stage_index s <= k)%nat -> (stage_index s <= n)%nat ->
             In (CacheHit s) (log w)).

(** What holds of a run in which no stage has failed, once [n] stages
    are over, and of a run that returned [{}]: [o0] are the final files the
    run started with. *)
Definition unfailed (o0 : gmap string OutFile) (n : nat) (w : World) : Prop :=
  outputs w = o0 /\
  (forall t, In (Call t) (log w) -> (stage_index t <= n)%nat) /\
  (forall t e, ~ In (PipelineStopped t e) (log w)) /\
  (forall name, ~ In (FinalSave name) (log w)).

Definition aborted (o0 : gmap string OutFile) (w : World) : Prop :=
  outputs w = o0 /\
  (forall name, ~ In (FinalSave name) (log w)) /\
  (forall s e, In (PipelineStopped s e) (log w) ->
     forall t, In (Call t) (log w) -> (stage_index t <= stage_index s)%nat).

(** ** A small recording, for the examples *)

Module Demo.

Definition segs : list WhisperSegment :=
  [ {| ws_start := 0; ws_end := 2; ws_text := " hello" |};
    {| ws_start := 2; ws_end := 4; ws_text := " world " |} ].

Definition tracks : Tracks :=
  [(mkseg 0 1, "A"); (mkseg 1 2, "B"); (mkseg (3#2) 4, "A")]%string.

Definition stereo : AudioSegment :=
  {| channels := 2; frame_rate := 44100; duration_ms := 400000 |}.

Definition zero_features : AudioFeatures :=
  {| mfccs := repeat 0 13; chroma := repeat 0 12; rms_energy := 0 |}.

(** Collaborators that all succeed, but for the speech-emotion model
    ([ser]) and its classifier ([classify]), which are given. *)
Definition env_with (ser : result unit) (classify : Z -> Z -> result (list string)) : Env :=
  {| basename := fun p => p;
     splitext_root := fun _ => "talk"%string;
     from_file := fun _ => Ok stereo;
     whisper_transcribe := fun _ => Ok {| wr_text := " hello world "; wr_segments := segs |};
     pyannote_pipeline := fun _ => Ok tracks;
     annotation_tracks :=
       map (fun d => (mkseg (di_start d) (di_end d), di_speaker d));
     librosa_features := fun _ segs => Ok (map (fun _ => zero_features) segs);
     sentence_encode := fun texts => Ok (map (fun _ => [0; 1]) texts);
     text_classifier := fun texts => Ok (map (fun _ => "joy"%string) texts);
     get_ser_models := ser;
     torchaudio_load := fun _ => Ok 64000%Z;
     classify_batch := classify;
     yake_keywords := fun t => Ok [t] |}.

Definition env : Env := env_with (Ok tt) (fun _ _ => Ok ["hap"%string]).

(** The speech-emotion model cannot be loaded. *)
Definition env_ser_fails : Env :=
  env_with (Raise "Failed to load Speech Emotion Recognition models")
           (fun _ _ => Ok ["hap"%string]).

(** The classifier raises on every segment. *)
Definition env_classifier_fails : Env :=
  env_with (Ok tt) (fun _ _ => Raise "classify_batch failed").

Definition empty_cache : Cache :=
  {| f_audio_trimmed := Absent; f_whisper_raw := Absent; f_diarization_raw := Absent;
     f_mapped_segments := Absent; f_audio_features := Absent;
     f_text_embeddings := Absent; f_text_emotions := Absent;
     f_speech_emotions := Absent; f_keywords := Absent |}.

(** The stage files a first complete run leaves behind. *)
Definition full_cache : Cache :=
  cache (snd (run_full_pipeline env "talk.mp3" 300 (initial empty_cache ∅))).

(** The files of the first four stages only. *)
Definition four_stages : Cache :=
  {| f_audio_trimmed := f_audio_trimmed full_cache;
     f_whisper_raw := f_whisper_raw full_cache;
     f_diarization_raw := f_diarization_raw full_cache;
     f_mapped_segments := f_mapped_segments full_cache;
     f_audio_features := Absent; f_text_embeddings := Absent; f_text_emotions := Absent;
     f_speech_emotions := Absent; f_keywords := Absent |}.

(** A complete cache whose [keywords] record does not decode. *)
Definition keywords_corrupt : Cache := put keywords Corrupt full_cache.

End Demo.

(** Steps 1 to 8 of a run in which keyword extraction produced three
    results for five segments. *)
Definition short_keywords : Collected :=
  {| c_whisper_result := {| wr_text := " hello world "; wr_segments := Demo.segs |};
     c_diarized_segments :=
       repeat {| start := 0; end_ := 1; text := "hello"; speaker := "A" |} 5;
     c_audio_features := repeat Demo.zero_features 5;
     c_text_embeddings := repeat [0; 1] 5;
     c_text_emotions := repeat "joy"%string 5;
     c_speech_emotions := repeat "hap"%string 5;
     c_keywords := repeat ["hello"%string] 3 |}.

(** Two sets of collaborators that give the same answers in stage [s]. *)
Definition same_compute (s : Stage) (env1 env2 : Env) : Prop :=
  match s with
  | audio_trimmed => forall p, from_file env1 p = from_file env2 p
  | whisper_raw => forall wav, whisper_transcribe env1 wav = whisper_transcribe env2 wav
  | diarization_raw => forall wav, pyannote_pipeline env1 wav = pyannote_pipeline env2 wav
  | mapped_segments => True
  | audio_features =>
      forall wav segs, librosa_features env1 wav segs = librosa_features env2 wav segs
  | text_embeddings => forall texts, sentence_encode env1 texts = sentence_encode env2 texts
  | text_emotions => forall texts, text_classifier env1 texts = text_classifier env2 texts
  | speech_emotions =>
      get_ser_models env1 = get_ser_models env2 /\
      (forall wav, torchaudio_load env1 wav = torchaudio_load env2 wav) /\
      (forall a b, classify_batch env1 a b = classify_batch env2 a b)
  | keywords => forall t, yake_keywords env1 t = yake_keywords env2 t
  end.

(** The helpers that every run uses, whatever the cache holds. *)
Definition same_helpers (env1 env2 : Env) : Prop :=
  (forall p, basename env1 p = basename env2 p) /\
  (forall p, splitext_root env1 p = splitext_root env2 p) /\
  (forall l, annotation_tracks env1 l = annotation_tracks env2 l).

(** The files of the first [k] stages are usable. *)
Definition prefix_usable (k : nat) (w : World) : Prop :=
  forall s, (stage_index s <= k)%nat -> usable s (cache w) = true.

(** Two steps that do the same from every world that satisfies [P]. *)
Definition agree {A : Type} (P : World -> Prop) (m1 m2 : Run A) : Prop :=
  forall w, P w -> m1 w = m2 w.

(** A step that keeps [P], however it ends. *)
Definition keeps {A : Type} (P : World -> Prop) (m : Run A) : Prop :=
  forall w, P w -> P (snd (m w)).

(** ** Vocabulary for the further properties *)

(** The stages a run has entered, by position, in the order of the log:
    a stage is entered when its file is used or its compute function is
    called. *)
Fixpoint entries (events : list Event) : list nat :=
  match events with
  | [] => []
  | Call s :: rest => stage_index s :: entries rest
  | CacheHit s :: rest => stage_index s :: entries rest
  | _ :: rest => entries rest
  end.

(** No stage has failed so far and the files of the first [n] stages are
    usable. *)
Definition prefix_done (n : nat) (w : World) : Prop :=
  prefix_usable n w /\ (forall t e, ~ In (PipelineStopped t e) (log w)).

(** After a stage failed, the files of all the stages before it are
    usable. *)
Definition resumable (w : World) : Prop :=
  forall s e, In (PipelineStopped s e) (log w) ->
    prefix_usable (stage_index s - 1) w.

(** The stage files hold the values a run has collected. *)
Definition holds (c : Collected) (ch : Cache) : Prop :=
  exists_ (get audio_trimmed ch) = true /\
  get whisper_raw ch = Stored (c_whisper_result c) /\
  (exists diarization_list, get diarization_raw ch = Stored diarization_list) /\
  get mapped_segments ch = Stored (c_diarized_segments c) /\
  c_diarized_segments c <> [] /\
  get audio_features ch = Stored (c_audio_features c) /\
  get text_embeddings ch = Stored (c_text_embeddings c) /\
  get text_emotions ch = Stored (c_text_emotions c) /\
  get speech_emotions ch = Stored (c_speech_emotions c) /\
  get keywords ch = Stored (c_keywords c).

(** ** [pipeline2.py]: [extract_audio_features], line by line *)

Module Features.

Section Librosa.

(** [librosa.load(wav_path, sr=sr)]: [len(y)], the number of samples. *)
Variable librosa_load : file AudioSegment -> result Z.

(** The three [librosa.feature] calls on the slice [y[a:b]], averaged:
    the MFCCs, the chroma vector and the RMS energy. *)
Variable librosa_feature : Z -> Z -> result AudioFeatures.

(** The defaults set at the top of the loop body:
    [np.zeros(13).tolist()], [np.zeros(12).tolist()] and [0.0]. *)
Definition zeros : AudioFeatures :=
  {| mfccs := repeat 0 13; chroma := repeat 0 12; rms_energy := 0 |}.

(** The body of the loop, on audio of [n] samples; the [librosa.feature]
    calls are not inside a [try]. *)
Definition segment_features (n : Z) (seg : MappedSegment) : result AudioFeatures :=
  let start_sample := Py.int (Float.mul (start seg) sr) in
  let end_sample := Py.int (Float.mul (end_ seg) sr) in
  if (start_sample >=? n)%Z || (end_sample <=? 0)%Z || (start_sample >=? end_sample)%Z
  then Ok zeros
  else
    let a := slice_start n start_sample in
    let b := Z.min end_sample n in
    if (0 <? b - a)%Z then librosa_feature a b else Ok zeros.

(** The loop over the segments. *)
Fixpoint features_loop (n : Z) (segs : list MappedSegment) : result (list AudioFeatures) :=
  match segs with
  | [] => Ok []
  | seg :: rest =>
      match segment_features n seg with
      | Raise e => Raise e
      | Ok feats =>
          match features_loop n rest with
          | Raise e => Raise e
          | Ok audio_features_list => Ok (feats :: audio_features_list)
          end
      end
  end.

Definition extract_audio_features (wav : file AudioSegment) (segs : list MappedSegment)
    : result (list AudioFeatures) :=
  if negb (exists_ wav)
  then Raise "Audio file not found for feature extraction"
  else
    match librosa_load wav with
    | Raise e => Raise ("Error loading audio for feature extraction: " +:+ e)
    | Ok n => features_loop n segs
    end.

End Librosa.

End Features.

(** A segment that cannot hold audio of [n] samples: it ends where it starts
    or before, it ends at time zero or before, or it starts at the end of
    the audio or after, that is, the product [start * sr] as floats give it
    is [n] or more. *)
Definition degenerate (n : Z) (seg : MappedSegment) : Prop :=
  end_ seg <= start seg \/ end_ seg <= 0 \/ inject_Z n <= Float.mul (start seg) sr.

(** ** [pipeline2.py]: the rows of the CSV summary *)

(** [sep.join(parts)]. *)
Fixpoint join (sep : string) (parts : list string) : string :=
  match parts with
  | [] => ""
  | [part] => part
  | part :: rest => part +:+ sep +:+ join sep rest
  end.

(** A row as [save_final_results] hands it to [csv.DictWriter]: one cell
    per header.  The cells [audio_features_mfccs], [audio_features_chroma]
    and [text_embedding] hold [str] of a list of floats: the list is kept;
    a [text_embedding] the row does not have is written as the empty
    cell, [None]. *)
Record CsvRow := {
  csv_start : Q;
  csv_end : Q;
  csv_speaker : string;
  csv_text : string;
  csv_text_emotion : string;
  csv_speech_emotion : string;
  csv_keywords : string;
  csv_audio_features_mfccs : list Q;
  csv_audio_features_chroma : list Q;
  csv_audio_features_rms_energy : Q;
  csv_text_embedding : option (list Q)
}.

(** The body of the loop [for seg in segmented_data]:
    [csv_row.pop("audio_features", {})] and the three [.get] with their
    defaults, then the keywords joined. *)
Definition csv_row (seg : FinalSegment) : CsvRow :=
  let audio_features := fs_audio_features seg in
  {| csv_start := start (fs_segment seg);
     csv_end := end_ (fs_segment seg);
     csv_speaker := speaker (fs_segment seg);
     csv_text := text (fs_segment seg);
     csv_text_emotion := fs_text_emotion seg;
     csv_speech_emotion := fs_speech_emotion seg;
     csv_keywords := join "; " (fs_keywords seg);
     csv_audio_features_mfccs :=
       match audio_features with Some f => mfccs f | None => [] end;
     csv_audio_features_chroma :=
       match audio_features with Some f => chroma f | None => [] end;
     csv_audio_features_rms_energy :=
       match audio_features with Some f => rms_energy f | None => 0 end;
     csv_text_embedding := fs_text_embedding seg |}.

(** The row of a segment whose feature cells are empty. *)
Definition bare_row (seg : FinalSegment) : CsvRow :=
  {| csv_start := start (fs_segment seg);
     csv_end := end_ (fs_segment seg);
     csv_speaker := speaker (fs_segment seg);
     csv_text := text (fs_segment seg);
     csv_text_emotion := fs_text_emotion seg;
     csv_speech_emotion := fs_speech_emotion seg;
     csv_keywords := join "; " (fs_keywords seg);
     csv_audio_features_mfccs := [];
     csv_audio_features_chroma := [];
     csv_audio_features_rms_energy := 0;
     csv_text_embedding := None |}.

(** ** [pipeline.py]: the steps and [full_pipeline] *)

(** A call that can raise, followed by the rest of the function: the
    exception, if any, is the result. *)
Definition and_then {A B : Type} (r : result A) (k : A -> result B) : result B :=
  match r with
  | Ok a => k a
  | Raise e => Raise e
  end.

Declare Scope result_scope.
Delimit Scope result_scope with result.
Notation "x <- r ;; k" := (and_then r (fun x => k))
  (at level 100, r at next level, right associativity) : result_scope.

(** A loop or comprehension whose body [f] can raise: the list of the
    values, or the first exception. *)
Fixpoint for_each {A B : Type} (f : A -> result B) (xs : list A) : result (list B) :=
  match xs with
  | [] => Ok []
  | x :: rest =>
      match f x with
      | Raise e => Raise e
      | Ok y =>
          match for_each f rest with
          | Raise e => Raise e
          | Ok ys => Ok (y :: ys)
          end
      end
  end.

Module Pipeline1Steps.

Local Open Scope result_scope.

(** The libraries [pipeline.py] calls. *)
Record Tools := {
  (** [AudioSegment.from_file] *)
  from_file : string -> result AudioSegment;
  (** [run_whisper]: [whisper.load_model(...).transcribe(wav_path)] *)
  run_whisper : file AudioSegment -> result WhisperResult;
  (** [run_pyannote_diarization]: [Pipeline.from_pretrained(...)(wav_path)],
      as the list [itertracks] yields *)
  run_pyannote_diarization : file AudioSegment -> result Tracks;
  (** [hf_pipeline("text-classification", ...)] *)
  text_classifier : result unit;
  (** [classifier(text)[0]['label']] *)
  classify : string -> result string;
  (** the two [from_pretrained] of [run_speech_emotion_recognition] *)
  ser_models : result unit;
  (** [librosa.load(wav_path, sr=16000)] *)
  librosa_load : file AudioSegment -> result unit;
  (** the label [id2label[argmax]] computed from
      [speech[start_sample:end_sample]] *)
  predict : Z -> Z -> result string;
  (** [[kw for kw, score in kw_extractor.extract_keywords(text)]] with
      [top=max_keywords] *)
  yake_keywords : Z -> string -> result (list string);
  (** [os.path.basename] *)
  basename : string -> string
}.

(** The two files [full_pipeline] writes in [output_dir]. *)
Record Disk := {
  trimmed_wav : file AudioSegment;
  final_output_json : option Document
}.

Definition run_text_emotion_analysis (tools : Tools) (texts : list string)
    : result (list string) :=
  _ <- text_classifier tools ;;
  for_each (classify tools) texts.

Definition run_speech_emotion_recognition (tools : Tools) (wav : file AudioSegment)
    (segs : list MappedSegment) : result (list string) :=
  _ <- ser_models tools ;;
  _ <- librosa_load tools wav ;;
  for_each (fun seg =>
              let start_sample := Py.int (Float.mul (start seg) 16000) in
              let end_sample := Py.int (Float.mul (end_ seg) 16000) in
              predict tools start_sample end_sample)
           segs.

Definition extract_keywords (tools : Tools) (texts : list string) (max_keywords : Z)
    : result (list (list string)) :=
  for_each (yake_keywords tools max_keywords) texts.

(** The loop [for i, seg in enumerate(diarized_segments)], from index [i]
    on: a list shorter than the segments raises [IndexError]. *)
Fixpoint annotate (i : nat) (diarized_segments : list MappedSegment)
    (text_emotions speech_emotions : list string) (keywords : list (list string))
    : result (list FinalSegment) :=
  match diarized_segments with
  | [] => Ok []
  | seg :: rest =>
      match text_emotions !! i, speech_emotions !! i, keywords !! i with
      | Some temo, Some semo, Some kws =>
          annotated <- annotate (S i) rest text_emotions speech_emotions keywords ;;
          Ok ({| fs_segment := seg;
                 fs_audio_features := None;
                 fs_text_embedding := None;
                 fs_text_emotion := temo;
                 fs_speech_emotion := semo;
                 fs_keywords := kws |} :: annotated)
      | _, _, _ => Raise "IndexError"
      end
  end.

Section SetOrder.

Variable set_iter : list string -> list string.

(** Steps 2 to 7 and the document, on the trimmed WAV. *)
Definition analyse (tools : Tools) (input_audio : string) (wav : file AudioSegment)
    : result Document :=
  whisper_result <- run_whisper tools wav ;;
  let whisper_segments := wr_segments whisper_result in
  diarization <- run_pyannote_diarization tools wav ;;
  let diarized_segments :=
    Pipeline1.map_speakers_to_segments set_iter whisper_segments diarization in
  let texts := map text diarized_segments in
  text_emotions <- run_text_emotion_analysis tools texts ;;
  speech_emotions <- run_speech_emotion_recognition tools wav diarized_segments ;;
  keywords <- extract_keywords tools texts 5 ;;
  annotated <- annotate 0 diarized_segments text_emotions speech_emotions keywords ;;
  Ok {| audio_file := basename tools input_audio;
        full_transcript := wr_text whisper_result;
        segments := annotated |}.

(** [full_pipeline]: no step is inside a [try]. *)
Definition full_pipeline (tools : Tools) (input_audio : string) (max_duration : Z)
    (disk : Disk) : result Document * Disk :=
  match convert_and_trim (from_file tools input_audio) max_duration with
  | Raise e => (Raise e, disk)
  | Ok wav =>
      let disk := {| trimmed_wav := wav; final_output_json := final_output_json disk |} in
      match analyse tools input_audio wav with
      | Raise e => (Raise e, disk)
      | Ok output_json =>
          (Ok output_json,
           {| trimmed_wav := wav; final_output_json := Some output_json |})
      end
  end.

End SetOrder.

(** What one segment of the document of [full_pipeline] holds, for the
    Whisper segment [ws] it was made from. *)
Definition enriched (tools : Tools) (set_iter : list string -> list string)
    (diarization : Tracks) (ws : WhisperSegment) (fs : FinalSegment) : Prop :=
  fs_segment fs = Pipeline1.map_segment set_iter diarization ws /\
  classify tools (ws_text ws) = Ok (fs_text_emotion fs) /\
  predict tools (Py.int (Float.mul (ws_start ws) 16000)) (Py.int (Float.mul (ws_end ws) 16000))
    = Ok (fs_speech_emotion fs) /\
  yake_keywords tools 5 (ws_text ws) = Ok (fs_keywords fs) /\
  fs_audio_features fs = None /\
  fs_text_embedding fs = None.

(** Libraries that answer every call. *)
Definition reliable (tools : Tools) : Prop :=
  (forall p, exists audio, from_file tools p = Ok audio) /\
  (forall wav, exists r, run_whisper tools wav = Ok r) /\
  (forall wav, exists d, run_pyannote_diarization tools wav = Ok d) /\
  text_classifier tools = Ok tt /\
  (forall t, exists label, classify tools t = Ok label) /\
  ser_models tools = Ok tt /\
  (forall wav, librosa_load tools wav = Ok tt) /\
  (forall a b, exists label, predict tools a b = Ok label) /\
  (forall k t, exists kws, yake_keywords tools k t = Ok kws).

(** Libraries for the examples: everything succeeds, on the recording of
    [Demo]. *)
Definition demo_tools : Tools :=
  {| from_file := fun _ => Ok Demo.stereo;
     run_whisper := fun _ => Ok {| wr_text := " hello world "; wr_segments := Demo.segs |};
     run_pyannote_diarization := fun _ => Ok Demo.tracks;
     text_classifier := Ok tt;
     classify := fun _ => Ok "joy"%string;
     ser_models := Ok tt;
     librosa_load := fun _ => Ok tt;
     predict := fun _ _ => Ok "hap"%string;
     yake_keywords := fun _ t => Ok [t];
     basename := fun p => p |}.

Definition empty_disk : Disk := {| trimmed_wav := Absent; final_output_json := None |}.

End Pipeline1Steps.

(** ** [python_diarization.py]: [main] *)

Module DiarizationMain.

Local Open Scope result_scope.

(** The libraries [python_diarization.py] calls. *)
Record Tools := {
  (** [AudioSegment.from_file] *)
  from_file : string -> result AudioSegment;
  (** [transcribe_whisper]: [whisper.load_model(...).transcribe(wav_path)["segments"]] *)
  transcribe_whisper : file AudioSegment -> result (list WhisperSegment);
  (** [Pipeline.from_pretrained(..., use_auth_token=hf_token)] *)
  from_pretrained : string -> result unit;
  (** [pipeline(wav_path)], as the list [itertracks] yields *)
  pipeline : file AudioSegment -> result Tracks
}.

(** A line of [diarized_transcription.txt],
    [f"[{start:.2f}-{end:.2f}] {speaker}: {text}\n"], by its four fields. *)
Record Line := {
  line_start : Q;
  line_end : Q;
  line_speaker : string;
  line_text : string
}.

(** The temporary WAV and the two transcripts in the working directory,
    each by its lines; [None]: the file is not there. *)
Record Disk := {
  wav : file AudioSegment;
  raw_transcription : option (list string);
  diarized_transcription : option (list Line)
}.

(** [diarize_pyannote]; the message of the [RuntimeError] is shortened to
    its first and last line. *)
Definition diarize_pyannote (tools : Tools) (wav_path : file AudioSegment)
    (hf_token : string) : result (list Diarization.DiarTuple) :=
  match from_pretrained tools hf_token with
  | Raise e => Raise ("Could not load pyannote pipeline. Original error: " +:+ e)
  | Ok _ =>
      diarization <- pipeline tools wav_path ;;
      Ok (Diarization.segments_of diarization)
  end.

(** Steps 2 to 4 of [main]. *)
Definition transcribe_and_align (tools : Tools) (wav_path : file AudioSegment)
    (hf_token : string) : result (list WhisperSegment * list MappedSegment) :=
  whisper_segments <- transcribe_whisper tools wav_path ;;
  diarization_segments <- diarize_pyannote tools wav_path hf_token ;;
  let aligned_segments := Diarization.align_segments whisper_segments diarization_segments in
  Ok (whisper_segments, aligned_segments).

Definition line_of (seg : MappedSegment) : Line :=
  {| line_start := start seg;
     line_end := end_ seg;
     line_speaker := speaker seg;
     line_text := text seg |}.

(** [main]; [api_key] is [os.getenv("HF_TOKEN")]: [None] when the variable
    is not set. *)
Definition main (tools : Tools) (api_key : option string) (input_mp3 : string)
    (disk : Disk) : result unit * Disk :=
  match api_key with
  | None | Some "" =>
      (Raise "HUGGINGFACE_TOKEN environment variable not found.", disk)
  | Some hf_token =>
      match trim_to_wav (from_file tools input_mp3) 300 with
      | Raise e => (Raise e, disk)
      | Ok wav_path =>
          let disk := {| wav := wav_path;
                         raw_transcription := raw_transcription disk;
                         diarized_transcription := diarized_transcription disk |} in
          match transcribe_and_align tools wav_path hf_token with
          | Raise e => (Raise e, disk)
          | Ok (whisper_segments, aligned_segments) =>
              (Ok tt,
               {| wav := wav_path;
                  raw_transcription :=
                    Some (map (fun seg => Py.strip (ws_text seg)) whisper_segments);
                  diarized_transcription := Some (map line_of aligned_segments) |})
          end
      end
  end.

(** Libraries for the examples, on the recording of [Demo]. *)
Definition demo_tools (load : result unit) : Tools :=
  {| from_file := fun _ => Ok Demo.stereo;
     transcribe_whisper := fun _ => Ok Demo.segs;
     from_pretrained := fun _ => load;
     pipeline := fun _ => Ok Demo.tracks |}.

Definition empty_disk : Disk :=
  {| wav := Absent; raw_transcription := None; diarized_transcription := None |}.

End DiarizationMain.

(** ** [pipeline2.py]: the models, loaded on first use *)

Module Models.

(** The shape shared by [get_whisper_model], [get_sentence_transformer_model]
    and [get_text_emotion_classifier]: the global is tested, and set by a
    load inside a [try] whose [except] raises a [RuntimeError] that starts
    with [message].  [load] is what the library's loader answers if it is
    called; [cached] is the global, before and after. *)
Definition load_once {M : Type} (message : string) (load : result M) (cached : option M)
    : result M * option M :=
  match cached with
  | Some model => (Ok model, cached)
  | None =>
      match load with
      | Ok model => (Ok model, Some model)
      | Raise e => (Raise (message +:+ e), None)
      end
  end.

Definition get_whisper_model {M : Type} := @load_once M "Failed to load Whisper model: ".

Definition get_sentence_transformer_model {M : Type} :=
  @load_once M "Failed to load SentenceTransformer model: ".

Definition get_text_emotion_classifier {M : Type} :=
  @load_once M "Failed to load text emotion classifier: ".

(** [get_ser_models]: the global is assigned before the classifier is moved
    to the device, inside the same [try]. *)
Definition get_ser_models {M : Type} (foreign_class : result M) (to : M -> result unit)
    (cached : option M) : result M * option M :=
  match cached with
  | Some model => (Ok model, cached)
  | None =>
      match foreign_class with
      | Raise e =>
          (Raise ("Failed to load Speech Emotion Recognition models: " +:+ e), None)
      | Ok model =>
          match to model with
          | Raise e =>
              (Raise ("Failed to load Speech Emotion Recognition models: " +:+ e),
               Some model)
          | Ok _ => (Ok model, Some model)
          end
      end
  end.

(** [get_pyannote_pipeline]; [token] is [os.environ] at
    ["HUGGINGFACE_HUB_TOKEN"], [None] when the variable is not set.
    [Pipeline.from_pretrained] answers a pipeline or, when the hub refuses
    the token, [None]: the global then stays [None], and [None.to(...)]
    raises inside the [try].  The message of the [RuntimeError] is
    shortened. *)
Definition get_pyannote_pipeline {M : Type} (token : option string)
    (from_pretrained : string -> result (option M)) (to : M -> result unit)
    (cached : option M) : result M * option M :=
  match cached with
  | Some model => (Ok model, cached)
  | None =>
      match token with
      | None | Some "" =>
          (Raise ("HUGGINGFACE_HUB_TOKEN environment variable not set or empty. "
                  +:+ "Please set it to use pyannote.audio."), None)
      | Some hf_token =>
          match from_pretrained hf_token with
          | Raise e => (Raise ("Failed to load pyannote.audio pipeline: " +:+ e), None)
          | Ok None =>
              (Raise ("Failed to load pyannote.audio pipeline: "
                      +:+ "'NoneType' object has no attribute 'to'"), None)
          | Ok (Some model) =>
              match to model with
              | Raise e =>
                  (Raise ("Failed to load pyannote.audio pipeline: " +:+ e), Some model)
              | Ok _ => (Ok model, Some model)
              end
          end
      end
  end.

(** A [yake.KeywordExtractor]: of its arguments only [top] varies. *)
Record KeywordExtractor := { top : Z }.

Definition get_yake_extractor (max_keywords : Z) (cached : option KeywordExtractor)
    : KeywordExtractor * option KeywordExtractor :=
  match cached with
  | Some extractor => (extractor, cached)
  | None =>
      let extractor := {| top := max_keywords |} in
      (extractor, Some extractor)
  end.

(** [extract_keywords], with its extractor: [extract kw_extractor text] is
    [[kw for kw, score in kw_extractor.extract_keywords(text)]]. *)
Definition extract_keywords (extract : KeywordExtractor -> string -> result (list string))
    (texts : list string) (max_keywords : Z) (cached : option KeywordExtractor)
    : result (list (list string)) * option KeywordExtractor :=
  let (kw_extractor, cached) := get_yake_extractor max_keywords cached in
  (match for_each (extract kw_extractor) texts with
   | Ok all_keywords => Ok all_keywords
   | Raise e => Raise ("Error during keyword extraction: " +:+ e)
   end,
   cached).

(** Successive calls of a loader [get], each with what the library would
    answer at that call, from the global [cached]: the results, in order. *)
Fixpoint calls {M L : Type} (get : L -> option M -> result M * option M)
    (loads : list L) (cached : option M) : list (result M) :=
  match loads with
  | [] => []
  | load :: rest =>
      let (r, cached) := get load cached in
      r :: calls get rest cached
  end.

End Models.

(** ** Stages that raise *)

(** What a run can ask of stage [s]: the calls of its compute function that
    [run_full_pipeline] can make, each by its result.  Step 1 is not one of
    the cached steps; step 4 calls no collaborator; keyword extraction is
    reached with at least one text. *)
Definition computed (env : Env) (s : Stage) : result (payload s) -> Prop :=
  match s return result (payload s) -> Prop with
  | audio_trimmed => fun _ => False
  | whisper_raw => fun compute => exists wav, compute = transcribe_audio env wav
  | diarization_raw => fun compute =>
      exists wav,
        compute = match perform_speaker_diarization env wav with
                  | Ok diarization_obj => Ok (diarization_list_of diarization_obj)
                  | Raise e => Raise e
                  end
  | mapped_segments => fun compute => exists segs, compute = Ok segs
  | audio_features => fun compute =>
      exists wav segs, compute = extract_audio_features env wav segs
  | text_embeddings => fun compute => exists texts, compute = get_text_embeddings env texts
  | text_emotions => fun compute =>
      exists texts, compute = run_text_emotion_analysis env texts
  | speech_emotions => fun compute =>
      exists wav segs, compute = run_speech_emotion_recognition env wav segs
  | keywords => fun compute =>
      exists texts, texts <> [] /\ compute = extract_keywords env texts
  end.

(** Stage [s] raises [e], whatever the run asks of it. *)
Definition fails (env : Env) (input_audio_path : string) (s : Stage) (e : string) : Prop :=
  match s with
  | audio_trimmed => from_file env input_audio_path = Raise e
  | _ => forall compute, computed env s compute -> compute = Raise e
  end.

(** What holds while a run has not reached the stage [s] that has no usable
    file: after [n] stages nothing has failed, and the file of [s] is as
    unusable as it was. *)
Definition before (o0 : gmap string OutFile) (s : Stage) (n : nat) (w : World) : Prop :=
  unfailed o0 n w /\ (n < stage_index s)%nat /\ usable s (cache w) = false.

(** What holds of a run that was stopped at [s] or before. *)
Definition stopped_by (o0 : gmap string OutFile) (s : Stage) (w : World) : Prop :=
  aborted o0 w /\
  (forall t, In (Call t) (log w) -> (stage_index t <= stage_index s)%nat) /\
  (In (Call s) (log w) -> exists e, In (PipelineStopped s e) (log w)).

(** ** Runs that start from cached stages *)

(** How a run that found usable files for the first [k] stages can stop:
    for want of segments after step 4, having read the files up to there,
    or at a stage after the first [k], having read the [k] files. *)
Definition stopped_after (k : nat) (w : World) : Prop :=
  (In NoValidSegments (log w) /\
   forall s, (stage_index s <= k)%nat -> (stage_index s <= 4)%nat ->
             In (CacheHit s) (log w)) \/
  (exists t e,
     (k < stage_index t)%nat /\ In (PipelineStopped t e) (log w) /\
     forall s, (stage_index s <= k)%nat -> In (CacheHit s) (log w)).

(** The values a run has collected are the payloads of the files of the
    first [k] stages in [c0]. *)
Definition loaded (c0 : Cache) (k : nat) (c : Collected) : Prop :=
  ((2 <= k)%nat -> get whisper_raw c0 = Stored (c_whisper_result c)) /\
  ((4 <= k)%nat -> get mapped_segments c0 = Stored (c_diarized_segments c)) /\
  ((5 <= k)%nat -> get audio_features c0 = Stored (c_audio_features c)) /\
  ((6 <= k)%nat -> get text_embeddings c0 = Stored (c_text_embeddings c)) /\
  ((7 <= k)%nat -> get text_emotions c0 = Stored (c_text_emotions c)) /\
  ((8 <= k)%nat -> get speech_emotions c0 = Stored (c_speech_emotions c)) /\
  ((9 <= k)%nat -> get keywords c0 = Stored (c_keywords c)).

(** The document is the one the aggregation builds from the collected
    values. *)
Definition built (env : Env) (input_audio_path : string) (c : Collected)
    (doc : Document) : Prop :=
  audio_file doc = basename env input_audio_path /\
  full_transcript doc = Py.strip (wr_text (c_whisper_result c)) /\
  aggregate (c_diarized_segments c) (c_audio_features c) (c_text_embeddings c)
    (c_text_emotions c) (c_speech_emotions c) (c_keywords c) = Some (segments doc).

(** ** Files for the examples about damaged records *)

(** The collaborators of [Demo.env], with a Whisper that reads the WAV: it
    raises on a file that does not decode. *)
Definition env_reading_wav : Env :=
  {| basename := basename Demo.env;
     splitext_root := splitext_root Demo.env;
     from_file := from_file Demo.env;
     whisper_transcribe := fun wav =>
       match wav with
       | Stored _ => whisper_transcribe Demo.env wav
       | _ => Raise "Failed to load audio"
       end;
     pyannote_pipeline := pyannote_pipeline Demo.env;
     annotation_tracks := annotation_tracks Demo.env;
     librosa_features := librosa_features Demo.env;
     sentence_encode := sentence_encode Demo.env;
     text_classifier := text_classifier Demo.env;
     get_ser_models := get_ser_models Demo.env;
     torchaudio_load := torchaudio_load Demo.env;
     classify_batch := classify_batch Demo.env;
     yake_keywords := yake_keywords Demo.env |}.

(** An output directory that holds a trimmed WAV that does not decode, and
    one that holds the record of step 4 with no segment in it. *)
Definition damaged_wav : Cache := put audio_trimmed Corrupt Demo.empty_cache.

Definition no_segments : Cache := put mapped_segments (Stored []) Demo.empty_cache.

(** * Properties *)

(** ** Python primitives *)

Lemma gt_true (a b : Q) : Py.gt a b = true <-> b < a.
Proof.
  unfold Py.gt. rewrite negb_true_iff.
  destruct (Qle_bool a b) eqn:E.
  - apply Qle_bool_iff in E. split; [discriminate | intros H; lra].
  - split; [intros _ | reflexivity].
    apply Qnot_le_lt. intros H. apply Qle_bool_iff in H. congruence.
Qed.

Lemma gt_false (a b : Q) : Py.gt a b = false <-> a <= b.
Proof.
  unfold Py.gt. rewrite negb_false_iff. apply Qle_bool_iff.
Qed.

Lemma lt_true (a b : Q) : Py.lt a b = true <-> a < b.
Proof. apply gt_true. Qed.

Lemma lt_false (a b : Q) : Py.lt a b = false <-> b <= a.
Proof. apply gt_false. Qed.

Lemma max2_spec (a b : Q) : Py.max2 a b == Qmax a b.
Proof.
  unfold Py.max2. destruct (Py.gt b a) eqn:E.
  - apply gt_true in E. symmetry. apply Q.max_r. lra.
  - apply gt_false in E. symmetry. apply Q.max_l. lra.
Qed.

Lemma min2_spec (a b : Q) : Py.min2 a b == Qmin a b.
Proof.
  unfold Py.min2. destruct (Py.lt b a) eqn:E.
  - apply lt_true in E. symmetry. apply Q.min_r. lra.
  - apply lt_false in E. symmetry. apply Q.min_l. lra.
Qed.

(** ** Float arithmetic: rounding keeps the order and the sign *)

Lemma nearest_even_bounds (t : Q) :
  (Qfloor t <= Float.nearest_even t <= Qfloor t + 1)%Z.
Proof.
  unfold Float.nearest_even.
  destruct (Qcompare _ _); [destruct (Z.even _) | |]; lia.
Qed.

Ltac qcompare_in H :=
  match type of H with
  | _ = Eq => apply Qeq_alt in H
  | _ = Lt => apply Qlt_alt in H
  | _ = Gt => apply Qgt_alt in H
  end.

Lemma nearest_even_mono (t u : Q) :
  t <= u -> (Float.nearest_even t <= Float.nearest_even u)%Z.
Proof.
  intros Htu.
  pose proof (Qfloor_resp_le t u Htu) as Hf.
  destruct (Z.eq_dec (Qfloor t) (Qfloor u)) as [Heq|Hne].
  - unfold Float.nearest_even. rewrite <- Heq.
    destruct (Qcompare (t - inject_Z (Qfloor t)) (1 # 2)) eqn:Et;
    destruct (Qcompare (u - inject_Z (Qfloor t)) (1 # 2)) eqn:Eu;
      try (destruct (Z.even (Qfloor t))); try lia;
      qcompare_in Et; qcompare_in Eu; exfalso; lra.
  - pose proof (nearest_even_bounds t). pose proof (nearest_even_bounds u). lia.
Qed.

Lemma nearest_even_Z (n : Z) : Float.nearest_even (inject_Z n) = n.
Proof.
  unfold Float.nearest_even. rewrite Qfloor_Z.
  assert (H : Qcompare (inject_Z n - inject_Z n) (1 # 2) = Lt).
  { apply (proj1 (Qlt_alt _ _)). lra. }
  now rewrite H.
Qed.

Lemma pow2_pos (e : Z) : 0 < Float.pow2 e.
Proof. apply Qpower_0_lt. lra. Qed.

Lemma pow2_plus (a b : Z) : Float.pow2 (a + b) == Float.pow2 a * Float.pow2 b.
Proof. apply Qpower_plus. lra. Qed.

Lemma pow2_le (a b : Z) : (a <= b)%Z -> Float.pow2 a <= Float.pow2 b.
Proof. intros H. apply Qpower_le_compat_l; [exact H | lra]. Qed.

Lemma pow2_lt (a b : Z) : (a < b)%Z -> Float.pow2 a < Float.pow2 b.
Proof. intros H. apply Qpower_lt_compat_l; [exact H | lra]. Qed.

Lemma pow2_lt_inv (a b : Z) : Float.pow2 a < Float.pow2 b -> (a < b)%Z.
Proof. intros H. apply (Qpower_lt_compat_l_inv 2); [exact H | lra]. Qed.

Lemma pow2_Z (n : Z) : (0 <= n)%Z -> inject_Z (2 ^ n) == Float.pow2 n.
Proof. intros H. apply (Zpower_Qpower 2 n H). Qed.

Lemma Z_log2_bounds (n : Z) :
  (0 < n)%Z -> Float.pow2 (Z.log2 n) <= inject_Z n < Float.pow2 (Z.log2 n + 1).
Proof.
  intros Hn. destruct (Z.log2_spec n Hn) as [Hlo Hhi].
  pose proof (Z.log2_nonneg n) as H0.
  rewrite <- !pow2_Z by lia. unfold Z.succ in Hhi.
  split; [rewrite <- Zle_Qle | rewrite <- Zlt_Qlt]; assumption.
Qed.

Lemma ilog2_spec (x : Q) :
  0 < x -> Float.pow2 (Float.ilog2 x) <= x < Float.pow2 (Float.ilog2 x + 1).
Proof.
  intros Hx. unfold Float.ilog2.
  destruct x as [n d]. 
  assert (Hn : (0 < n)%Z).
  { unfold Qlt in Hx. simpl in Hx. lia. }
  cbn [Qnum Qden].
  set (ln := Z.log2 n). set (ld := Z.log2 (Z.pos d)).
  destruct (Z_log2_bounds n Hn) as [HA1 HA2]. fold ln in HA1, HA2.
  destruct (Z_log2_bounds (Z.pos d) eq_refl) as [HB1 HB2]. fold ld in HB1, HB2.
  pose proof (Qmake_Qdiv n d) as Hdiv.
  set (x := n # d) in *.
  set (N := inject_Z n) in *. set (D := inject_Z (Z.pos d)) in *.
  assert (HD : 0 < D) by (pose proof (pow2_pos ld); lra).
  assert (HxD : x * D == N).
  { rewrite Hdiv. field. lra. }
  pose proof (pow2_plus (ln - ld) ld) as HK. replace (ln - ld + ld)%Z with ln in HK by lia.
  pose proof (pow2_plus ln 1) as HA. pose proof (pow2_plus ld 1) as HB.
  pose proof (pow2_plus (ln - ld - 1) 1) as HK1.
  replace (ln - ld - 1 + 1)%Z with (ln - ld)%Z in HK1 by lia.
  pose proof (pow2_plus (ln - ld) 1) as HK2.
  change (Float.pow2 1) with 2 in *.
  pose proof (pow2_pos (ln - ld)) as HKp. pose proof (pow2_pos ld) as HBp.
  pose proof (pow2_pos (ln - ld - 1)) as HK1p.
  set (K := Float.pow2 (ln - ld)) in *. set (B := Float.pow2 ld) in *.
  set (A := Float.pow2 ln) in *.
  assert (Hup : x < 2 * K).
  { apply (Qmult_lt_r _ _ D HD). nra. }
  assert (Hlo : K < 2 * x).
  { apply (Qmult_lt_r _ _ D HD). nra. }
  destruct (Qle_bool K x) eqn:E.
  - apply Qle_bool_iff in E. split; [exact E | lra].
  - assert (Hlt : x < K).
    { apply Qnot_le_lt. intros H. apply Qle_bool_iff in H. congruence. }
    replace (ln - ld - 1 + 1)%Z with (ln - ld)%Z by lia. fold K.
    split; [lra | exact Hlt].
Qed.

Lemma round_zero (x : Q) : x == 0 -> Float.round x = 0.
Proof.
  intros H. unfold Float.round.
  now rewrite (proj2 (Qeq_bool_iff x 0) H).
Qed.

Lemma round_nonzero (x : Q) :
  ~ x == 0 ->
  Float.round x == inject_Z (Float.nearest_even (x / Float.pow2 (Float.exponent x)))
                   * Float.pow2 (Float.exponent x).
Proof.
  intros H. unfold Float.round.
  destruct (Qeq_bool x 0) eqn:E; [apply Qeq_bool_iff in E; contradiction |].
  apply Qred_correct.
Qed.

Lemma exponent_spec (x : Q) :
  ~ x == 0 ->
  Float.pow2 52 * Float.pow2 (Float.exponent x) <= Qabs x
  /\ Qabs x < Float.pow2 53 * Float.pow2 (Float.exponent x).
Proof.
  intros H.
  assert (Hpos : 0 < Qabs x).
  { pose proof (Qabs_nonneg x). destruct (Qeq_dec (Qabs x) 0) as [Hz|Hz]; [| lra].
    apply Qabs_case; intros; lra. }
  destruct (ilog2_spec (Qabs x) Hpos) as [Hlo Hhi].
  unfold Float.exponent. rewrite <- !pow2_plus.
  replace (52 + (Float.ilog2 (Qabs x) - 52))%Z with (Float.ilog2 (Qabs x)) by lia.
  replace (53 + (Float.ilog2 (Qabs x) - 52))%Z with (Float.ilog2 (Qabs x) + 1)%Z by lia.
  split; assumption.
Qed.

Lemma mantissa_pos (x : Q) :
  0 < x ->
  (2 ^ 52 <= Float.nearest_even (x / Float.pow2 (Float.exponent x)) <= 2 ^ 53)%Z.
Proof.
  intros Hx.
  destruct (exponent_spec x) as [Hlo Hhi]; [lra |].
  rewrite (Qabs_pos x) in Hlo, Hhi by lra.
  pose proof (pow2_pos (Float.exponent x)) as HP.
  rewrite <- (nearest_even_Z (2 ^ 52)), <- (nearest_even_Z (2 ^ 53)).
  split; apply nearest_even_mono.
  - rewrite pow2_Z by lia. apply Qle_shift_div_l; assumption.
  - rewrite pow2_Z by lia. apply Qle_shift_div_r; [assumption | lra].
Qed.

Lemma mantissa_neg (x : Q) :
  x < 0 ->
  (- 2 ^ 53 <= Float.nearest_even (x / Float.pow2 (Float.exponent x)) <= - 2 ^ 52)%Z.
Proof.
  intros Hx.
  destruct (exponent_spec x) as [Hlo Hhi]; [lra |].
  rewrite (Qabs_neg x) in Hlo, Hhi by lra.
  pose proof (pow2_pos (Float.exponent x)) as HP.
  rewrite <- (nearest_even_Z (- 2 ^ 52)), <- (nearest_even_Z (- 2 ^ 53)).
  assert (H52 : inject_Z (- 2 ^ 52) == - Float.pow2 52).
  { rewrite inject_Z_opp, pow2_Z by lia. reflexivity. }
  assert (H53 : inject_Z (- 2 ^ 53) == - Float.pow2 53).
  { rewrite inject_Z_opp, pow2_Z by lia. reflexivity. }
  split; apply nearest_even_mono.
  - rewrite H53. apply Qle_shift_div_l; [assumption | lra].
  - rewrite H52. apply Qle_shift_div_r; [assumption | lra].
Qed.

Lemma round_pos (x : Q) : 0 < x -> 0 < Float.round x.
Proof.
  intros Hx. rewrite round_nonzero by lra.
  pose proof (mantissa_pos x Hx) as [Hm _].
  pose proof (pow2_pos (Float.exponent x)).
  apply Qmult_lt_0_compat; [| assumption].
  change 0 with (inject_Z 0). rewrite <- Zlt_Qlt. lia.
Qed.

Lemma round_neg (x : Q) : x < 0 -> Float.round x < 0.
Proof.
  intros Hx. rewrite round_nonzero by lra.
  pose proof (mantissa_neg x Hx) as [_ Hm].
  pose proof (pow2_pos (Float.exponent x)) as HP.
  assert (Hneg : inject_Z (Float.nearest_even (x / Float.pow2 (Float.exponent x))) < 0).
  { change 0 with (inject_Z 0). rewrite <- Zlt_Qlt. lia. }
  nra.
Qed.

Lemma round_same_exponent (x y : Q) :
  ~ x == 0 -> ~ y == 0 -> x <= y -> Float.exponent x = Float.exponent y ->
  Float.round x <= Float.round y.
Proof.
  intros Hx Hy Hxy He. rewrite !round_nonzero by assumption. rewrite He.
  pose proof (pow2_pos (Float.exponent y)) as HP.
  apply Qmult_le_compat_r; [| lra].
  rewrite <- Zle_Qle. apply nearest_even_mono.
  apply Qmult_le_compat_r; [exact Hxy |].
  apply Qlt_le_weak, Qinv_lt_0_compat, HP.
Qed.

Lemma round_mono_pos (x y : Q) : 0 < x -> x <= y -> Float.round x <= Float.round y.
Proof.
  intros Hx Hxy.
  destruct (exponent_spec x) as [Hxl Hxh]; [lra |].
  destruct (exponent_spec y) as [Hyl Hyh]; [lra |].
  rewrite (Qabs_pos x) in Hxl, Hxh by lra. rewrite (Qabs_pos y) in Hyl, Hyh by lra.
  rewrite <- pow2_plus in Hxl, Hxh, Hyl, Hyh.
  assert (Hlt : (52 + Float.exponent x < 53 + Float.exponent y)%Z) by (apply pow2_lt_inv; lra).
  destruct (Z.eq_dec (Float.exponent x) (Float.exponent y)) as [He|Hne].
  - apply round_same_exponent; [lra | lra | exact Hxy | exact He].
  - pose proof (mantissa_pos x Hx) as [_ Hmx].
    pose proof (mantissa_pos y ltac:(lra)) as [Hmy _].
    rewrite !round_nonzero by lra.
    rewrite Zle_Qle in Hmx, Hmy. rewrite pow2_Z in Hmx, Hmy by lia.
    pose proof (pow2_pos (Float.exponent x)). pose proof (pow2_pos (Float.exponent y)).
    pose proof (pow2_le (53 + Float.exponent x) (52 + Float.exponent y) ltac:(lia)) as Hp.
    rewrite !pow2_plus in Hp.
    nra.
Qed.

Lemma round_mono_neg (x y : Q) : y < 0 -> x <= y -> Float.round x <= Float.round y.
Proof.
  intros Hy Hxy.
  destruct (exponent_spec x) as [Hxl Hxh]; [lra |].
  destruct (exponent_spec y) as [Hyl Hyh]; [lra |].
  rewrite (Qabs_neg x) in Hxl, Hxh by lra. rewrite (Qabs_neg y) in Hyl, Hyh by lra.
  rewrite <- pow2_plus in Hxl, Hxh, Hyl, Hyh.
  assert (Hlt : (52 + Float.exponent y < 53 + Float.exponent x)%Z) by (apply pow2_lt_inv; lra).
  destruct (Z.eq_dec (Float.exponent x) (Float.exponent y)) as [He|Hne].
  - apply round_same_exponent; [lra | lra | exact Hxy | exact He].
  - pose proof (mantissa_neg x ltac:(lra)) as [_ Hmx].
    pose proof (mantissa_neg y Hy) as [Hmy _].
    rewrite !round_nonzero by lra.
    rewrite Zle_Qle in Hmx, Hmy. rewrite inject_Z_opp, pow2_Z in Hmx, Hmy by lia.
    pose proof (pow2_pos (Float.exponent x)). pose proof (pow2_pos (Float.exponent y)).
    pose proof (pow2_le (53 + Float.exponent y) (52 + Float.exponent x) ltac:(lia)) as Hp.
    rewrite !pow2_plus in Hp.
    nra.
Qed.

Lemma round_mono (x y : Q) : x <= y -> Float.round x <= Float.round y.
Proof.
  intros Hxy.
  destruct (Q_dec x 0) as [[Hx|Hx]|Hx].
  - destruct (Q_dec y 0) as [[Hy|Hy]|Hy].
    + now apply round_mono_neg.
    + pose proof (round_neg x Hx). pose proof (round_pos y Hy). lra.
    + pose proof (round_neg x Hx). rewrite (round_zero y Hy). lra.
  - now apply round_mono_pos.
  - rewrite (round_zero x Hx).
    destruct (Q_dec y 0) as [[Hy|Hy]|Hy]; [lra | |].
    + pose proof (round_pos y Hy). lra.
    + rewrite (round_zero y Hy). lra.
Qed.

Lemma round_proper (x y : Q) : x == y -> Float.round x == Float.round y.
Proof.
  intros H. apply Qle_antisym; apply round_mono; lra.
Qed.

(** ** The aligner of [pipeline2.py] *)

Lemma pow2_opp (e : Z) : Float.pow2 (- e) == / Float.pow2 e.
Proof. apply Qpower_opp. Qed.

Lemma round_Z (n : Z) :
  (0 < n <= 2 ^ 53)%Z -> Float.round (inject_Z n) == inject_Z n.
Proof.
  intros [Hpos Hmax].
  assert (Hq : 0 < inject_Z n) by (change 0 with (inject_Z 0); now rewrite <- Zlt_Qlt).
  rewrite round_nonzero by lra.
  set (e := Float.exponent (inject_Z n)).
  destruct (exponent_spec (inject_Z n)) as [Hlo _]; [lra |]. fold e in Hlo.
  rewrite (Qabs_pos (inject_Z n)) in Hlo by lra.
  pose proof (pow2_pos e) as HP.
  assert (Hint : exists k : Z, inject_Z n / Float.pow2 e == inject_Z k).
  { destruct (Z.le_gt_cases e 0) as [He|He].
    - exists (n * 2 ^ (- e))%Z. rewrite inject_Z_mult, pow2_Z by lia.
      rewrite pow2_opp. reflexivity.
    - assert (Hn : inject_Z n <= Float.pow2 53).
      { rewrite <- pow2_Z by lia. now rewrite <- Zle_Qle. }
      rewrite <- pow2_plus in Hlo.
      assert (He1 : (52 + e <= 53)%Z).
      { destruct (Z.le_gt_cases (52 + e) 53) as [|Hgt]; [assumption |].
        pose proof (pow2_lt 53 (52 + e) ltac:(lia)). lra. }
      assert (e = 1%Z) by lia. subst e. rewrite H in *.
      exists (2 ^ 52)%Z.
      assert (inject_Z n == Float.pow2 53) by (change (52 + 1)%Z with 53%Z in Hlo; lra).
      rewrite H0. rewrite pow2_Z by lia.
      change 53%Z with (52 + 1)%Z. rewrite pow2_plus. field.
      pose proof (pow2_pos 1). lra. }
  destruct Hint as [k Hk].
  assert (Hne : Float.nearest_even (inject_Z n / Float.pow2 e) = k).
  { rewrite <- (nearest_even_Z k). apply Z.le_antisymm; apply nearest_even_mono; lra. }
  rewrite Hne, <- Hk. field. lra.
Qed.

Lemma round_Z0 (n : Z) :
  (0 <= n <= 2 ^ 53)%Z -> Float.round (inject_Z n) == inject_Z n.
Proof.
  intros [Hpos Hmax]. destruct (Z.eq_dec n 0%Z) as [->|Hne]; [reflexivity |].
  apply round_Z. lia.
Qed.

Lemma round_pos_iff (x : Q) : 0 < Float.round x <-> 0 < x.
Proof.
  split; [| apply round_pos].
  intros H. apply Qnot_le_lt. intros Hx.
  pose proof (round_mono x 0 Hx) as Hm. rewrite (round_zero 0) in Hm by reflexivity. lra.
Qed.

Lemma round_nonneg (x : Q) : 0 <= x -> 0 <= Float.round x.
Proof.
  intros H. pose proof (round_mono 0 x H) as Hm.
  now rewrite (round_zero 0) in Hm by reflexivity.
Qed.

(** The overlap [pipeline2.py] computes is a rounded difference: it is not
    negative, and it is positive exactly when the spans overlap. *)
Lemma overlap_duration_sign (s e : Q) (turn : Segment) :
  0 <= Pipeline2.overlap_duration s e turn /\
  (0 < Pipeline2.overlap_duration s e turn <-> 0 < Spec.turn_overlap s e turn).
Proof.
  unfold Pipeline2.overlap_duration, Spec.turn_overlap, Spec.overlap. cbv zeta.
  set (mn := Py.min2 e (seg_end turn)). set (mx := Py.max2 s (seg_start turn)).
  pose proof (min2_spec e (seg_end turn)) as Hmn. fold mn in Hmn.
  pose proof (max2_spec s (seg_start turn)) as Hmx. fold mx in Hmx.
  pose proof (max2_spec 0 (Float.sub mn mx)) as H0.
  pose proof (round_pos_iff (mn - mx)) as Hr. unfold Float.sub in *.
  destruct (Q.max_spec 0 (Float.round (mn - mx))) as [[? ?]|[? ?]];
  destruct (Q.max_spec 0 (Qmin e (seg_end turn) - Qmax s (seg_start turn))) as [[? ?]|[? ?]];
    split; try lra; split; intros; try lra;
    solve [apply Hr; lra | assert (0 < mn - mx) by (apply Hr; lra); lra].
Qed.

Lemma turn_overlap_nonneg (s e : Q) (turn : Segment) : 0 <= Spec.turn_overlap s e turn.
Proof. unfold Spec.turn_overlap, Spec.overlap. apply Q.le_max_l. Qed.

Lemma total_from_nonneg (s e acc : Q) (turns : Tracks) (spk : string) :
  0 <= acc -> 0 <= Spec.total_from s e acc turns spk.
Proof.
  revert acc. induction turns as [|[turn spk'] rest IH]; intros acc Hacc; simpl;
    [exact Hacc |].
  apply IH. destruct (String.eqb spk' spk && _); [| exact Hacc].
  apply round_nonneg. pose proof (overlap_duration_sign s e turn) as [Hn _]. lra.
Qed.

Lemma total_overlap_nonneg (s e : Q) (turns : Tracks) (spk : string) :
  0 <= Spec.total_overlap s e turns spk.
Proof. apply total_from_nonneg. lra. Qed.

(** Dict lemmas. *)

Lemma get_set_same (d : Py.dict) (k : string) (v dflt : Q) :
  Py.get (Py.set d k v) k dflt = v.
Proof.
  induction d as [|[k' v'] d IH]; simpl.
  - now rewrite String.eqb_refl.
  - destruct (String.eqb k' k) eqn:E; simpl; rewrite E; auto.
Qed.

Lemma get_set_other (d : Py.dict) (k k' : string) (v dflt : Q) :
  k <> k' -> Py.get (Py.set d k v) k' dflt = Py.get d k' dflt.
Proof.
  intros Hne. induction d as [|[k0 v0] d IH]; simpl.
  - destruct (String.eqb_spec k k'); congruence.
  - destruct (String.eqb_spec k0 k) as [->|Hk]; simpl.
    + destruct (String.eqb_spec k k'); congruence.
    + destruct (String.eqb k0 k'); auto.
Qed.

Lemma keys_set_in (d : Py.dict) (k k' : string) (v : Q) :
  In k' (Py.keys (Py.set d k v)) <-> In k' (Py.keys d) \/ k' = k.
Proof.
  unfold Py.keys. induction d as [|[k0 v0] d IH]; simpl.
  - intuition.
  - destruct (String.eqb_spec k0 k) as [->|Hk]; simpl.
    + intuition.
    + rewrite IH. intuition.
Qed.

Lemma count_from_get (d : Py.dict) (ov : list (string * Q)) (k : string) :
  Py.get (Pipeline2.count_from d ov) k 0 = sum_from (Py.get d k 0) ov k.
Proof.
  revert d. induction ov as [|[spk dur] rest IH]; intros d; simpl; [reflexivity |].
  rewrite IH. destruct (String.eqb_spec spk k) as [->|Hne].
  - now rewrite get_set_same.
  - now rewrite get_set_other by assumption.
Qed.

Lemma count_from_keys (d : Py.dict) (ov : list (string * Q)) (k : string) :
  In k (Py.keys (Pipeline2.count_from d ov)) <-> In k (Py.keys d) \/ In k (map fst ov).
Proof.
  revert d. induction ov as [|[spk dur] rest IH]; intros d; simpl.
  - intuition.
  - rewrite IH, keys_set_in. intuition.
Qed.

Lemma overlapping_speakers_sum (s e acc : Q) (turns : Tracks) (k : string) :
  sum_from acc (Pipeline2.overlapping_speakers s e turns) k = Spec.total_from s e acc turns k.
Proof.
  revert acc. induction turns as [|[turn spk] rest IH]; intros acc; simpl; [reflexivity |].
  destruct (Py.gt (Pipeline2.overlap_duration s e turn) 0) eqn:E; simpl.
  - rewrite IH. now rewrite andb_true_r.
  - rewrite IH. now rewrite andb_false_r.
Qed.

Lemma overlapping_speakers_in (s e : Q) (turns : Tracks) (k : string) :
  In k (map fst (Pipeline2.overlapping_speakers s e turns)) <->
  exists turn, In (turn, k) turns /\ 0 < Spec.turn_overlap s e turn.
Proof.
  induction turns as [|[turn spk] rest IH]; simpl.
  - split; [tauto | intros (t & [] & _)].
  - pose proof (overlap_duration_sign s e turn) as [_ Hs].
    destruct (Py.gt (Pipeline2.overlap_duration s e turn) 0) eqn:E; simpl.
    + apply gt_true in E. apply Hs in E. rewrite IH. split.
      * intros [<-|(t & Hin & Hpos)]; [exists turn; split; [auto | exact E] | exists t; auto].
      * intros (t & [Heq|Hin] & Hpos); [inversion Heq; auto | right; exists t; auto].
    + apply gt_false in E. rewrite IH. split.
      * intros (t & Hin & Hpos). exists t; auto.
      * intros (t & [Heq|Hin] & Hpos); [inversion Heq; subst | exists t; auto].
        apply Hs in Hpos. lra.
Qed.

(** A speaker none of whose turns overlaps has total overlap zero. *)
Lemma sum_from_notin (acc : Q) (ov : list (string * Q)) (spk : string) :
  ~ In spk (map fst ov) -> sum_from acc ov spk = acc.
Proof.
  revert acc. induction ov as [|[k d] l IH]; intros acc Hn; simpl; [reflexivity |].
  simpl in Hn. destruct (String.eqb_spec k spk) as [->|Hd]; [tauto |].
  apply IH. tauto.
Qed.

(** [max] returns an item of the iterable whose key no other key exceeds. *)

Lemma max_from_in {A K : Type} (gtb : K -> K -> bool) (key : A -> K)
    (best : A) (rest : list A) :
  In (Py.max_from gtb key best rest) (best :: rest).
Proof.
  revert best. induction rest as [|x rest IH]; intros best; simpl; [auto |].
  destruct (IH (if gtb (key x) (key best) then x else best)) as [H|H].
  - destruct (gtb (key x) (key best)); subst; auto.
  - auto.
Qed.

Lemma max_from_ge {A : Type} (key : A -> Q) (best : A) (rest : list A) (x : A) :
  In x (best :: rest) -> key x <= key (Py.max_from Py.gt key best rest).
Proof.
  revert best x. induction rest as [|y rest IH]; intros best x Hin; simpl.
  - destruct Hin as [->|[]]. lra.
  - set (best' := if Py.gt (key y) (key best) then y else best).
    assert (Hbest : key best <= key best' /\ key y <= key best').
    { subst best'. destruct (Py.gt (key y) (key best)) eqn:E.
      - apply gt_true in E. lra.
      - apply gt_false in E. lra. }
    pose proof (IH best' best' (or_introl eq_refl)) as Htop.
    destruct Hin as [Hx|[Hx|Hin]]; subst; try lra.
    apply IH. now right.
Qed.

Lemma max_from_ge_nat {A : Type} (key : A -> nat) (best : A) (rest : list A) (x : A) :
  In x (best :: rest) -> (key x <= key (Py.max_from Py.gt_nat key best rest))%nat.
Proof.
  revert best x. induction rest as [|y rest IH]; intros best x Hin; simpl.
  - destruct Hin as [->|[]]. lia.
  - set (best' := if Py.gt_nat (key y) (key best) then y else best).
    assert (Hbest : (key best <= key best' /\ key y <= key best')%nat).
    { subst best'. unfold Py.gt_nat.
      destruct (Nat.ltb_spec (key best) (key y)); lia. }
    pose proof (IH best' best' (or_introl eq_refl)) as Htop.
    destruct Hin as [Hx|[Hx|Hin]]; subst; try lia.
    apply IH. now right.
Qed.

Lemma speaker_counts_nonempty (p : string * Q) (rest : list (string * Q)) :
  Py.keys (Pipeline2.speaker_counts (p :: rest)) <> [].
Proof.
  intros Hnil.
  assert (Hin : In (fst p) (Py.keys (Pipeline2.speaker_counts (p :: rest)))).
  { unfold Pipeline2.speaker_counts. apply count_from_keys. right.
    destruct p; simpl; auto. }
  rewrite Hnil in Hin. destruct Hin.
Qed.

(** The speaker [pipeline2.py] chooses for a segment that overlaps some turn:
    a speaker of an overlapping turn, of maximal total overlap. *)
Lemma choose_speaker_max (s e : Q) (turns : Tracks) :
  Spec.overlaps_some s e turns ->
  let chosen := Pipeline2.choose_speaker s e turns in
  (exists turn, In (turn, chosen) turns /\ 0 < Spec.turn_overlap s e turn) /\
  (forall spk, Spec.total_overlap s e turns spk <= Spec.total_overlap s e turns chosen).
Proof.
  intros (turn0 & spk0 & Hin0 & Hpos0). simpl.
  unfold Pipeline2.choose_speaker.
  assert (Hov : In spk0 (map fst (Pipeline2.overlapping_speakers s e turns))).
  { apply overlapping_speakers_in. eauto. }
  destruct (Pipeline2.overlapping_speakers s e turns) as [|p rest] eqn:Eov;
    [destruct Hov |].
  set (counts := Pipeline2.speaker_counts (p :: rest)).
  pose proof (speaker_counts_nonempty p rest) as Hne. fold counts in Hne.
  assert (Htot : forall k, Py.get counts k 0 = Spec.total_overlap s e turns k).
  { intros k. subst counts. unfold Pipeline2.speaker_counts.
    rewrite count_from_get. simpl Py.get.
    now rewrite <- Eov, overlapping_speakers_sum. }
  destruct (Py.keys counts) as [|k0 ks] eqn:Ek; [congruence |]. simpl.
  set (chosen := Py.max_from Py.gt (fun k => Py.get counts k 0) k0 ks).
  assert (Hmem : In chosen (Py.keys counts)).
  { rewrite Ek. apply max_from_in. }
  split.
  - apply overlapping_speakers_in. rewrite Eov.
    subst counts. unfold Pipeline2.speaker_counts in Hmem.
    apply count_from_keys in Hmem. destruct Hmem as [[]|Hm]. exact Hm.
  - intros spk. destruct (in_dec string_dec spk (k0 :: ks)) as [Hin|Hout].
    + pose proof (max_from_ge (fun k => Py.get counts k 0) k0 ks spk Hin) as Hge.
      fold chosen in Hge. simpl in Hge. rewrite <- !Htot. exact Hge.
    + assert (Hz : sum_from 0 (p :: rest) spk = 0).
      { apply sum_from_notin. intros Hk. apply Hout. rewrite <- Ek. subst counts.
        apply count_from_keys. now right. }
      rewrite <- Eov, overlapping_speakers_sum in Hz.
      unfold Spec.total_overlap at 1. rewrite Hz.
      apply total_overlap_nonneg.
Qed.

(** ** [str.strip] *)

Lemma append_cons (c : ascii) (a b : string) :
  (String c a +:+ b)%string = String c (a +:+ b).
Proof. reflexivity. Qed.

Lemma append_nil_l (a : string) : ("" +:+ a)%string = a.
Proof. reflexivity. Qed.

Lemma append_assoc (a b c : string) : ((a +:+ b) +:+ c = a +:+ (b +:+ c))%string.
Proof.
  induction a as [|x a IH]; [reflexivity |].
  rewrite !append_cons. now rewrite IH.
Qed.

(** [strip] removes the surrounding whitespace and nothing else. *)
Section Tokens.
Variable t1 : ascii -> bool.
Variable t2 : ascii -> ascii -> bool.
Variable t3 : ascii -> ascii -> ascii -> bool.

Lemma drop_tokens_step (l : list ascii) :
  (exists w rest, Py.token t1 t2 t3 w = true /\ l = w ++ rest /\ Py.drop_tokens t1 t2 t3 l = Py.drop_tokens t1 t2 t3 rest) \/
  (Py.drop_tokens t1 t2 t3 l = l /\ forall w u, l = w ++ u -> Py.token t1 t2 t3 w = false).
Proof.
  destruct l as [|a l1]; [right; split; [reflexivity |] |].
  { intros w u H. symmetry in H. apply app_eq_nil in H. destruct H as [-> _]. reflexivity. }
  simpl. destruct (t1 a) eqn:E1.
  { left. exists [a], l1. auto. }
  destruct l1 as [|b l2].
  { right. split; [reflexivity |]. intros w u H.
    destruct w as [|x [|y [|z [|? ?]]]]; simpl in *; try reflexivity; try discriminate.
    inversion H; subst. exact E1. }
  destruct (t2 a b) eqn:E2.
  { left. exists [a; b], l2. auto. }
  destruct l2 as [|c l3].
  { right. split; [reflexivity |]. intros w u H.
    destruct w as [|x [|y [|z [|? ?]]]]; simpl in *; try reflexivity; try discriminate;
      inversion H; subst; assumption. }
  destruct (t3 a b c) eqn:E3.
  { left. exists [a; b; c], l3. auto. }
  right. split; [reflexivity |]. intros w u H.
  destruct w as [|x [|y [|z [|? ?]]]]; simpl in *; try reflexivity;
    inversion H; subst; assumption.
Qed.

Lemma token_nonempty (w : list ascii) : Py.token t1 t2 t3 w = true -> (0 < length w)%nat.
Proof. destruct w; simpl; [discriminate | lia]. Qed.

Lemma drop_tokens_split (l : list ascii) :
  exists sp, l = sp ++ Py.drop_tokens t1 t2 t3 l /\ Spec.runs (Py.token t1 t2 t3) sp.
Proof.
  remember (length l) as n eqn:Hn. revert l Hn.
  induction n as [n IH] using (well_founded_induction Nat.lt_wf_0). intros l Hn.
  destruct (drop_tokens_step l) as [(w & rest & Hw & Hl & Hd)|[Hd _]].
  - destruct (IH (length rest)) with (l := rest) as (sp & Hsp & Hr); [| reflexivity |].
    { subst. rewrite length_app. pose proof (token_nonempty w Hw). lia. }
    exists (w ++ sp). split; [| now apply Spec.runs_cons].
    rewrite Hd, <- app_assoc, <- Hsp. exact Hl.
  - exists []. split; [now rewrite Hd | constructor].
Qed.

Lemma drop_tokens_head (l w u : list ascii) : Py.drop_tokens t1 t2 t3 l = w ++ u -> Py.token t1 t2 t3 w = false.
Proof.
  remember (length l) as n eqn:Hn. revert l Hn.
  induction n as [n IH] using (well_founded_induction Nat.lt_wf_0). intros l Hn H.
  destruct (drop_tokens_step l) as [(w' & rest & Hw & Hl & Hd)|[Hd Hno]].
  - apply (IH (length rest)) with (l := rest); [| reflexivity | congruence].
    subst. rewrite length_app. pose proof (token_nonempty w' Hw). lia.
  - apply (Hno w u). congruence.
Qed.

Lemma runs_app (l1 l2 : list ascii) : Spec.runs (Py.token t1 t2 t3) l1 -> Spec.runs (Py.token t1 t2 t3) l2 -> Spec.runs (Py.token t1 t2 t3) (l1 ++ l2).
Proof.
  induction 1 as [|w l Hw Hl IH]; intros H2; [exact H2 |].
  rewrite <- app_assoc. constructor; auto.
Qed.

Lemma token_rev (w : list ascii) :
  Py.token t1 (fun a b => t2 b a) (fun a b c => t3 c b a) (rev w) = Py.token t1 t2 t3 w.
Proof.
  destruct w as [|a [|b [|c [|d w']]]]; try reflexivity.
  destruct (rev (a :: b :: c :: d :: w')) as [|x [|y [|z [|? ?]]]] eqn:E; try reflexivity;
    apply (f_equal (@length ascii)) in E; rewrite length_rev in E; simpl in E; lia.
Qed.

Lemma runs_rev (l : list ascii) :
  Spec.runs (Py.token t1 (fun a b => t2 b a) (fun a b c => t3 c b a)) l ->
  Spec.runs (Py.token t1 t2 t3) (rev l).
Proof.
  induction 1 as [|w l Hw Hl IH]; [apply Spec.runs_nil |].
  rewrite rev_app_distr. apply runs_app; [exact IH |].
  rewrite <- (app_nil_r (rev w)). constructor; [| constructor].
  rewrite <- token_rev, rev_involutive. exact Hw.
Qed.

End Tokens.

Lemma lstrip_bytes_split (l : list ascii) :
  exists sp, l = sp ++ Py.lstrip_bytes l /\ Spec.spaces sp.
Proof. apply drop_tokens_split. Qed.

Lemma lstrip_bytes_head (l w u : list ascii) :
  Py.lstrip_bytes l = w ++ u -> Py.isspace w = false.
Proof. apply drop_tokens_head. Qed.

Lemma rstrip_bytes_split (l : list ascii) :
  exists sp, l = Py.rstrip_bytes l ++ sp /\ Spec.spaces sp.
Proof.
  destruct (drop_tokens_split Py.space1 (fun a b => Py.space2 b a)
              (fun a b c => Py.space3 c b a) (rev l)) as (sp & Hsp & Hr).
  exists (rev sp). split; [| apply runs_rev; exact Hr].
  unfold Py.rstrip_bytes. rewrite <- rev_app_distr, <- Hsp. now rewrite rev_involutive.
Qed.

Lemma rstrip_bytes_last (l u w : list ascii) :
  Py.rstrip_bytes l = u ++ w -> Py.isspace w = false.
Proof.
  unfold Py.rstrip_bytes. intros H.
  apply (f_equal (@rev ascii)) in H. rewrite rev_involutive, rev_app_distr in H.
  apply drop_tokens_head in H. unfold Py.isspace. now rewrite <- token_rev.
Qed.

Lemma strip_trimmed (s : string) : Spec.trimmed_of s (Py.strip s).
Proof.
  unfold Spec.trimmed_of, Py.strip. rewrite list_ascii_of_string_of_list_ascii.
  set (l := list_ascii_of_string s).
  destruct (lstrip_bytes_split l) as (sp & Hsp & Hl).
  destruct (rstrip_bytes_split (Py.lstrip_bytes l)) as (sr & Hsr & Hr).
  split; [| split].
  - exists sp, sr. split; [| split; assumption]. now rewrite <- Hsr.
  - intros w u H. apply (lstrip_bytes_head l w (u ++ sr)).
    rewrite Hsr at 1. rewrite H. now rewrite app_assoc.
  - intros u w H. exact (rstrip_bytes_last _ _ _ H).
Qed.

(** ** The aligner of [pipeline.py] *)

Lemma overlapping1_in (s e : Q) (turns : Tracks) (k : string) :
  In k (Pipeline1.overlapping s e turns) <->
  exists turn, In (turn, k) turns /\ s < seg_end turn /\ seg_start turn < e.
Proof.
  induction turns as [|[turn spk] rest IH]; simpl.
  - split; [tauto | intros (t & [] & _)].
  - destruct (Py.lt s (seg_end turn)) eqn:E1; simpl;
      [destruct (Py.gt e (seg_start turn)) eqn:E2; simpl |].
    + apply lt_true in E1. apply gt_true in E2. rewrite IH. split.
      * intros [<-|(t & Hin & H)]; [exists turn; auto | exists t; tauto].
      * intros (t & [Heq|Hin] & H); [inversion Heq; auto | right; exists t; auto].
    + apply gt_false in E2. rewrite IH. split.
      * intros (t & Hin & H). exists t; tauto.
      * intros (t & [Heq|Hin] & H1 & H2); [inversion Heq; subst; lra | exists t; auto].
    + apply lt_false in E1. rewrite IH. split.
      * intros (t & Hin & H). exists t; tauto.
      * intros (t & [Heq|Hin] & H1 & H2); [inversion Heq; subst; lra | exists t; auto].
Qed.

Lemma positive_overlap_meets (s e : Q) (turn : Segment) :
  0 < Spec.turn_overlap s e turn -> s < seg_end turn /\ seg_start turn < e.
Proof.
  unfold Spec.turn_overlap, Spec.overlap. intros H.
  destruct (Q.max_spec 0 (Qmin e (seg_end turn) - Qmax s (seg_start turn))) as [[? Hm]|[? Hm]];
    rewrite Hm in H; [| lra].
  pose proof (Q.le_min_l e (seg_end turn)). pose proof (Q.le_min_r e (seg_end turn)).
  pose proof (Q.le_max_l s (seg_start turn)). pose proof (Q.le_max_r s (seg_start turn)).
  lra.
Qed.

Lemma meets_positive_overlap (s e : Q) (turn : Segment) :
  s < e -> seg_start turn < seg_end turn ->
  s < seg_end turn -> seg_start turn < e ->
  0 < Spec.turn_overlap s e turn.
Proof.
  unfold Spec.turn_overlap, Spec.overlap. intros H1 H2 H3 H4.
  eapply Qlt_le_trans; [| apply Q.le_max_r].
  destruct (Q.min_spec e (seg_end turn)) as [[? Hm]|[? Hm]];
  destruct (Q.max_spec s (seg_start turn)) as [[? Hx]|[? Hx]]; lra.
Qed.

Lemma count_notin (xs : list string) (x : string) : ~ In x xs -> Py.count xs x = O.
Proof.
  induction xs as [|y xs IH]; simpl; [reflexivity |].
  intros H. destruct (String.eqb_spec y x); [tauto | apply IH; tauto].
Qed.

(** [pipeline.py] chooses a label that occurs most often among the turns
    that meet the segment. *)
Lemma choose_speaker1_most_frequent (set_iter : list string -> list string)
    (s e : Q) (turns : Tracks) :
  Pipeline1.set_order set_iter ->
  Pipeline1.overlapping s e turns <> [] ->
  let ov := Pipeline1.overlapping s e turns in
  let chosen := Pipeline1.choose_speaker set_iter s e turns in
  In chosen ov /\ forall spk, (Py.count ov spk <= Py.count ov chosen)%nat.
Proof.
  intros Hset Hne. simpl. unfold Pipeline1.choose_speaker.
  destruct (Pipeline1.overlapping s e turns) as [|k0 ks] eqn:Eov; [congruence |].
  destruct (Hset (k0 :: ks)) as [_ Hmem].
  destruct (set_iter (k0 :: ks)) as [|b rest] eqn:Eset.
  - exfalso. apply (proj2 (Hmem k0)). now left.
  - cbn [Py.max_by]. split.
    + apply Hmem. apply max_from_in.
    + intros spk. destruct (in_dec string_dec spk (k0 :: ks)) as [Hin|Hout].
      * apply (max_from_ge_nat (Py.count (k0 :: ks)) b rest spk). now apply Hmem.
      * rewrite (count_notin _ _ Hout). lia.
Qed.

(** ** The aligner of [python_diarization.py] *)

Lemma choose_speaker_longest (s : WhisperSegment) (diarization : list Diarization.DiarTuple) :
  Diarization.overlapping s diarization <> [] ->
  exists best,
    In best (Diarization.overlapping s diarization) /\
    Diarization.choose_speaker s diarization = ("Speaker_" +:+ snd best)%string /\
    forall seg, In seg (Diarization.overlapping s diarization) ->
                Diarization.overlap_key s seg <= Diarization.overlap_key s best.
Proof.
  intros Hne. unfold Diarization.choose_speaker.
  destruct (Diarization.overlapping s diarization) as [|b rest]; [congruence |].
  simpl. exists (Py.max_from Py.gt (Diarization.overlap_key s) b rest).
  split; [apply max_from_in | split; [reflexivity |]].
  intros seg Hin. now apply max_from_ge.
Qed.

(** ** Iteration orders of a set *)

Lemma first_seen_in (xs : list string) (x : string) :
  In x (Pipeline1.first_seen xs) <-> In x xs.
Proof.
  induction xs as [|y xs IH]; simpl; [tauto |].
  rewrite filter_In, IH.
  destruct (String.eqb_spec y x) as [->|Hne]; simpl; intuition congruence.
Qed.

Lemma NoDup_filter_stdlib {A : Type} (f : A -> bool) (l : list A) :
  List.NoDup l -> List.NoDup (List.filter f l).
Proof.
  induction 1 as [|x l Hx Hl IH]; simpl; [constructor |].
  destruct (f x); [constructor |]; auto.
  rewrite filter_In. tauto.
Qed.

Lemma first_seen_nodup (xs : list string) : List.NoDup (Pipeline1.first_seen xs).
Proof.
  induction xs as [|y xs IH]; simpl; constructor.
  - rewrite filter_In. intros [_ H]. now rewrite String.eqb_refl in H.
  - now apply NoDup_filter_stdlib.
Qed.

Lemma first_seen_set_order : Pipeline1.set_order Pipeline1.first_seen.
Proof.
  intros xs. split.
  - apply first_seen_nodup.
  - intros x. apply first_seen_in.
Qed.

Lemma last_seen_set_order : Pipeline1.set_order Pipeline1.last_seen.
Proof.
  intros xs. unfold Pipeline1.last_seen. split.
  - apply List.NoDup_rev, first_seen_nodup.
  - intros x. rewrite <- in_rev. apply first_seen_in.
Qed.

(** ** The tie-break of [pipeline2.py]: insertion order of the dict *)

Lemma keys_set_present (d : Py.dict) (k : string) (v : Q) :
  In k (Py.keys d) -> Py.keys (Py.set d k v) = Py.keys d.
Proof.
  unfold Py.keys. induction d as [|[k0 v0] d IH]; simpl; [tauto |].
  intros Hin. destruct (String.eqb_spec k0 k) as [->|Hne]; simpl; [reflexivity |].
  f_equal. apply IH. destruct Hin; [congruence | assumption].
Qed.

Lemma keys_set_fresh (d : Py.dict) (k : string) (v : Q) :
  ~ In k (Py.keys d) -> Py.keys (Py.set d k v) = Py.keys d ++ [k].
Proof.
  unfold Py.keys. induction d as [|[k0 v0] d IH]; simpl; [reflexivity |].
  intros Hin. destruct (String.eqb_spec k0 k) as [->|Hne]; simpl; [tauto |].
  f_equal. apply IH. tauto.
Qed.

Lemma filter_filter_ext {A : Type} (f g h : A -> bool) (l : list A) :
  (forall y, f y && g y = h y) -> List.filter f (List.filter g l) = List.filter h l.
Proof.
  intros Hext. induction l as [|x l IH]; simpl; [reflexivity |].
  rewrite <- (Hext x). destruct (g x); simpl.
  - rewrite andb_true_r. destruct (f x); now rewrite IH.
  - rewrite andb_false_r. exact IH.
Qed.

Lemma existsb_eqb_in (acc : list string) (y : string) :
  existsb (String.eqb y) acc = true <-> In y acc.
Proof.
  rewrite existsb_exists. split.
  - intros (x & Hin & Heq). apply String.eqb_eq in Heq. now subst.
  - intros Hin. exists y. split; [assumption | apply String.eqb_refl].
Qed.

Lemma count_from_keys_order (d : Py.dict) (ov : list (string * Q)) :
  Py.keys (Pipeline2.count_from d ov) =
  Py.keys d ++ List.filter (fun y => negb (existsb (String.eqb y) (Py.keys d)))
                 (Pipeline1.first_seen (map fst ov)).
Proof.
  revert d. induction ov as [|[spk dur] rest IH]; intros d; simpl.
  - now rewrite app_nil_r.
  - rewrite IH.
    destruct (existsb (String.eqb spk) (Py.keys d)) eqn:E; simpl.
    + apply existsb_eqb_in in E. rewrite keys_set_present by assumption.
      f_equal. symmetry. apply filter_filter_ext. intros y.
      destruct (String.eqb_spec spk y) as [<-|Hne]; simpl.
      * apply existsb_eqb_in in E. rewrite E. reflexivity.
      * apply andb_true_r.
    + assert (Hout : ~ In spk (Py.keys d)).
      { intros Hin. apply existsb_eqb_in in Hin. congruence. }
      rewrite keys_set_fresh by assumption. rewrite <- app_assoc. simpl.
      f_equal. f_equal. symmetry. apply filter_filter_ext. intros y.
      rewrite existsb_app. simpl. rewrite orb_false_r, negb_orb.
      rewrite (String.eqb_sym y spk). reflexivity.
Qed.

Lemma speaker_counts_keys (ov : list (string * Q)) :
  Py.keys (Pipeline2.speaker_counts ov) = Pipeline1.first_seen (map fst ov).
Proof.
  unfold Pipeline2.speaker_counts. rewrite count_from_keys_order. simpl.
  induction (Pipeline1.first_seen (map fst ov)) as [|x l IH]; simpl; congruence.
Qed.

(** [max] returns the first of the items with the greatest key. *)
Lemma max_from_first {A : Type} (key : A -> Q) (best : A) (rest : list A) :
  exists l1 l2,
    best :: rest = l1 ++ Py.max_from Py.gt key best rest :: l2 /\
    (forall x, In x l1 -> key x < key (Py.max_from Py.gt key best rest)) /\
    (forall x, In x l2 -> key x <= key (Py.max_from Py.gt key best rest)).
Proof.
  revert best. induction rest as [|y rest IH]; intros best.
  - exists [], []. simpl. split; [reflexivity | split; intros x []].
  - simpl. set (best' := if Py.gt (key y) (key best) then y else best).
    destruct (IH best') as (l1 & l2 & Hsplit & Hlt & Hle).
    set (m := Py.max_from Py.gt key best' rest) in *.
    pose proof (max_from_ge key best' rest best' (or_introl eq_refl)) as Htop.
    fold m in Htop.
    subst best'. destruct (Py.gt (key y) (key best)) eqn:E.
    + apply gt_true in E. exists (best :: l1), l2. split; [| split].
      * simpl. now rewrite Hsplit.
      * intros x [<-|Hin]; [lra | now apply Hlt].
      * exact Hle.
    + apply gt_false in E. destruct l1 as [|b l1].
      * simpl in Hsplit. inversion Hsplit as [[Hm Hr]].
        exists [], (y :: rest). split; [| split].
        -- simpl. congruence.
        -- intros x [].
        -- intros x [<-|Hin]; [lra |]. apply Hle. congruence.
      * simpl in Hsplit. inversion Hsplit as [[Hb Hr]]. subst b.
        exists (best :: y :: l1), l2. split; [| split].
        -- simpl. congruence.
        -- intros x [<-|[<-|Hin]].
           ++ apply Hlt. now left.
           ++ pose proof (Hlt best (or_introl eq_refl)). lra.
           ++ apply Hlt. now right.
        -- exact Hle.
Qed.

(** Among the speakers of maximal total overlap, [pipeline2.py] chooses the
    one whose first overlapping turn comes first in the iteration. *)
Lemma choose_speaker_first_maximal (s e : Q) (turns : Tracks) :
  Spec.overlaps_some s e turns ->
  let chosen := Pipeline2.choose_speaker s e turns in
  exists l1 l2,
    Pipeline1.first_seen (map fst (Pipeline2.overlapping_speakers s e turns))
      = l1 ++ chosen :: l2 /\
    (forall k, In k l1 ->
       Spec.total_overlap s e turns k < Spec.total_overlap s e turns chosen) /\
    (forall k, In k l2 ->
       Spec.total_overlap s e turns k <= Spec.total_overlap s e turns chosen).
Proof.
  intros (turn0 & spk0 & Hin0 & Hpos0). simpl.
  unfold Pipeline2.choose_speaker.
  assert (Hov : In spk0 (map fst (Pipeline2.overlapping_speakers s e turns))).
  { apply overlapping_speakers_in. eauto. }
  destruct (Pipeline2.overlapping_speakers s e turns) as [|p rest] eqn:Eov;
    [destruct Hov |].
  set (counts := Pipeline2.speaker_counts (p :: rest)).
  assert (Htot : forall k, Py.get counts k 0 = Spec.total_overlap s e turns k).
  { intros k. subst counts. unfold Pipeline2.speaker_counts.
    rewrite count_from_get. simpl Py.get.
    now rewrite <- Eov, overlapping_speakers_sum. }
  rewrite <- speaker_counts_keys. fold counts.
  pose proof (speaker_counts_nonempty p rest) as Hne. fold counts in Hne.
  destruct (Py.keys counts) as [|k0 ks] eqn:Ek; [congruence |].
  cbn [Py.max_by].
  destruct (max_from_first (fun k => Py.get counts k 0) k0 ks) as (l1 & l2 & Hs & Hlt & Hle).
  exists l1, l2. split; [exact Hs | split].
  - intros k Hk. specialize (Hlt k Hk). simpl in Hlt. rewrite <- !Htot. exact Hlt.
  - intros k Hk. specialize (Hle k Hk). simpl in Hle. rewrite <- !Htot. exact Hle.
Qed.

Lemma overlapping_diar_in (seg : WhisperSegment) (turns : Tracks) (turn : Segment) (k : string) :
  In (turn, k) turns -> ws_start seg < seg_end turn -> seg_start turn < ws_end seg ->
  In (seg_start turn, seg_end turn, k)
     (Diarization.overlapping seg (Diarization.segments_of turns)).
Proof.
  intros Hin H1 H2. unfold Diarization.overlapping. apply filter_In. split.
  - unfold Diarization.segments_of.
    apply (in_map (fun ts : Segment * string => (seg_start (fst ts), seg_end (fst ts), snd ts))
             turns (turn, k) Hin).
  - apply negb_true_iff, orb_false_iff. unfold Py.le, Py.ge. split.
    + destruct (Qle_bool (ws_end seg) (seg_start turn)) eqn:E; [| reflexivity].
      apply Qle_bool_iff in E. lra.
    + destruct (Qle_bool (seg_end turn) (ws_start seg)) eqn:E; [| reflexivity].
      apply Qle_bool_iff in E. lra.
Qed.

(** ** The claims about the aligner *)

(** C1, as amended.  For every transcript segment that has positive overlap
    with at least one diarization turn: the aligner of [pipeline2.py] assigns
    a speaker of an overlapping turn whose total overlap, as the floats of
    the code add up the overlaps of that speaker's turns in the order of
    the turns, is maximal; the aligner of [pipeline.py] assigns a label that
    occurs most often among the turns that meet the segment; the aligner of
    [python_diarization.py] assigns ["Speaker_"] followed by the label of
    one turn whose own overlap with the segment, as a float difference, is
    maximal. *)
Theorem C1_chosen_speaker (set_iter : list string -> list string)
    (ws : list WhisperSegment) (turns : Tracks) (i : nat) (seg : WhisperSegment) :
  Pipeline1.set_order set_iter ->
  nth_error ws i = Some seg ->
  Spec.overlaps_some (ws_start seg) (ws_end seg) turns ->
  (exists m,
     nth_error (Pipeline2.map_speakers_to_segments ws turns) i = Some m /\
     (exists turn, In (turn, speaker m) turns /\
                   0 < Spec.turn_overlap (ws_start seg) (ws_end seg) turn) /\
     (forall spk,
        Spec.total_overlap (ws_start seg) (ws_end seg) turns spk
        <= Spec.total_overlap (ws_start seg) (ws_end seg) turns (speaker m))) /\
  (exists m,
     nth_error (Pipeline1.map_speakers_to_segments set_iter ws turns) i = Some m /\
     In (speaker m) (Pipeline1.overlapping (ws_start seg) (ws_end seg) turns) /\
     (forall spk,
        (Py.count (Pipeline1.overlapping (ws_start seg) (ws_end seg) turns) spk
         <= Py.count (Pipeline1.overlapping (ws_start seg) (ws_end seg) turns) (speaker m))%nat)) /\
  (exists m best,
     nth_error (Diarization.align_segments ws (Diarization.segments_of turns)) i = Some m /\
     In best (Diarization.overlapping seg (Diarization.segments_of turns)) /\
     speaker m = ("Speaker_" +:+ snd best)%string /\
     (forall other, In other (Diarization.overlapping seg (Diarization.segments_of turns)) ->
        Diarization.overlap_key seg other <= Diarization.overlap_key seg best)).
Proof.
  intros Hset Hnth Hov. split; [| split].
  - exists (Pipeline2.map_segment turns seg). split.
    + apply map_nth_error. exact Hnth.
    + apply (choose_speaker_max _ _ _ Hov).
  - exists (Pipeline1.map_segment set_iter turns seg). split.
    + apply map_nth_error. exact Hnth.
    + apply (choose_speaker1_most_frequent set_iter _ _ _ Hset).
      destruct Hov as (turn & spk & Hin & Hpos).
      apply positive_overlap_meets in Hpos.
      intros Hnil.
      assert (Hk : In spk (Pipeline1.overlapping (ws_start seg) (ws_end seg) turns)).
      { apply overlapping1_in. exists turn. tauto. }
      rewrite Hnil in Hk. destruct Hk.
  - destruct Hov as (turn & spk & Hin & Hpos).
    apply positive_overlap_meets in Hpos. destruct Hpos as [H1 H2].
    pose proof (overlapping_diar_in seg turns turn spk Hin H1 H2) as Hmem.
    destruct (choose_speaker_longest seg (Diarization.segments_of turns))
      as (best & Hbest & Hspk & Hmax).
    { intros Hnil. rewrite Hnil in Hmem. destruct Hmem. }
    exists (Diarization.align_segment (Diarization.segments_of turns) seg), best.
    split; [apply map_nth_error; exact Hnth |].
    split; [exact Hbest | split; [exact Hspk | exact Hmax]].
Qed.

Lemma C1_chosen_speaker_witness :
  exists m,
    nth_error (Pipeline2.map_speakers_to_segments
                 [{| ws_start := 0; ws_end := 2; ws_text := " hello " |}]
                 [(mkseg 0 1, "A"); (mkseg 1 2, "B"); (mkseg (3#2) 2, "A")]) 0 = Some m /\
    forall spk,
      Spec.total_overlap 0 2 [(mkseg 0 1, "A"); (mkseg 1 2, "B"); (mkseg (3#2) 2, "A")] spk
      <= Spec.total_overlap 0 2 [(mkseg 0 1, "A"); (mkseg 1 2, "B"); (mkseg (3#2) 2, "A")]
           (speaker m).
Proof.
  destruct (C1_chosen_speaker Pipeline1.first_seen
              [{| ws_start := 0; ws_end := 2; ws_text := " hello " |}]
              [(mkseg 0 1, "A"); (mkseg 1 2, "B"); (mkseg (3#2) 2, "A")]
              0 {| ws_start := 0; ws_end := 2; ws_text := " hello " |}
              first_seen_set_order eq_refl)
    as ((m & Hm & _ & Hmax) & _).
  - exists (mkseg 0 1), "A"%string. split; [simpl; auto | vm_compute; reflexivity].
  - exists m. split; [exact Hm | exact Hmax].
Defined.

(** C1, the claim as stated fails for each of the three aligners.  With turns
    (A, 0, 1), (A, 2, 3), (B, 3, 10) and the segment [0, 10], [pipeline.py]
    assigns A (two turns against one) although B has the greater total
    overlap; with turns (A, 0, 4), (B, 4, 7), (B, 7, 10),
    [python_diarization.py] assigns Speaker_A (the longest single turn)
    although B has the greater total overlap.  And the comparison of
    [pipeline2.py] is one of rounded sums: on the segment [0.9, 3.9] with
    turns (A, 0.9, 1.2), (A, 1.2, 2.4), (B, 2.4, 3.9), the bounds being the
    nearest floats, both sums round to 1.5 and A, the first, is assigned,
    although the overlaps of A add up to less than the overlap of B. *)
Lemma C1_counterexample :
  (let t := Float.round in
   let turns := [(mkseg (t (9#10)) (t (12#10)), "A"%string);
                 (mkseg (t (12#10)) (t (24#10)), "A"%string);
                 (mkseg (t (24#10)) (t (39#10)), "B"%string)] in
   Spec.overlaps_some (t (9#10)) (t (39#10)) turns /\
   map speaker
     (Pipeline2.map_speakers_to_segments
        [{| ws_start := t (9#10); ws_end := t (39#10); ws_text := "hello" |}] turns)
   = ["A"%string] /\
   Spec.total_overlap (t (9#10)) (t (39#10)) turns "A" = 3 # 2 /\
   Spec.total_overlap (t (9#10)) (t (39#10)) turns "B" = 3 # 2 /\
   Spec.turn_overlap (t (9#10)) (t (39#10)) (mkseg (t (9#10)) (t (12#10)))
   + Spec.turn_overlap (t (9#10)) (t (39#10)) (mkseg (t (12#10)) (t (24#10)))
   < Spec.turn_overlap (t (9#10)) (t (39#10)) (mkseg (t (24#10)) (t (39#10)))) /\
  (Spec.overlaps_some 0 10 [(mkseg 0 1, "A"); (mkseg 2 3, "A"); (mkseg 3 10, "B")] /\
   map speaker
     (Pipeline1.map_speakers_to_segments Pipeline1.first_seen
        [{| ws_start := 0; ws_end := 10; ws_text := "hello" |}]
        [(mkseg 0 1, "A"); (mkseg 2 3, "A"); (mkseg 3 10, "B")]) = ["A"%string] /\
   Spec.total_overlap 0 10 [(mkseg 0 1, "A"); (mkseg 2 3, "A"); (mkseg 3 10, "B")] "A"
   < Spec.total_overlap 0 10 [(mkseg 0 1, "A"); (mkseg 2 3, "A"); (mkseg 3 10, "B")] "B") /\
  (Spec.overlaps_some 0 10 [(mkseg 0 4, "A"); (mkseg 4 7, "B"); (mkseg 7 10, "B")] /\
   map speaker
     (Diarization.align_segments
        [{| ws_start := 0; ws_end := 10; ws_text := "hello" |}]
        (Diarization.segments_of [(mkseg 0 4, "A"); (mkseg 4 7, "B"); (mkseg 7 10, "B")]))
     = ["Speaker_A"%string] /\
   Spec.total_overlap 0 10 [(mkseg 0 4, "A"); (mkseg 4 7, "B"); (mkseg 7 10, "B")] "A"
   < Spec.total_overlap 0 10 [(mkseg 0 4, "A"); (mkseg 4 7, "B"); (mkseg 7 10, "B")] "B").
Proof.
  split; [| split; (split; [| split])].
  - cbv zeta. split; [| split; [| split; [| split]]]; try (vm_compute; reflexivity).
    exists (mkseg (Float.round (9#10)) (Float.round (12#10))), "A"%string.
    split; [simpl; auto | vm_compute; reflexivity].
  - exists (mkseg 0 1), "A"%string. split; [simpl; auto | vm_compute; reflexivity].
  - vm_compute. reflexivity.
  - vm_compute. reflexivity.
  - exists (mkseg 0 4), "A"%string. split; [simpl; auto | vm_compute; reflexivity].
  - vm_compute. reflexivity.
  - vm_compute. reflexivity.
Qed.

(** C5, at the failing input.  The segment [0, 2] meets the turns (A, 0, 1)
    and (B, 1, 2), which have equal overlap with it.  [pipeline.py] takes
    [max] over [set(overlapping)]: both labels occur once, so the label that
    the set yields first is chosen.  Under two iteration orders of the same
    set, the same call returns two different speakers. *)
Theorem C5_pipeline1_tie_follows_set_order :
  Pipeline1.set_order Pipeline1.first_seen /\
  Pipeline1.set_order Pipeline1.last_seen /\
  Spec.total_overlap 0 2 [(mkseg 0 1, "A"); (mkseg 1 2, "B")] "A"
  == Spec.total_overlap 0 2 [(mkseg 0 1, "A"); (mkseg 1 2, "B")] "B" /\
  map speaker
    (Pipeline1.map_speakers_to_segments Pipeline1.first_seen
       [{| ws_start := 0; ws_end := 2; ws_text := "hello" |}]
       [(mkseg 0 1, "A"); (mkseg 1 2, "B")]) = ["A"%string] /\
  map speaker
    (Pipeline1.map_speakers_to_segments Pipeline1.last_seen
       [{| ws_start := 0; ws_end := 2; ws_text := "hello" |}]
       [(mkseg 0 1, "A"); (mkseg 1 2, "B")]) = ["B"%string].
Proof.
  split; [exact first_seen_set_order |].
  split; [exact last_seen_set_order |].
  split; [vm_compute; reflexivity |].
  split; vm_compute; reflexivity.
Qed.

(** C6, as amended.  Both aligners return exactly one mapped segment per
    transcript segment, in the same order, each with the start and end of
    its input and the chosen speaker.  The aligner of [pipeline2.py] stores
    the text with its surrounding whitespace trimmed; the aligner of
    [pipeline.py] stores the text unchanged. *)
Theorem C6_one_output_per_segment (set_iter : list string -> list string)
    (ws : list WhisperSegment) (turns : Tracks) (i : nat) (seg : WhisperSegment) :
  nth_error ws i = Some seg ->
  length (Pipeline2.map_speakers_to_segments ws turns) = length ws /\
  length (Pipeline1.map_speakers_to_segments set_iter ws turns) = length ws /\
  (exists m,
     nth_error (Pipeline2.map_speakers_to_segments ws turns) i = Some m /\
     start m = ws_start seg /\ end_ m = ws_end seg /\
     text m = Py.strip (ws_text seg) /\
     Spec.trimmed_of (ws_text seg) (text m) /\
     speaker m = Pipeline2.choose_speaker (ws_start seg) (ws_end seg) turns) /\
  (exists m,
     nth_error (Pipeline1.map_speakers_to_segments set_iter ws turns) i = Some m /\
     start m = ws_start seg /\ end_ m = ws_end seg /\
     text m = ws_text seg /\
     speaker m = Pipeline1.choose_speaker set_iter (ws_start seg) (ws_end seg) turns).
Proof.
  intros Hnth.
  split; [apply length_map |]. split; [apply length_map |]. split.
  - exists (Pipeline2.map_segment turns seg).
    split; [apply map_nth_error; exact Hnth |].
    simpl. repeat split; try reflexivity; apply strip_trimmed.
  - exists (Pipeline1.map_segment set_iter turns seg).
    split; [apply map_nth_error; exact Hnth |].
    simpl. repeat split; reflexivity.
Qed.

Lemma C6_one_output_per_segment_witness :
  exists m,
    nth_error (Pipeline2.map_speakers_to_segments
                 [{| ws_start := 0; ws_end := 2; ws_text := " hello " |}]
                 [(mkseg 0 1, "A")]) 0 = Some m /\
    text m = "hello"%string.
Proof.
  destruct (C6_one_output_per_segment Pipeline1.first_seen
              [{| ws_start := 0; ws_end := 2; ws_text := " hello " |}]
              [(mkseg 0 1, "A")] 0
              {| ws_start := 0; ws_end := 2; ws_text := " hello " |} eq_refl)
    as (_ & _ & (m & Hm & _ & _ & Htext & _) & _).
  exists m. split; [exact Hm | exact Htext].
Defined.

(** C6, the claim as stated fails for [pipeline.py]: the text [" hi "] of a
    transcript segment is stored with its surrounding spaces. *)
Lemma C6_counterexample :
  map text
    (Pipeline1.map_speakers_to_segments Pipeline1.first_seen
       [{| ws_start := 0; ws_end := 1; ws_text := " hi " |}] [])
  = [" hi "%string] /\
  ~ Spec.trimmed_of " hi " " hi ".
Proof.
  split; [reflexivity |].
  intros (_ & Hhead & _).
  specialize (Hhead [" "%char] (list_ascii_of_string "hi ") eq_refl). discriminate.
Qed.

Lemma overlapping_speakers_none (s e : Q) (turns : Tracks) :
  (forall turn spk, In (turn, spk) turns -> Spec.turn_overlap s e turn == 0) ->
  Pipeline2.overlapping_speakers s e turns = [].
Proof.
  intros Hzero.
  destruct (Pipeline2.overlapping_speakers s e turns) as [|[k d] rest] eqn:E;
    [reflexivity |].
  assert (Hk : In k (map fst (Pipeline2.overlapping_speakers s e turns))).
  { rewrite E. now left. }
  apply overlapping_speakers_in in Hk. destruct Hk as (turn & Hin & Hpos).
  specialize (Hzero turn k Hin). lra.
Qed.

(** C7, as amended.  For every transcript segment that has zero overlap with
    every diarization turn, the aligner of [pipeline2.py] assigns the
    sentinel speaker ["Unknown"], with a capital U; the aligner of
    [pipeline.py] assigns the same sentinel provided the segment and the
    turns have positive length. *)
Theorem C7_no_overlap_gives_Unknown (set_iter : list string -> list string)
    (ws : list WhisperSegment) (turns : Tracks) (i : nat) (seg : WhisperSegment) :
  nth_error ws i = Some seg ->
  (forall turn spk, In (turn, spk) turns ->
     Spec.turn_overlap (ws_start seg) (ws_end seg) turn == 0) ->
  (exists m,
     nth_error (Pipeline2.map_speakers_to_segments ws turns) i = Some m /\
     speaker m = "Unknown"%string) /\
  (ws_start seg < ws_end seg ->
   (forall turn spk, In (turn, spk) turns -> seg_start turn < seg_end turn) ->
   exists m,
     nth_error (Pipeline1.map_speakers_to_segments set_iter ws turns) i = Some m /\
     speaker m = "Unknown"%string).
Proof.
  intros Hnth Hzero. split.
  - exists (Pipeline2.map_segment turns seg).
    split; [apply map_nth_error; exact Hnth |].
    simpl. unfold Pipeline2.choose_speaker.
    now rewrite (overlapping_speakers_none _ _ _ Hzero).
  - intros Hseg Hturns.
    exists (Pipeline1.map_segment set_iter turns seg).
    split; [apply map_nth_error; exact Hnth |].
    simpl. unfold Pipeline1.choose_speaker.
    destruct (Pipeline1.overlapping (ws_start seg) (ws_end seg) turns) as [|k ks] eqn:E;
      [reflexivity |].
    assert (Hk : In k (Pipeline1.overlapping (ws_start seg) (ws_end seg) turns)).
    { rewrite E. now left. }
    apply overlapping1_in in Hk. destruct Hk as (turn & Hin & H1 & H2).
    pose proof (meets_positive_overlap _ _ turn Hseg (Hturns turn k Hin) H1 H2) as Hpos.
    specialize (Hzero turn k Hin). lra.
Qed.

Lemma C7_no_overlap_gives_Unknown_witness :
  (exists m,
     nth_error (Pipeline2.map_speakers_to_segments
                  [{| ws_start := 10; ws_end := 11; ws_text := "hello" |}]
                  [(mkseg 0 5, "A")]) 0 = Some m /\
     speaker m = "Unknown"%string) /\
  (exists m,
     nth_error (Pipeline1.map_speakers_to_segments Pipeline1.first_seen
                  [{| ws_start := 10; ws_end := 11; ws_text := "hello" |}]
                  [(mkseg 0 5, "A")]) 0 = Some m /\
     speaker m = "Unknown"%string).
Proof.
  destruct (C7_no_overlap_gives_Unknown Pipeline1.first_seen
              [{| ws_start := 10; ws_end := 11; ws_text := "hello" |}]
              [(mkseg 0 5, "A")] 0
              {| ws_start := 10; ws_end := 11; ws_text := "hello" |} eq_refl)
    as [H2 H1].
  - intros turn spk [Heq|[]]. inversion Heq; subst. vm_compute. reflexivity.
  - split; [exact H2 |]. apply H1.
    + vm_compute. reflexivity.
    + intros turn spk [Heq|[]]. inversion Heq; subst. vm_compute. reflexivity.
Defined.

(** C7, the claim as stated fails on its own example: for the segment
    [10, 11] and a turn covering [0, 5] the speaker is ["Unknown"], which is
    not the string ["unknown"].  In [pipeline.py], moreover, a segment of
    length zero that lies inside a turn has no overlap with it and still
    gets the speaker of the turn. *)
Lemma C7_counterexample :
  map speaker
    (Pipeline2.map_speakers_to_segments
       [{| ws_start := 10; ws_end := 11; ws_text := "hello" |}]
       [(mkseg 0 5, "A")]) = ["Unknown"%string] /\
  map speaker
    (Pipeline2.map_speakers_to_segments
       [{| ws_start := 10; ws_end := 11; ws_text := "hello" |}]
       [(mkseg 0 5, "A")]) <> ["unknown"%string] /\
  Spec.turn_overlap 1 1 (mkseg 0 2) == 0 /\
  map speaker
    (Pipeline1.map_speakers_to_segments Pipeline1.first_seen
       [{| ws_start := 1; ws_end := 1; ws_text := "hello" |}]
       [(mkseg 0 2, "A")]) = ["A"%string].
Proof.
  split; [vm_compute; reflexivity |].
  split; [vm_compute; discriminate |].
  split; vm_compute; reflexivity.
Qed.

(** ** The aggregation of [run_full_pipeline] *)

Section Aggregation.

Variables (ds : list MappedSegment) (af : list AudioFeatures) (emb : list (list Q))
          (temo semo : list string) (kws : list (list string)).

Lemma combine_defined (i : nat) :
  (i < min_len ds af emb temo semo kws)%nat ->
  is_Some (combine ds af emb temo semo kws i).
Proof.
  unfold min_len, combine. intros Hi.
  destruct (lookup_lt_is_Some_2 ds i) as [x1 ->]; [lia |].
  destruct (lookup_lt_is_Some_2 af i) as [x2 ->]; [lia |].
  destruct (lookup_lt_is_Some_2 emb i) as [x3 ->]; [lia |].
  destruct (lookup_lt_is_Some_2 temo i) as [x4 ->]; [lia |].
  destruct (lookup_lt_is_Some_2 semo i) as [x5 ->]; [lia |].
  destruct (lookup_lt_is_Some_2 kws i) as [x6 ->]; [lia |].
  simpl. eauto.
Qed.

Lemma combine_fields (i : nat) (r : FinalSegment) :
  combine ds af emb temo semo kws i = Some r ->
  ds !! i = Some (fs_segment r) /\
  af !! i = fs_audio_features r /\ is_Some (fs_audio_features r) /\
  emb !! i = fs_text_embedding r /\ is_Some (fs_text_embedding r) /\
  temo !! i = Some (fs_text_emotion r) /\
  semo !! i = Some (fs_speech_emotion r) /\
  kws !! i = Some (fs_keywords r).
Proof.
  unfold combine. intros H.
  destruct (ds !! i) as [x1|]; [| discriminate].
  destruct (af !! i) as [x2|]; [| discriminate].
  destruct (emb !! i) as [x3|]; [| discriminate].
  destruct (temo !! i) as [x4|]; [| discriminate].
  destruct (semo !! i) as [x5|]; [| discriminate].
  destruct (kws !! i) as [x6|]; [| discriminate].
  simpl in H. inversion H; subst; simpl. repeat split; eauto.
Qed.

(** The aggregation loop never raises, returns as many records as the
    shortest of the six lists has items, and builds the record at index [i]
    from the items at index [i] alone. *)
Lemma aggregate_spec :
  exists final,
    aggregate ds af emb temo semo kws = Some final /\
    length final = min_len ds af emb temo semo kws /\
    (forall i r, final !! i = Some r ->
       ds !! i = Some (fs_segment r) /\
       af !! i = fs_audio_features r /\ is_Some (fs_audio_features r) /\
       emb !! i = fs_text_embedding r /\ is_Some (fs_text_embedding r) /\
       temo !! i = Some (fs_text_emotion r) /\
       semo !! i = Some (fs_speech_emotion r) /\
       kws !! i = Some (fs_keywords r)).
Proof.
  unfold aggregate. set (n := min_len ds af emb temo semo kws).
  destruct (mapM (combine ds af emb temo semo kws) (seq 0 n)) as [final|] eqn:E.
  - exists final. split; [reflexivity |].
    apply mapM_Some in E. split.
    + apply Forall2_length in E. rewrite length_seq in E. auto.
    + intros i r Hr.
      destruct (Forall2_lookup_r _ _ _ _ _ E Hr) as (j & Hj & Hc).
      apply lookup_seq in Hj. destruct Hj as [-> _]. simpl in Hc.
      now apply combine_fields.
  - exfalso. apply mapM_None in E. apply Exists_exists in E.
    destruct E as (i & Hin & Hnone).
    apply elem_of_seq in Hin.
    destruct (combine_defined i) as [r Hr]; [subst n; lia | congruence].
Qed.

Lemma discrepancy_logged :
  (min_len ds af emb temo semo kws < length ds)%nat ->
  discrepancy ds af emb temo semo kws
  = Some (Discrepancy (min_len ds af emb temo semo kws) (length ds)).
Proof.
  intros H. unfold discrepancy. apply Nat.ltb_lt in H. now rewrite H.
Qed.

End Aggregation.

(** C8.  If some field sequence is shorter than the aligned sequence, the
    aggregation produces exactly as many records as the shortest of the
    aligned sequence and the five field sequences has items, prints the
    discrepancy warning, does not raise, and fills every record from the
    items found at its own index only: no value is made up. *)
Theorem C8_aggregation_truncates (env : Env) (input_audio_path : string)
    (c : Collected) (w : World) :
  (length (c_audio_features c) < length (c_diarized_segments c) \/
   length (c_text_embeddings c) < length (c_diarized_segments c) \/
   length (c_text_emotions c) < length (c_diarized_segments c) \/
   length (c_speech_emotions c) < length (c_diarized_segments c) \/
   length (c_keywords c) < length (c_diarized_segments c))%nat ->
  let n := min_len (c_diarized_segments c) (c_audio_features c) (c_text_embeddings c)
             (c_text_emotions c) (c_speech_emotions c) (c_keywords c) in
  exists doc w',
    finish env input_audio_path c w = (Val doc, w') /\
    aggregate (c_diarized_segments c) (c_audio_features c) (c_text_embeddings c)
      (c_text_emotions c) (c_speech_emotions c) (c_keywords c) = Some (segments doc) /\
    length (segments doc) = n /\
    In (Discrepancy n (length (c_diarized_segments c))) (log w') /\
    (forall i r, segments doc !! i = Some r ->
       c_diarized_segments c !! i = Some (fs_segment r) /\
       c_audio_features c !! i = fs_audio_features r /\
       c_text_embeddings c !! i = fs_text_embedding r /\
       c_text_emotions c !! i = Some (fs_text_emotion r) /\
       c_speech_emotions c !! i = Some (fs_speech_emotion r) /\
       c_keywords c !! i = Some (fs_keywords r)).
Proof.
  intros Hshort n.
  destruct (aggregate_spec (c_diarized_segments c) (c_audio_features c)
              (c_text_embeddings c) (c_text_emotions c) (c_speech_emotions c)
              (c_keywords c)) as (final & Hagg & Hlen & Hfields).
  assert (Hlt : (n < length (c_diarized_segments c))%nat).
  { subst n. unfold min_len. lia. }
  pose proof (discrepancy_logged _ _ _ _ _ _ Hlt) as Hd. fold n in Hd.
  unfold finish. rewrite Hd, Hagg. unfold bind, tell, ret, save_final_results.
  eexists _, _. split; [reflexivity |]. simpl.
  split; [reflexivity |]. split; [exact Hlen |]. split.
  - destruct (map simplify final); simpl; rewrite !in_app_iff; simpl; tauto.
  - intros i r Hr. specialize (Hfields i r Hr). tauto.
Qed.

(** ** The stage files *)

Lemma get_put_same (s : Stage) (v : file (payload s)) (c : Cache) :
  get s (put s v c) = v.
Proof. destruct s; reflexivity. Qed.

Lemma get_put_other (s t : Stage) (v : file (payload t)) (c : Cache) :
  s <> t -> get s (put t v c) = get s c.
Proof. destruct s, t; intros H; try reflexivity; congruence. Qed.

Lemma stage_index_inj (s t : Stage) : stage_index s = stage_index t -> s = t.
Proof. destruct s, t; simpl; intros H; try reflexivity; discriminate. Qed.

(** ** Rules for runs *)

Lemma triple_bind {A B : Type} (P : World -> Prop) (m : Run A) (k : A -> Run B)
    (Q : A -> World -> Prop) (Q' : B -> World -> Prop) (S : World -> Prop) :
  triple P m Q S -> (forall a, triple (Q a) (k a) Q' S) -> triple P (bind m k) Q' S.
Proof.
  intros Hm Hk w Hw. unfold bind. specialize (Hm w Hw).
  destruct (m w) as [[a| |e] w']; [| exact Hm | exact Hm].
  apply (Hk a w' Hm).
Qed.

Lemma triple_ret {A : Type} (P : World -> Prop) (a : A) (Q : A -> World -> Prop)
    (S : World -> Prop) :
  (forall w, P w -> Q a w) -> triple P (ret a) Q S.
Proof. intros H w Hw. simpl. auto. Qed.

Lemma triple_stop {A : Type} (P : World -> Prop) (Q : A -> World -> Prop)
    (S : World -> Prop) :
  (forall w, P w -> S w) -> triple P stop Q S.
Proof. intros H w Hw. simpl. auto. Qed.

Lemma triple_tell (P : World -> Prop) (e : Event) (Q : unit -> World -> Prop)
    (S : World -> Prop) :
  (forall w, P w -> Q tt (emit e w)) -> triple P (tell e) Q S.
Proof. intros H w Hw. simpl. auto. Qed.

Lemma triple_read_wav (P : World -> Prop) (S : World -> Prop) :
  triple P read_wav (fun wav w => P w /\ wav = get audio_trimmed (cache w)) S.
Proof. intros w Hw. simpl. auto. Qed.

(** The walk through [run_full_pipeline]: a family of invariants [P n],
    one for each number [n] of completed stages, carried from stage to
    stage. *)
Section Walk.

Variables (env : Env) (input_audio_path : string) (max_duration_sec : Z).
Variable P : nat -> World -> Prop.
Variable S : World -> Prop.
Variable Qf : Document -> World -> Prop.

Hypothesis H_pre :
  triple (P 0) (preprocess_step env input_audio_path max_duration_sec)
         (fun _ w => P 1 w) S.
Hypothesis H_step : forall (s : Stage) (compute : result (payload s)),
  json_stage s = true ->
  triple (P (stage_index s - 1)) (cached_step s compute) (fun _ w => P (stage_index s) w) S.
Hypothesis H_no_wav : forall w, P 1 w ->
  S (emit (PipelineStopped audio_trimmed "Preprocessed WAV file not found") w).
Hypothesis H_no_segments : forall w, P 4 w -> S (emit NoValidSegments w).
Hypothesis H_finish : forall c, triple (P 9) (finish env input_audio_path c) Qf S.

Lemma run_stages_triple :
  triple (P 0) (run_stages env input_audio_path max_duration_sec) (fun _ w => P 9 w) S.
Proof.
  unfold run_stages.
  eapply triple_bind; [exact H_pre | intros ?].
  eapply triple_bind; [apply triple_read_wav | intros wav].
  destruct (negb (exists_ wav)).
  { apply (triple_bind _ _ _ (fun _ w => S w)).
    - apply triple_tell. intros w [Hw _]. now apply H_no_wav.
    - intros ?. apply triple_stop. auto. }
  eapply triple_bind.
  { intros w [Hw _]. now apply (H_step whisper_raw). }
  intros whisper_result.
  eapply triple_bind; [apply (H_step diarization_raw); reflexivity | intros diarization_list].
  eapply triple_bind; [apply (H_step mapped_segments); reflexivity | intros diarized_segments].
  destruct diarized_segments as [|seg0 segs].
  { apply (triple_bind _ _ _ (fun _ w => S w)).
    - apply triple_tell. intros w Hw. apply (H_no_segments w Hw).
    - intros ?. apply triple_stop. auto. }
  eapply triple_bind; [apply (H_step audio_features); reflexivity | intros af].
  eapply triple_bind; [apply (H_step text_embeddings); reflexivity | intros emb].
  eapply triple_bind; [apply (H_step text_emotions); reflexivity | intros temo].
  eapply triple_bind; [apply (H_step speech_emotions); reflexivity | intros semo].
  eapply triple_bind; [apply (H_step keywords); reflexivity | intros kws].
  apply triple_ret. auto.
Qed.

Lemma run_full_pipeline_triple :
  triple (P 0) (run_full_pipeline env input_audio_path max_duration_sec) Qf S.
Proof.
  unfold run_full_pipeline.
  eapply triple_bind; [apply run_stages_triple | exact H_finish].
Qed.

End Walk.

(** ** The repeated step *)

Lemma cached_step_hit (s : Stage) (compute : result (payload s)) (w : World)
    (v : payload s) :
  get s (cache w) = Stored v ->
  cached_step s compute w = (Val v, emit (CacheHit s) w).
Proof. intros H. unfold cached_step, load_intermediate_json. now rewrite H. Qed.

Lemma cached_step_miss (s : Stage) (compute : result (payload s)) (w : World) :
  stored (get s (cache w)) = false ->
  cached_step s compute w =
  match compute with
  | Ok v => (Val v, save_intermediate_json s v (emit (Call s) (after_miss s w)))
  | Raise e => (Stop, emit (PipelineStopped s e) (emit (Call s) (after_miss s w)))
  end.
Proof.
  intros H. unfold cached_step, load_intermediate_json, after_miss.
  destruct (get s (cache w)); [reflexivity | reflexivity | discriminate].
Qed.

Lemma stored_true {A : Type} (f : file A) : stored f = true -> exists v, f = Stored v.
Proof. destruct f; simpl; intros H; try discriminate. eauto. Qed.

Lemma after_miss_cache (s : Stage) (w : World) : cache (after_miss s w) = cache w.
Proof. unfold after_miss. destruct (get s (cache w)); reflexivity. Qed.

Lemma after_miss_outputs (s : Stage) (w : World) : outputs (after_miss s w) = outputs w.
Proof. unfold after_miss. destruct (get s (cache w)); reflexivity. Qed.

Lemma after_miss_log (s : Stage) (w : World) (e : Event) :
  In e (log (after_miss s w)) <-> In e (log w) \/ (e = CacheUnreadable s /\ get s (cache w) = Corrupt).
Proof.
  unfold after_miss. destruct (get s (cache w)) eqn:E; simpl.
  - intuition congruence.
  - rewrite in_app_iff. simpl. intuition congruence.
  - intuition congruence.
Qed.

(** What [finish] does: it never stops and never raises. *)
Lemma finish_spec (env : Env) (input_audio_path : string) (c : Collected) (w : World) :
  exists final,
    aggregate (c_diarized_segments c) (c_audio_features c) (c_text_embeddings c)
      (c_text_emotions c) (c_speech_emotions c) (c_keywords c) = Some final /\
    let w1 :=
      match discrepancy (c_diarized_segments c) (c_audio_features c) (c_text_embeddings c)
              (c_text_emotions c) (c_speech_emotions c) (c_keywords c) with
      | Some warning => emit warning w
      | None => w
      end in
    let full_output_data :=
      {| audio_file := basename env input_audio_path;
         full_transcript := Py.strip (wr_text (c_whisper_result c));
         segments := final |} in
    let simplified_output_data :=
      {| audio_file := basename env input_audio_path;
         full_transcript := Py.strip (wr_text (c_whisper_result c));
         segments := map simplify final |} in
    finish env input_audio_path c w =
    (Val full_output_data,
     snd (save_final_results
            (splitext_root env (basename env input_audio_path) +:+ "_no_embeddings")
            simplified_output_data (map simplify final) w1)).
Proof.
  destruct (aggregate_spec (c_diarized_segments c) (c_audio_features c)
              (c_text_embeddings c) (c_text_emotions c) (c_speech_emotions c)
              (c_keywords c)) as (final & Hagg & _).
  exists final. split; [exact Hagg |].
  unfold finish. rewrite Hagg.
  destruct (discrepancy _ _ _ _ _ _); reflexivity.
Qed.

(** ** Resuming over a cache *)

Lemma in_emit (x e : Event) (w : World) : In x (log (emit e w)) <-> In x (log w) \/ x = e.
Proof. simpl. rewrite in_app_iff. simpl. intuition. Qed.

Lemma in_save (x : Event) (s : Stage) (v : payload s) (w : World) :
  In x (log (save_intermediate_json s v w)) <-> In x (log w) \/ x = CacheSave s.
Proof. unfold save_intermediate_json. rewrite in_emit. reflexivity. Qed.

Section Resume.

Variables (env : Env) (input_audio_path : string) (max_duration_sec : Z).
Variables (c0 : Cache) (k : nat).
Hypothesis Hprefix : forall s, (stage_index s <= k)%nat -> usable s c0 = true.

Lemma resumed_weaken (n : nat) (w : World) : resumed c0 k n w -> resumed c0 k 0 w.
Proof.
  intros (H1 & H2 & H3). split; [exact H1 | split; [exact H2 |]].
  intros s _ Hs. destruct s; simpl in Hs; lia.
Qed.

Lemma resumed_hit (s : Stage) (w : World) :
  resumed c0 k (stage_index s - 1) w ->
  resumed c0 k (stage_index s) (emit (CacheHit s) w).
Proof.
  intros (H1 & H2 & H3). split; [| split].
  - intros t Ht. apply in_emit in Ht. destruct Ht as [Ht|Ht]; [auto | discriminate].
  - exact H2.
  - intros t Hk Hn. apply in_emit.
    destruct (decide (t = s)) as [->|Hne]; [now right | left].
    apply H3; [exact Hk |].
    assert (stage_index t <> stage_index s) by (intros E; apply Hne, stage_index_inj, E).
    lia.
Qed.

Lemma resumed_pre :
  triple (resumed c0 k 0) (preprocess_step env input_audio_path max_duration_sec)
         (fun _ w => resumed c0 k 1 w) (resumed c0 k 0).
Proof.
  intros w Hw. unfold preprocess_step, preprocess_audio.
  destruct (exists_ (get audio_trimmed (cache w))) eqn:Ex.
  - apply (resumed_hit audio_trimmed). exact Hw.
  - assert (Hk : k = O).
    { destruct k as [|k']; [reflexivity | exfalso].
      destruct Hw as (_ & H2 & _).
      assert (Hu : usable audio_trimmed c0 = true) by (apply Hprefix; simpl; lia).
      unfold usable in Hu. simpl json_stage in Hu. cbv iota in Hu.
      rewrite <- (H2 audio_trimmed) in Hu by (simpl; lia). congruence. }
    destruct Hw as (H1 & H2 & H3).
    assert (Hgoal : forall w',
               (forall t, In (Call t) (log w') -> In (Call t) (log w) \/ t = audio_trimmed) ->
               resumed c0 k 1 w' /\ resumed c0 k 0 w').
    { intros w' Hlog.
      assert (Hc : forall s, In (Call s) (log w') -> (k < stage_index s)%nat).
      { intros s Hs. destruct (Hlog _ Hs) as [Hs'|Hs']; [auto |].
        subst. simpl. lia. }
      split; (split; [exact Hc | split]);
        intros s Hs; destruct s; simpl in Hs; try lia;
        intros Hn; simpl in Hn; lia. }
    destruct (from_file env input_audio_path) as [audio|e].
    + refine (proj1 (Hgoal _ _)). intros t Ht.
      change (In (Call t) (log (emit (Call audio_trimmed) w))) in Ht.
      apply in_emit in Ht. destruct Ht as [Ht|Ht]; [auto | inversion Ht; auto].
    + refine (proj2 (Hgoal _ _)). intros t Ht.
      apply in_emit in Ht. destruct Ht as [Ht|Ht]; [| discriminate].
      apply in_emit in Ht. destruct Ht as [Ht|Ht]; [auto | inversion Ht; auto].
Qed.

Lemma resumed_step (s : Stage) (compute : result (payload s)) :
  json_stage s = true ->
  triple (resumed c0 k (stage_index s - 1)) (cached_step s compute)
         (fun _ w => resumed c0 k (stage_index s) w) (resumed c0 k 0).
Proof.
  intros Hjson w Hw.
  destruct (stored (get s (cache w))) eqn:Est.
  - apply stored_true in Est. destruct Est as [v Hv].
    rewrite (cached_step_hit s compute w v Hv). now apply resumed_hit.
  - rewrite (cached_step_miss s compute w Est).
    assert (Hks : (k < stage_index s)%nat).
    { apply Nat.lt_nge. intros Hle. destruct Hw as (_ & H2 & _).
      pose proof (Hprefix s Hle) as Hu. unfold usable in Hu. rewrite Hjson in Hu.
      rewrite <- (H2 s Hle) in Hu. congruence. }
    destruct Hw as (H1 & H2 & H3).
    assert (Hgoal : forall w',
               (forall x, In x (log w) -> In x (log w')) ->
               (forall t, In (Call t) (log w') -> In (Call t) (log w) \/ t = s) ->
               (forall t, t <> s -> get t (cache w') = get t (cache w)) ->
               resumed c0 k (stage_index s) w' /\ resumed c0 k 0 w').
    { intros w' Hmono Hcalls Hframe.
      assert (Hc : forall t, In (Call t) (log w') -> (k < stage_index t)%nat).
      { intros t Ht. destruct (Hcalls t Ht) as [Ht'| ->]; auto. }
      assert (Hf : forall t, (stage_index t <= k)%nat -> get t (cache w') = get t c0).
      { intros t Ht. rewrite Hframe; [auto |]. intros ->. lia. }
      split; (split; [exact Hc | split; [exact Hf |]]).
      - intros t Ht Hn. apply Hmono, H3; [exact Ht | lia].
      - intros t Ht Hn. destruct t; simpl in Hn; lia. }
    destruct compute as [v|e].
    + refine (proj1 (Hgoal _ _ _ _)).
      * intros x Hx. apply in_save. left. apply in_emit. left.
        apply after_miss_log. now left.
      * intros t Ht. apply in_save in Ht. destruct Ht as [Ht|Ht]; [| discriminate].
        apply in_emit in Ht. destruct Ht as [Ht|Ht]; [| inversion Ht; auto].
        apply after_miss_log in Ht. destruct Ht as [Ht|[Ht _]]; [auto | discriminate].
      * intros t Hne. simpl. rewrite get_put_other by exact Hne.
        now rewrite after_miss_cache.
    + refine (proj2 (Hgoal _ _ _ _)).
      * intros x Hx. apply in_emit. left. apply in_emit. left.
        apply after_miss_log. now left.
      * intros t Ht. apply in_emit in Ht. destruct Ht as [Ht|Ht]; [| discriminate].
        apply in_emit in Ht. destruct Ht as [Ht|Ht]; [| inversion Ht; auto].
        apply after_miss_log in Ht. destruct Ht as [Ht|[Ht _]]; [auto | discriminate].
      * intros t Hne. simpl. now rewrite after_miss_cache.
Qed.

Lemma resumed_finish (c : Collected) :
  triple (resumed c0 k 9) (finish env input_audio_path c)
         (fun _ w => resumed c0 k 9 w) (resumed c0 k 0).
Proof.
  intros w (H1 & H2 & H3).
  destruct (finish_spec env input_audio_path c w) as (final & _ & Hfin).
  simpl in Hfin. rewrite Hfin. clear Hfin.
  set (w1 := match discrepancy _ _ _ _ _ _ with Some warning => emit warning w | None => w end).
  assert (Hw1 : cache w1 = cache w /\
                (forall x, In x (log w) -> In x (log w1)) /\
                (forall t, In (Call t) (log w1) -> In (Call t) (log w))).
  { subst w1. unfold discrepancy.
    destruct (_ <? _)%nat; [| tauto].
    split; [reflexivity | split].
    - intros x Hx. apply in_emit. now left.
    - intros t Ht. apply in_emit in Ht. destruct Ht; [auto | discriminate]. }
  destruct Hw1 as (Hc & Hmono & Hcalls).
  unfold save_final_results. simpl.
  split; [| split].
  - intros t Ht. apply H1, Hcalls.
    destruct (map simplify final); simpl in Ht;
      repeat (apply in_app_iff in Ht; simpl in Ht;
              destruct Ht as [Ht|[Ht|[]]]; [| discriminate]); exact Ht.
  - intros t Ht. destruct (map simplify final); simpl; rewrite Hc; auto.
  - intros t Ht Hn.
    destruct (map simplify final); simpl; rewrite !in_app_iff; repeat left;
      apply Hmono, H3; auto.
Qed.

Lemma resumed_run (o : gmap string OutFile) :
  match run_full_pipeline env input_audio_path max_duration_sec (initial c0 o) with
  | (Val _, w') => resumed c0 k 9 w'
  | (Stop, w') => resumed c0 k 0 w'
  | (Exn _, _) => False
  end.
Proof.
  apply (run_full_pipeline_triple env input_audio_path max_duration_sec
           (resumed c0 k) (resumed c0 k 0) (fun _ w => resumed c0 k 9 w)).
  - exact resumed_pre.
  - exact resumed_step.
  - intros w Hw. apply resumed_weaken in Hw. destruct Hw as (H1 & H2 & H3).
    split; [| split; [exact H2 |]].
    + intros t Ht. apply in_emit in Ht. destruct Ht; [auto | discriminate].
    + intros t _ Hn. destruct t; simpl in Hn; lia.
  - intros w Hw. apply resumed_weaken in Hw. destruct Hw as (H1 & H2 & H3).
    split; [| split; [exact H2 |]].
    + intros t Ht. apply in_emit in Ht. destruct Ht; [auto | discriminate].
    + intros t _ Hn. destruct t; simpl in Hn; lia.
  - exact resumed_finish.
  - split; [| split].
    + intros s [].
    + reflexivity.
    + intros s _ Hn. destruct s; simpl in Hn; lia.
Qed.

End Resume.

(** ** A stage that raises *)

Section Abort.

Variables (env : Env) (input_audio_path : string) (max_duration_sec : Z).
Variable o0 : gmap string OutFile.

Lemma unfailed_aborted (n : nat) (w : World) : unfailed o0 n w -> aborted o0 w.
Proof.
  intros (Ho & _ & Hs & Hf). split; [exact Ho | split; [exact Hf |]].
  intros s e Hin. destruct (Hs s e Hin).
Qed.

Lemma unfailed_emit (n m : nat) (w : World) (x : Event) :
  unfailed o0 n w ->
  (forall t, x = Call t -> (stage_index t <= m)%nat) ->
  (forall t e, x <> PipelineStopped t e) ->
  (forall name, x <> FinalSave name) ->
  (n <= m)%nat ->
  unfailed o0 m (emit x w).
Proof.
  intros (Ho & Hc & Hs & Hf) Hx1 Hx2 Hx3 Hnm. split; [exact Ho | split; [| split]].
  - intros t Ht. apply in_emit in Ht. destruct Ht as [Ht|Ht].
    + specialize (Hc t Ht). lia.
    + symmetry in Ht. auto.
  - intros t e Ht. apply in_emit in Ht. destruct Ht as [Ht|Ht].
    + exact (Hs t e Ht).
    + symmetry in Ht. exact (Hx2 t e Ht).
  - intros name Ht. apply in_emit in Ht. destruct Ht as [Ht|Ht].
    + exact (Hf name Ht).
    + symmetry in Ht. exact (Hx3 name Ht).
Qed.

Lemma unfailed_write (n : nat) (w : World) (s : Stage) (v : file (payload s)) :
  unfailed o0 n w -> unfailed o0 n (write_stage s v w).
Proof. intros H. exact H. Qed.

Lemma unfailed_stopped (n : nat) (w : World) (s : Stage) (e : string) :
  unfailed o0 n w -> (n <= stage_index s)%nat ->
  aborted o0 (emit (PipelineStopped s e) w).
Proof.
  intros (Ho & Hc & Hs & Hf) Hn. split; [exact Ho | split].
  - intros name Ht. apply in_emit in Ht. destruct Ht as [Ht|Ht]; [| discriminate].
    exact (Hf name Ht).
  - intros s' e' Hin t Ht.
    apply in_emit in Hin. destruct Hin as [Hin|Hin]; [destruct (Hs s' e' Hin) |].
    inversion Hin; subst.
    apply in_emit in Ht. destruct Ht as [Ht|Ht]; [| discriminate].
    specialize (Hc t Ht). lia.
Qed.

Lemma unfailed_after_miss (n : nat) (s : Stage) (w : World) :
  unfailed o0 n w -> unfailed o0 n (after_miss s w).
Proof.
  intros H. unfold after_miss. destruct (get s (cache w)); try exact H.
  apply (unfailed_emit n n); [exact H | discriminate | discriminate | discriminate | lia].
Qed.

Lemma unfailed_pre :
  triple (unfailed o0 0) (preprocess_step env input_audio_path max_duration_sec)
         (fun _ w => unfailed o0 1 w) (aborted o0).
Proof.
  intros w Hw. unfold preprocess_step, preprocess_audio.
  destruct (exists_ (get audio_trimmed (cache w))).
  - apply (unfailed_emit 0 1); [exact Hw | discriminate | discriminate | discriminate | lia].
  - assert (Hcall : unfailed o0 1 (emit (Call audio_trimmed) w)).
    { apply (unfailed_emit 0 1); [exact Hw | | discriminate | discriminate | lia].
      intros t Ht. inversion Ht; subst. simpl. lia. }
    destruct (from_file env input_audio_path) as [audio|e].
    + apply unfailed_write. exact Hcall.
    + apply (unfailed_stopped 1); [exact Hcall | simpl; lia].
Qed.

Lemma unfailed_step (s : Stage) (compute : result (payload s)) :
  json_stage s = true ->
  triple (unfailed o0 (stage_index s - 1)) (cached_step s compute)
         (fun _ w => unfailed o0 (stage_index s) w) (aborted o0).
Proof.
  intros Hjson w Hw.
  destruct (stored (get s (cache w))) eqn:Est.
  - apply stored_true in Est. destruct Est as [v Hv].
    rewrite (cached_step_hit s compute w v Hv).
    apply (unfailed_emit (stage_index s - 1) (stage_index s));
      [exact Hw | discriminate | discriminate | discriminate | lia].
  - rewrite (cached_step_miss s compute w Est).
    assert (Hcall : unfailed o0 (stage_index s) (emit (Call s) (after_miss s w))).
    { apply (unfailed_emit (stage_index s - 1) (stage_index s));
        [apply unfailed_after_miss; exact Hw | | discriminate | discriminate | lia].
      intros t Ht. inversion Ht; subst. lia. }
    destruct compute as [v|e].
    + unfold save_intermediate_json.
      apply (unfailed_emit (stage_index s) (stage_index s));
        [apply unfailed_write; exact Hcall | discriminate | discriminate | discriminate | lia].
    + apply (unfailed_stopped (stage_index s)); [exact Hcall | lia].
Qed.

Lemma unfailed_finish (c : Collected) :
  triple (unfailed o0 9) (finish env input_audio_path c)
         (fun _ w => forall s e, ~ In (PipelineStopped s e) (log w)) (aborted o0).
Proof.
  intros w (_ & _ & Hs & _).
  destruct (finish_spec env input_audio_path c w) as (final & _ & Hfin).
  simpl in Hfin. rewrite Hfin. clear Hfin.
  set (w1 := match discrepancy _ _ _ _ _ _ with Some warning => emit warning w | None => w end).
  assert (Hw1 : forall s e, ~ In (PipelineStopped s e) (log w1)).
  { subst w1. unfold discrepancy. destruct (_ <? _)%nat; [| exact Hs].
    intros s e Hin. apply in_emit in Hin. destruct Hin as [Hin|Hin]; [| discriminate].
    exact (Hs s e Hin). }
  intros s e Hin. unfold save_final_results in Hin. simpl in Hin.
  destruct (map simplify final); simpl in Hin;
    repeat (apply in_app_iff in Hin; simpl in Hin;
            destruct Hin as [Hin|[Hin|[]]]; [| discriminate]);
    exact (Hw1 s e Hin).
Qed.

Lemma unfailed_run (c0 : Cache) :
  match run_full_pipeline env input_audio_path max_duration_sec (initial c0 o0) with
  | (Val _, w') => forall s e, ~ In (PipelineStopped s e) (log w')
  | (Stop, w') => aborted o0 w'
  | (Exn _, _) => False
  end.
Proof.
  apply (run_full_pipeline_triple env input_audio_path max_duration_sec
           (unfailed o0) (aborted o0)
           (fun _ w => forall s e, ~ In (PipelineStopped s e) (log w))).
  - exact unfailed_pre.
  - exact unfailed_step.
  - intros w Hw. apply (unfailed_stopped 1); [exact Hw | simpl; lia].
  - intros w (Ho & Hc & Hs & Hf). split; [exact Ho | split].
    + intros name Ht. apply in_emit in Ht. destruct Ht as [Ht|Ht]; [| discriminate].
      exact (Hf name Ht).
    + intros s e Hin. apply in_emit in Hin. destruct Hin as [Hin|Hin]; [| discriminate].
      destruct (Hs s e Hin).
  - exact unfailed_finish.
  - split; [reflexivity | split; [| split]].
    + intros t [].
    + intros t e [].
    + intros name [].
Qed.

End Abort.

(** When the classifier raises on a segment, that segment is labelled
    ["unknown"] and the loop goes on. *)
Lemma segment_emotion_classifier_raises (env : Env) (n : Z) (seg : MappedSegment) :
  (forall a b, exists e, classify_batch env a b = Raise e) ->
  segment_emotion env n seg = "unknown"%string.
Proof.
  intros Hraise. unfold segment_emotion.
  destruct (_ || _); [reflexivity |].
  destruct (_ <=? _)%Z; [reflexivity |].
  destruct (Hraise (slice_start n (Py.int (Float.mul (start seg) sr)))
                   (Z.min (Py.int (Float.mul (end_ seg) sr)) n)) as [e ->].
  reflexivity.
Qed.

(** ** A stage that raises *)

(** The walk of [run_full_pipeline_triple], when the step rule is needed
    only for the calls a run can make. *)
Section WalkComputed.

Variables (env : Env) (input_audio_path : string) (max_duration_sec : Z).
Variable P : nat -> World -> Prop.
Variable S : World -> Prop.
Variable Qf : Document -> World -> Prop.

Hypothesis H_pre :
  triple (P 0) (preprocess_step env input_audio_path max_duration_sec)
         (fun _ w => P 1 w) S.
Hypothesis H_step : forall (s : Stage) (compute : result (payload s)),
  json_stage s = true -> computed env s compute ->
  triple (P (stage_index s - 1)) (cached_step s compute) (fun _ w => P (stage_index s) w) S.
Hypothesis H_no_wav : forall w, P 1 w ->
  exists_ (get audio_trimmed (cache w)) = false ->
  S (emit (PipelineStopped audio_trimmed "Preprocessed WAV file not found") w).
Hypothesis H_no_segments : forall w, P 4 w -> S (emit NoValidSegments w).
Hypothesis H_finish : forall c, triple (P 9) (finish env input_audio_path c) Qf S.

Lemma run_full_pipeline_triple_computed :
  triple (P 0) (run_full_pipeline env input_audio_path max_duration_sec) Qf S.
Proof.
  unfold run_full_pipeline.
  eapply triple_bind; [| exact H_finish].
  unfold run_stages.
  eapply triple_bind; [exact H_pre | intros ?].
  eapply triple_bind; [apply triple_read_wav | intros wav].
  destruct (negb (exists_ wav)) eqn:Ewav.
  { apply (triple_bind _ _ _ (fun _ w => S w)).
    - apply triple_tell. intros w [Hw Hwav]. apply H_no_wav; [exact Hw |].
      subst wav. now apply negb_true_iff in Ewav.
    - intros ?. apply triple_stop. auto. }
  eapply triple_bind.
  { intros w [Hw _]. apply (H_step whisper_raw); [reflexivity | simpl; eauto | exact Hw]. }
  intros whisper_result.
  eapply triple_bind;
    [apply (H_step diarization_raw); [reflexivity | simpl; eauto] | intros diarization_list].
  eapply triple_bind;
    [apply (H_step mapped_segments); [reflexivity | simpl; eauto] | intros diarized_segments].
  destruct diarized_segments as [|seg0 segs].
  { apply (triple_bind _ _ _ (fun _ w => S w)).
    - apply triple_tell. intros w Hw. apply (H_no_segments w Hw).
    - intros ?. apply triple_stop. auto. }
  eapply triple_bind;
    [apply (H_step audio_features); [reflexivity | simpl; eauto] | intros af].
  eapply triple_bind;
    [apply (H_step text_embeddings); [reflexivity | simpl; eauto] | intros emb].
  eapply triple_bind;
    [apply (H_step text_emotions); [reflexivity | simpl; eauto] | intros temo].
  eapply triple_bind;
    [apply (H_step speech_emotions); [reflexivity | simpl; eauto] | intros semo].
  eapply triple_bind; [apply (H_step keywords); [reflexivity |] | intros kws].
  { exists (map text (seg0 :: segs)). split; [discriminate | reflexivity]. }
  apply triple_ret. auto.
Qed.

End WalkComputed.

Lemma stage_index_range (s : Stage) : (1 <= stage_index s <= 9)%nat.
Proof. destruct s; simpl; lia. Qed.

Lemma usable_put_other (s t : Stage) (v : file (payload t)) (c : Cache) :
  t <> s -> usable s (put t v c) = usable s c.
Proof.
  intros Hne. unfold usable.
  now rewrite (get_put_other s t v c (fun H => Hne (eq_sym H))).
Qed.

Section StopAt.

Variables (env : Env) (input_audio_path : string) (max_duration_sec : Z).
Variable o0 : gmap string OutFile.

Lemma before_calls (s : Stage) (n : nat) (w : World) (t : Stage) :
  before o0 s n w -> In (Call t) (log w) -> (stage_index t < stage_index s)%nat.
Proof. intros ((_ & Hc & _) & Hn & _) Hin. specialize (Hc t Hin). lia. Qed.

Lemma stop_emitted (s : Stage) (n : nat) (w : World) (t : Stage) (msg : string) :
  before o0 s n w -> (n <= stage_index t)%nat -> t <> s ->
  stopped_by o0 s (emit (PipelineStopped t msg) w).
Proof.
  intros Hb Hn Hne. pose proof Hb as (Hu & Hlt & _).
  split; [exact (unfailed_stopped o0 n w t msg Hu Hn) | split].
  - intros x Hx. apply in_emit in Hx. destruct Hx as [Hx|Hx]; [| discriminate].
    pose proof (before_calls s n w x Hb Hx). lia.
  - intros Hx. apply in_emit in Hx. destruct Hx as [Hx|Hx]; [| discriminate].
    pose proof (before_calls s n w s Hb Hx). lia.
Qed.

Lemma stop_pre (s : Stage) (e : string) :
  fails env input_audio_path s e ->
  triple (before o0 s 0) (preprocess_step env input_audio_path max_duration_sec)
         (fun _ w => before o0 s 1 w) (stopped_by o0 s).
Proof.
  intros H_fails w Hb. pose proof Hb as (Hu & Hn & Hus).
  pose proof (unfailed_pre env input_audio_path max_duration_sec o0 w Hu) as H.
  unfold preprocess_step, preprocess_audio in *.
  destruct (exists_ (get audio_trimmed (cache w))) eqn:Ex.
  - assert (Hne : s <> audio_trimmed).
    { intros ->. unfold usable in Hus. change (json_stage audio_trimmed) with false in Hus.
      cbv iota in Hus. congruence. }
    split; [exact H | split; [| exact Hus]].
    pose proof (stage_index_range s). destruct s; simpl in *; try lia. congruence.
  - destruct (from_file env input_audio_path) as [audio|e0] eqn:Ef.
    + assert (Hne : audio_trimmed <> s).
      { intros <-. simpl in H_fails. congruence. }
      split; [exact H | split].
      * pose proof (stage_index_range s). destruct s; simpl in *; try lia. congruence.
      * unfold write_stage, emit. cbn [cache].
        rewrite usable_put_other by exact Hne. exact Hus.
    + split; [exact H | split].
      * intros x Hx. apply in_emit in Hx. destruct Hx as [Hx|Hx]; [| discriminate].
        apply in_emit in Hx. destruct Hx as [Hx|Hx].
        -- pose proof (before_calls s 0 w x Hb Hx). lia.
        -- inversion Hx; subst. pose proof (stage_index_range s). simpl. lia.
      * intros Hx. apply in_emit in Hx. destruct Hx as [Hx|Hx]; [| discriminate].
        apply in_emit in Hx. destruct Hx as [Hx|Hx].
        -- pose proof (before_calls s 0 w s Hb Hx). lia.
        -- inversion Hx; subst. eexists. apply in_emit. right. reflexivity.
Qed.

Lemma stop_step (s : Stage) (e : string) (t : Stage) (compute : result (payload t)) :
  fails env input_audio_path s e ->
  json_stage t = true -> computed env t compute ->
  triple (before o0 s (stage_index t - 1)) (cached_step t compute)
         (fun _ w => before o0 s (stage_index t) w) (stopped_by o0 s).
Proof.
  intros H_fails Hj Hc w Hb. pose proof Hb as (Hu & Hn & Hus).
  pose proof (unfailed_step o0 t compute Hj w Hu) as H.
  assert (Hnext : t <> s -> (stage_index t < stage_index s)%nat).
  { intros Hne. assert (stage_index t <> stage_index s)
      by (intros Heq; apply Hne, stage_index_inj, Heq).
    pose proof (stage_index_range t). lia. }
  destruct (stored (get t (cache w))) eqn:Est.
  - destruct (stored_true _ Est) as [v Hv].
    rewrite (cached_step_hit t compute w v Hv) in *.
    assert (Hne : t <> s).
    { intros ->. unfold usable in Hus. rewrite Hj in Hus. congruence. }
    split; [exact H | split; [exact (Hnext Hne) | exact Hus]].
  - rewrite (cached_step_miss t compute w Est) in *.
    destruct (Stage_eq_dec t s) as [Heq|Hne].
    + subst t. assert (Hr : compute = Raise e).
      { destruct s; try discriminate Hj; exact (H_fails compute Hc). }
      subst compute. split; [exact H | split].
      * intros x Hx. apply in_emit in Hx. destruct Hx as [Hx|Hx]; [| discriminate].
        apply in_emit in Hx. destruct Hx as [Hx|Hx]; [| inversion Hx; subst; lia].
        apply after_miss_log in Hx. destruct Hx as [Hx|[Hx _]]; [| discriminate].
        pose proof (before_calls s _ w x Hb Hx). lia.
      * intros _. exists e. apply in_emit. right. reflexivity.
    + destruct compute as [v|e0].
      * split; [exact H | split; [exact (Hnext Hne) |]].
        unfold save_intermediate_json, write_stage, emit. cbn [cache].
        rewrite usable_put_other by exact Hne. now rewrite after_miss_cache.
      * split; [exact H | split].
        -- intros x Hx. apply in_emit in Hx. destruct Hx as [Hx|Hx]; [| discriminate].
           apply in_emit in Hx. destruct Hx as [Hx|Hx].
           ++ apply after_miss_log in Hx. destruct Hx as [Hx|[Hx _]]; [| discriminate].
              pose proof (before_calls s _ w x Hb Hx). lia.
           ++ inversion Hx; subst. pose proof (Hnext Hne). lia.
        -- intros Hx. apply in_emit in Hx. destruct Hx as [Hx|Hx]; [| discriminate].
           apply in_emit in Hx. destruct Hx as [Hx|Hx].
           ++ apply after_miss_log in Hx. destruct Hx as [Hx|[Hx _]]; [| discriminate].
              pose proof (before_calls s _ w s Hb Hx). lia.
           ++ inversion Hx; subst. contradiction.
Qed.

Lemma stop_run (s : Stage) (e : string) (c0 : Cache) :
  fails env input_audio_path s e ->
  usable s c0 = false ->
  let r := run_full_pipeline env input_audio_path max_duration_sec (initial c0 o0) in
  fst r = Stop /\ stopped_by o0 s (snd r).
Proof.
  intros H_fails Hus r.
  pose proof (run_full_pipeline_triple_computed env input_audio_path max_duration_sec
                (before o0 s) (stopped_by o0 s) (fun _ _ => False)
                (stop_pre s e H_fails)
                (fun t compute => stop_step s e t compute H_fails)) as Hwalk.
  assert (Hb : forall n w, before o0 s n w -> s <> audio_trimmed \/ (n = 0)%nat).
  { intros n w (_ & Hn & _). destruct (Stage_eq_dec s audio_trimmed) as [->|]; [| auto].
    simpl in Hn. right. lia. }
  specialize (Hwalk
    (fun w Hw _ => stop_emitted s 1 w audio_trimmed _ Hw (le_n 1)
                   (fun Heq => ltac:(destruct Hw as (_ & Hn & _); subst s; simpl in Hn; lia)))).
  assert (Hns : forall w, before o0 s 4 w -> stopped_by o0 s (emit NoValidSegments w)).
  { intros w Hw. pose proof Hw as ((Ho & Hcalls & Hs & Hf) & Hn & _).
    split; [split; [exact Ho | split] | split].
    - intros name Ht. apply in_emit in Ht. destruct Ht as [Ht|Ht]; [| discriminate].
      exact (Hf name Ht).
    - intros t e' Hin. apply in_emit in Hin. destruct Hin as [Hin|Hin]; [| discriminate].
      destruct (Hs t e' Hin).
    - intros x Hx. apply in_emit in Hx. destruct Hx as [Hx|Hx]; [| discriminate].
      pose proof (before_calls s 4 w x Hw Hx). lia.
    - intros Hx. apply in_emit in Hx. destruct Hx as [Hx|Hx]; [| discriminate].
      pose proof (before_calls s 4 w s Hw Hx). lia. }
  assert (Hfin : forall c, triple (before o0 s 9) (finish env input_audio_path c)
                                  (fun _ _ => False) (stopped_by o0 s)).
  { intros c w (_ & Hn & _). pose proof (stage_index_range s). lia. }
  specialize (Hwalk Hns Hfin (initial c0 o0)). fold r in Hwalk.
  assert (H0 : before o0 s 0 (initial c0 o0)).
  { split; [| split; [pose proof (stage_index_range s); lia | exact Hus]].
    split; [reflexivity | split; [| split]].
    - intros t [].
    - intros t e' [].
    - intros name []. }
  specialize (Hwalk H0).
  destruct r as [[doc| |e'] w']; simpl in *; [destruct Hwalk | auto | destruct Hwalk].
Qed.

End StopAt.




(** ** The final files *)

Lemma append_cancel_l (b x y : string) : (b +:+ x = b +:+ y)%string -> x = y.
Proof.
  induction b as [|c b IH]; [auto |].
  rewrite !append_cons. intros H. inversion H. auto.
Qed.

Lemma no_embeddings_name_differs (base x y : string) :
  x <> ("_no_embeddings" +:+ y)%string ->
  (base +:+ x)%string <> ((base +:+ "_no_embeddings") +:+ y)%string.
Proof.
  intros Hne H. rewrite append_assoc in H. apply append_cancel_l in H. auto.
Qed.

Lemma simplify_drops (r : FinalSegment) :
  fs_audio_features (simplify r) = None /\ fs_text_embedding (simplify r) = None.
Proof. split; reflexivity. Qed.

(** What [save_final_results] leaves in the output directory. *)
Lemma save_final_results_outputs (name_base : string) (d : Document)
    (rows : list FinalSegment) (w : World) :
  let w' := snd (save_final_results name_base d rows w) in
  outputs w' !! (name_base +:+ "_final_output.json")%string = Some (JsonFile d) /\
  (forall name,
     name <> (name_base +:+ "_final_output.json")%string ->
     name <> (name_base +:+ "_summary.csv")%string ->
     name <> (name_base +:+ "_transcript.txt")%string ->
     outputs w' !! name = outputs w !! name) /\
  (forall name, In (FinalSave name) (log w') ->
     In (FinalSave name) (log w) \/
     name = (name_base +:+ "_final_output.json")%string \/
     name = (name_base +:+ "_summary.csv")%string \/
     name = (name_base +:+ "_transcript.txt")%string).
Proof.
  assert (Hjc : (name_base +:+ "_final_output.json")%string
                <> (name_base +:+ "_summary.csv")%string).
  { intros H. apply append_cancel_l in H. discriminate. }
  assert (Hjt : (name_base +:+ "_final_output.json")%string
                <> (name_base +:+ "_transcript.txt")%string).
  { intros H. apply append_cancel_l in H. discriminate. }
  unfold save_final_results. destruct rows as [|r rows]; simpl.
  - split; [| split].
    + rewrite lookup_insert_ne by auto. apply lookup_insert_eq.
    + intros name H1 H2 H3. rewrite !lookup_insert_ne by auto. reflexivity.
    + intros name Hin. rewrite !in_app_iff in Hin. simpl in Hin.
      destruct Hin as [[Hin|[Hin|[]]]|[Hin|[]]]; try (inversion Hin; subst); auto.
  - split; [| split].
    + rewrite !lookup_insert_ne by auto. apply lookup_insert_eq.
    + intros name H1 H2 H3. rewrite !lookup_insert_ne by auto. reflexivity.
    + intros name Hin. rewrite !in_app_iff in Hin. simpl in Hin.
      destruct Hin as [[[Hin|[Hin|[]]]|[Hin|[]]]|[Hin|[]]];
        try (inversion Hin; subst); auto.
Qed.



(** ** Records that do not decode *)

Lemma scrub_get (s : Stage) (c : Cache) :
  get s (scrub c) = if json_stage s then as_absent (get s c) else get s c.
Proof. destruct s; reflexivity. Qed.

Lemma scrub_put (s : Stage) (v : file (payload s)) (c : Cache) :
  scrub (put s v c) = put s (if json_stage s then as_absent v else v) (scrub c).
Proof. destruct s; reflexivity. Qed.

Lemma same_view_refl (w : World) : same_view w w.
Proof. split; reflexivity. Qed.

Lemma same_view_emit_l (e : Event) (w1 w2 : World) :
  same_view w1 w2 -> same_view (emit e w1) w2.
Proof. intros H. exact H. Qed.

Lemma same_view_emit_r (e : Event) (w1 w2 : World) :
  same_view w1 w2 -> same_view w1 (emit e w2).
Proof. intros H. exact H. Qed.

Lemma same_view_emit (e1 e2 : Event) (w1 w2 : World) :
  same_view w1 w2 -> same_view (emit e1 w1) (emit e2 w2).
Proof. intros H. exact H. Qed.

Lemma same_view_after_miss (s : Stage) (w1 w2 : World) :
  same_view w1 w2 -> same_view (after_miss s w1) (after_miss s w2).
Proof.
  intros H. unfold same_view. now rewrite !after_miss_cache, !after_miss_outputs.
Qed.

Lemma same_view_write_stage (s : Stage) (v : file (payload s)) (w1 w2 : World) :
  same_view w1 w2 -> same_view (write_stage s v w1) (write_stage s v w2).
Proof.
  intros [Hc Ho]. split; [| exact Ho]. simpl. rewrite !scrub_put. now rewrite Hc.
Qed.

Lemma same_view_write_output (name : string) (f : OutFile) (w1 w2 : World) :
  same_view w1 w2 -> same_view (write_output name f w1) (write_output name f w2).
Proof. intros [Hc Ho]. split; [exact Hc |]. simpl. now rewrite Ho. Qed.

Lemma same_view_stored (s : Stage) (w1 w2 : World) :
  json_stage s = true -> same_view w1 w2 ->
  as_absent (get s (cache w1)) = as_absent (get s (cache w2)).
Proof.
  intros Hjson [Hc _].
  pose proof (scrub_get s (cache w1)) as H1. pose proof (scrub_get s (cache w2)) as H2.
  rewrite Hjson in H1, H2. rewrite <- H1, <- H2, Hc. reflexivity.
Qed.

Lemma same_view_wav (w1 w2 : World) :
  same_view w1 w2 -> get audio_trimmed (cache w1) = get audio_trimmed (cache w2).
Proof.
  intros [Hc _].
  change (get audio_trimmed (scrub (cache w1)) = get audio_trimmed (scrub (cache w2))).
  now rewrite Hc.
Qed.

Lemma respects_bind {A B : Type} (m : Run A) (k : A -> Run B) :
  respects m -> (forall a, respects (k a)) -> respects (bind m k).
Proof.
  intros Hm Hk w1 w2 Hw. unfold bind. destruct (Hm w1 w2 Hw) as [Hfst Hsnd].
  destruct (m w1) as [o1 w1'], (m w2) as [o2 w2']. simpl in Hfst, Hsnd. subst o2.
  destruct o1 as [a| |e]; [apply (Hk a w1' w2' Hsnd) | |]; simpl; auto.
Qed.

Lemma respects_ret {A : Type} (a : A) : respects (ret a).
Proof. intros w1 w2 Hw. simpl. auto. Qed.

Lemma respects_stop {A : Type} : respects (@stop A).
Proof. intros w1 w2 Hw. simpl. auto. Qed.

Lemma respects_throw {A : Type} (e : string) : respects (@throw A e).
Proof. intros w1 w2 Hw. simpl. auto. Qed.

Lemma respects_tell (e : Event) : respects (tell e).
Proof. intros w1 w2 Hw. simpl. auto. Qed.

Lemma respects_read_wav : respects read_wav.
Proof. intros w1 w2 Hw. simpl. split; [f_equal; now apply same_view_wav | exact Hw]. Qed.

Lemma respects_preprocess (env : Env) (input_audio_path : string) (max_duration_sec : Z) :
  respects (preprocess_step env input_audio_path max_duration_sec).
Proof.
  intros w1 w2 Hw. unfold preprocess_step, preprocess_audio.
  pose proof (same_view_wav w1 w2 Hw) as Hwav.
  destruct (exists_ (get audio_trimmed (cache w1))) eqn:E1;
    destruct (exists_ (get audio_trimmed (cache w2))) eqn:E2;
    try (rewrite Hwav in E1; congruence).
  - simpl. auto.
  - destruct (from_file env input_audio_path); simpl; split; auto.
    apply (same_view_write_stage audio_trimmed). exact Hw.
Qed.

Lemma respects_cached_step (s : Stage) (compute : result (payload s)) :
  json_stage s = true -> respects (cached_step s compute).
Proof.
  intros Hjson w1 w2 Hw.
  pose proof (same_view_stored s w1 w2 Hjson Hw) as Heq.
  destruct (stored (get s (cache w1))) eqn:E1.
  - apply stored_true in E1. destruct E1 as [v Hv1].
    assert (Hv2 : get s (cache w2) = Stored v).
    { rewrite Hv1 in Heq. destruct (get s (cache w2)); simpl in Heq; congruence. }
    rewrite (cached_step_hit s compute w1 v Hv1), (cached_step_hit s compute w2 v Hv2).
    simpl. auto.
  - assert (E2 : stored (get s (cache w2)) = false).
    { destruct (get s (cache w1)) eqn:G1, (get s (cache w2)) eqn:G2;
        simpl in *; congruence. }
    rewrite (cached_step_miss s compute w1 E1), (cached_step_miss s compute w2 E2).
    destruct compute as [v|e]; simpl; (split; [reflexivity |]).
    + apply (same_view_write_stage s (Stored v)
               (emit (Call s) (after_miss s w1)) (emit (Call s) (after_miss s w2))).
      apply same_view_after_miss. exact Hw.
    + apply (same_view_after_miss s w1 w2 Hw).
Qed.

Lemma respects_save_final_results (name_base : string) (d : Document)
    (rows : list FinalSegment) :
  respects (save_final_results name_base d rows).
Proof.
  intros w1 w2 Hw. unfold save_final_results. simpl. split; [reflexivity |].
  destruct rows; repeat (apply same_view_emit || apply same_view_write_output); exact Hw.
Qed.

Lemma respects_finish (env : Env) (input_audio_path : string) (c : Collected) :
  respects (finish env input_audio_path c).
Proof.
  unfold finish. apply respects_bind.
  - destruct (discrepancy _ _ _ _ _ _); [apply respects_tell | apply respects_ret].
  - intros _. destruct (aggregate _ _ _ _ _ _); [| apply respects_throw].
    apply respects_bind; [apply respects_save_final_results | intros _; apply respects_ret].
Qed.

Lemma respects_run_full_pipeline (env : Env) (input_audio_path : string)
    (max_duration_sec : Z) :
  respects (run_full_pipeline env input_audio_path max_duration_sec).
Proof.
  unfold run_full_pipeline, run_stages.
  apply respects_bind; [| intros c; apply respects_finish].
  apply respects_bind; [apply respects_preprocess | intros ?].
  apply respects_bind; [apply respects_read_wav | intros wav].
  destruct (negb (exists_ wav));
    [apply respects_bind; [apply respects_tell | intros ?; apply respects_stop] |].
  apply respects_bind; [now apply respects_cached_step | intros whisper_result].
  apply respects_bind; [now apply respects_cached_step | intros diarization_list].
  apply respects_bind; [now apply respects_cached_step | intros diarized_segments].
  destruct diarized_segments as [|seg0 segs].
  { apply respects_bind; [apply respects_tell | intros ?; apply respects_stop]. }
  apply respects_bind; [now apply respects_cached_step | intros af].
  apply respects_bind; [now apply respects_cached_step | intros emb].
  apply respects_bind; [now apply respects_cached_step | intros temo].
  apply respects_bind; [now apply respects_cached_step | intros semo].
  apply respects_bind; [now apply respects_cached_step | intros kws].
  apply respects_ret.
Qed.

(** C3, as amended.  For every stage that is cached as a JSON record (steps
    2 to 8): reading a record that exists but does not decode returns [None]
    and raises nothing; the stage then calls its compute function and, when
    that returns, stores the fresh value over the damaged record; and the
    whole run returns what it returns when the record is absent, leaving
    the same final files and the same readable stage files. *)
Theorem C3_corrupt_record_is_read_as_absent (env : Env) (input_audio_path : string)
    (max_duration_sec : Z) (c0 : Cache) (o : gmap string OutFile) (s : Stage) :
  json_stage s = true ->
  get s c0 = Corrupt ->
  let w := initial c0 o in
  let w_absent := initial (put s Absent c0) o in
  fst (load_intermediate_json s w) = None /\
  fst (load_intermediate_json s w_absent) = None /\
  (forall v : payload s,
     fst (cached_step s (Ok v) w) = Val v /\
     get s (cache (snd (cached_step s (Ok v) w))) = Stored v /\
     In (Call s) (log (snd (cached_step s (Ok v) w))) /\
     cache (snd (cached_step s (Ok v) w)) = cache (snd (cached_step s (Ok v) w_absent))) /\
  fst (run_full_pipeline env input_audio_path max_duration_sec w)
  = fst (run_full_pipeline env input_audio_path max_duration_sec w_absent) /\
  same_view (snd (run_full_pipeline env input_audio_path max_duration_sec w))
            (snd (run_full_pipeline env input_audio_path max_duration_sec w_absent)).
Proof.
  intros Hjson Hcorrupt w w_absent.
  assert (Habs : get s (cache w_absent) = Absent) by (simpl; apply get_put_same).
  split; [unfold load_intermediate_json; simpl; now rewrite Hcorrupt |].
  split; [unfold load_intermediate_json; now rewrite Habs |].
  split.
  - intros v.
    rewrite (cached_step_miss s (Ok v) w) by (simpl; now rewrite Hcorrupt).
    rewrite (cached_step_miss s (Ok v) w_absent) by (now rewrite Habs).
    simpl. rewrite !after_miss_cache. simpl.
    split; [reflexivity | split; [apply get_put_same | split]].
    + rewrite in_app_iff. left. rewrite in_app_iff. right. now left.
    + clear. destruct s; reflexivity.
  - apply respects_run_full_pipeline. split; [| reflexivity]. simpl.
    rewrite scrub_put, Hjson. simpl.
    clear - Hjson Hcorrupt. destruct s; simpl in *; try discriminate;
      destruct c0; simpl in *; subst; reflexivity.
Qed.

Lemma C3_corrupt_record_is_read_as_absent_witness :
  exists doc,
    fst (run_full_pipeline Demo.env "talk.mp3" 300 (initial Demo.keywords_corrupt ∅))
    = Val doc /\
    fst (run_full_pipeline Demo.env "talk.mp3" 300
           (initial (put keywords Absent Demo.keywords_corrupt) ∅)) = Val doc.
Proof.
  destruct (C3_corrupt_record_is_read_as_absent Demo.env "talk.mp3" 300
              Demo.keywords_corrupt ∅ keywords eq_refl eq_refl)
    as (_ & _ & _ & Hsame & _).
  destruct (fst (run_full_pipeline Demo.env "talk.mp3" 300
                   (initial Demo.keywords_corrupt ∅))) as [doc| |e] eqn:Hrun;
    [| vm_compute in Hrun; discriminate ..].
  exists doc. split; [reflexivity | symmetry; exact Hsame].
Defined.

(** C3, the claim as stated fails for step 1.  The trimmed WAV is only
    tested for existence: one that does not decode is kept and used,
    preprocessing is not called again, and the run returns [{}] at step 2,
    where without the file it returns a document.  Nor is a record that
    decodes ever checked: a record of step 4 that holds no segment is used
    as it is, and the run returns [{}] without calling step 4, where
    without the record it returns a document. *)
Lemma C3_counterexample :
  let r := run_full_pipeline env_reading_wav "talk.mp3" 300 (initial damaged_wav ∅) in
  let r_absent :=
    run_full_pipeline env_reading_wav "talk.mp3" 300
      (initial (put audio_trimmed Absent damaged_wav) ∅) in
  let r4 := run_full_pipeline Demo.env "talk.mp3" 300 (initial no_segments ∅) in
  let r4_absent :=
    run_full_pipeline Demo.env "talk.mp3" 300
      (initial (put mapped_segments Absent no_segments) ∅) in
  (fst r = Stop /\
   log (snd r) = [CacheHit audio_trimmed; Call whisper_raw;
                  PipelineStopped whisper_raw "Failed to load audio"] /\
   get audio_trimmed (cache (snd r)) = Corrupt /\
   exists doc, fst r_absent = Val doc) /\
  (fst r4 = Stop /\
   In NoValidSegments (log (snd r4)) /\
   get mapped_segments (cache (snd r4)) = Stored [] /\
   exists doc, fst r4_absent = Val doc).
Proof.
  vm_compute. split; (repeat split; try (eexists; reflexivity)); auto 20.
Qed.

Lemma C8_aggregation_truncates_witness :
  exists doc w',
    finish Demo.env "talk.mp3" short_keywords (initial Demo.empty_cache ∅) = (Val doc, w') /\
    length (segments doc) = 3%nat /\
    In (Discrepancy 3 5) (log w').
Proof.
  destruct (C8_aggregation_truncates Demo.env "talk.mp3" short_keywords
              (initial Demo.empty_cache ∅))
    as (doc & w' & Hfin & _ & Hlen & Hlog & _).
  - simpl. lia.
  - exists doc, w'. split; [exact Hfin | split; [exact Hlen | exact Hlog]].
Defined.

(** ** The audio normalizers *)

(** C9, as amended.  For every input that pydub decodes and every maximum
    duration that is not negative, each of the three normalizers writes a
    WAV file without raising: an input longer than the maximum is cut to the
    maximum, a shorter one is kept whole.  Only [trim_to_wav] of
    [python_diarization.py] makes the audio mono at 16 kHz;
    [preprocess_audio] of [pipeline2.py], which runs when no trimmed file
    exists yet, and [convert_and_trim] of [pipeline.py] keep the channel
    count and the frame rate of the input. *)
Theorem C9_normalizer_truncates (env : Env) (input_audio_path : string)
    (max_duration_sec : Z) (audio : AudioSegment) (c0 : Cache)
    (o : gmap string OutFile) :
  (0 <= max_duration_sec)%Z ->
  from_file env input_audio_path = Ok audio ->
  get audio_trimmed c0 = Absent ->
  let cut := Z.min (max_duration_sec * 1000) (duration_ms audio) in
  ((max_duration_sec * 1000 < duration_ms audio)%Z -> cut = (max_duration_sec * 1000)%Z) /\
  trim_to_wav (from_file env input_audio_path) max_duration_sec
  = Ok (Stored {| channels := 1; frame_rate := 16000; duration_ms := cut |}) /\
  convert_and_trim (from_file env input_audio_path) max_duration_sec
  = Ok (Stored {| channels := channels audio; frame_rate := frame_rate audio;
                  duration_ms := cut |}) /\
  (exists w',
     preprocess_audio env input_audio_path max_duration_sec (initial c0 o) = (Some tt, w') /\
     get audio_trimmed (cache w')
     = Stored {| channels := channels audio; frame_rate := frame_rate audio;
                 duration_ms := cut |}).
Proof.
  intros Hmax Hfile Habsent cut.
  split; [intros Hlong; subst cut; lia |].
  unfold trim_to_wav, convert_and_trim, preprocess_audio. rewrite Hfile.
  split; [reflexivity | split; [reflexivity |]].
  simpl in Habsent. simpl. rewrite Habsent. simpl.
  eexists. split; reflexivity.
Qed.

Lemma C9_normalizer_truncates_witness :
  trim_to_wav (from_file Demo.env "talk.mp3") 300
  = Ok (Stored {| channels := 1; frame_rate := 16000; duration_ms := 300000 |}) /\
  convert_and_trim (from_file Demo.env "talk.mp3") 300
  = Ok (Stored {| channels := 2; frame_rate := 44100; duration_ms := 300000 |}).
Proof.
  destruct (C9_normalizer_truncates Demo.env "talk.mp3" 300 Demo.stereo
              Demo.empty_cache ∅) as (_ & H1 & H2 & _).
  - lia.
  - reflexivity.
  - reflexivity.
  - split; [exact H1 | exact H2].
Defined.

(** C9, the claim as stated fails for [pipeline2.py] and [pipeline.py]: a
    stereo recording at 44.1 kHz is trimmed and written as it is, stereo at
    44.1 kHz. *)
Lemma C9_counterexample :
  get audio_trimmed
    (cache (snd (preprocess_audio Demo.env "talk.mp3" 300 (initial Demo.empty_cache ∅))))
  = Stored {| channels := 2; frame_rate := 44100; duration_ms := 300000 |} /\
  convert_and_trim (from_file Demo.env "talk.mp3") 300
  = Ok (Stored {| channels := 2; frame_rate := 44100; duration_ms := 300000 |}).
Proof. split; reflexivity. Qed.

(** ** The collaborators of cached stages are not consulted *)

Lemma agree_bind {A B : Type} (P : World -> Prop) (m1 m2 : Run A) (k1 k2 : A -> Run B) :
  agree P m1 m2 -> keeps P m1 -> (forall a, agree P (k1 a) (k2 a)) ->
  agree P (bind m1 k1) (bind m2 k2).
Proof.
  intros Hm Hkeep Hk w Hw. unfold bind. rewrite <- (Hm w Hw).
  specialize (Hkeep w Hw). destruct (m1 w) as [[a| |e] w']; simpl in Hkeep; auto.
  apply Hk. exact Hkeep.
Qed.

Lemma agree_refl {A : Type} (P : World -> Prop) (m : Run A) : agree P m m.
Proof. intros w _. reflexivity. Qed.

Lemma usable_put_stored (s t : Stage) (v : payload t) (c : Cache) :
  usable s c = true -> usable s (put t (Stored v) c) = true.
Proof.
  intros H. unfold usable in *.
  destruct (decide (s = t)) as [->|Hne].
  - rewrite get_put_same. destruct (json_stage t); reflexivity.
  - rewrite get_put_other by exact Hne. exact H.
Qed.

Lemma keeps_cached_step (k : nat) (s : Stage) (compute : result (payload s)) :
  keeps (prefix_usable k) (cached_step s compute).
Proof.
  intros w Hw. unfold cached_step, load_intermediate_json.
  destruct (get s (cache w)); simpl; try exact Hw;
    destruct compute; simpl; try exact Hw;
    intros t Ht; simpl; apply usable_put_stored; apply Hw; exact Ht.
Qed.

Lemma keeps_preprocess (k : nat) (env : Env) (input_audio_path : string)
    (max_duration_sec : Z) :
  keeps (prefix_usable k) (preprocess_step env input_audio_path max_duration_sec).
Proof.
  intros w Hw. unfold preprocess_step, preprocess_audio.
  destruct (exists_ (get audio_trimmed (cache w))); simpl; [exact Hw |].
  destruct (from_file env input_audio_path); simpl; [| exact Hw].
  intros t Ht. simpl. apply (usable_put_stored t audio_trimmed). apply Hw. exact Ht.
Qed.

Lemma agree_cached_step (k : nat) (s : Stage) (compute1 compute2 : result (payload s)) :
  json_stage s = true ->
  ((k < stage_index s)%nat -> compute1 = compute2) ->
  agree (prefix_usable k) (cached_step s compute1) (cached_step s compute2).
Proof.
  intros Hjson Heq w Hw.
  destruct (le_lt_dec (stage_index s) k) as [Hle|Hlt].
  - specialize (Hw s Hle). unfold usable in Hw. rewrite Hjson in Hw.
    apply stored_true in Hw. destruct Hw as [v Hv].
    now rewrite !(cached_step_hit s _ w v Hv).
  - now rewrite (Heq Hlt).
Qed.

Lemma agree_preprocess (k : nat) (env1 env2 : Env) (input_audio_path : string)
    (max_duration_sec : Z) :
  ((k < 1)%nat -> same_compute audio_trimmed env1 env2) ->
  agree (prefix_usable k)
        (preprocess_step env1 input_audio_path max_duration_sec)
        (preprocess_step env2 input_audio_path max_duration_sec).
Proof.
  intros Heq w Hw. unfold preprocess_step, preprocess_audio.
  destruct (exists_ (get audio_trimmed (cache w))) eqn:Ex; [reflexivity |].
  rewrite Heq; [reflexivity |].
  destruct k as [|k']; [lia | exfalso].
  assert (Hu : usable audio_trimmed (cache w) = true) by (apply Hw; simpl; lia).
  unfold usable in Hu. simpl json_stage in Hu. cbv iota in Hu. congruence.
Qed.

Lemma extract_keywords_ext (env1 env2 : Env) (texts : list string) :
  (forall t, yake_keywords env1 t = yake_keywords env2 t) ->
  extract_keywords env1 texts = extract_keywords env2 texts.
Proof.
  intros H. induction texts as [|t texts IH]; simpl; [reflexivity |].
  now rewrite H, IH.
Qed.

Lemma run_speech_emotion_recognition_ext (env1 env2 : Env) (wav : file AudioSegment)
    (segs : list MappedSegment) :
  same_compute speech_emotions env1 env2 ->
  run_speech_emotion_recognition env1 wav segs = run_speech_emotion_recognition env2 wav segs.
Proof.
  intros (Hm & Hl & Hc). unfold run_speech_emotion_recognition.
  rewrite Hm, Hl. destruct (get_ser_models env2); [| reflexivity].
  destruct (negb (exists_ wav)); [reflexivity |].
  destruct (torchaudio_load env2 wav) as [n|]; [| reflexivity].
  f_equal. apply map_ext. intros seg. unfold segment_emotion. now rewrite Hc.
Qed.

Lemma finish_ext (env1 env2 : Env) (input_audio_path : string) (c : Collected) :
  same_helpers env1 env2 ->
  finish env1 input_audio_path c = finish env2 input_audio_path c.
Proof.
  intros (Hb & Hs & _). unfold finish. now rewrite !Hb, Hs.
Qed.

Lemma run_ignores_cached_collaborators (env1 env2 : Env) (input_audio_path : string)
    (max_duration_sec : Z) (k : nat) :
  same_helpers env1 env2 ->
  (forall s, (k < stage_index s)%nat -> same_compute s env1 env2) ->
  agree (prefix_usable k)
        (run_full_pipeline env1 input_audio_path max_duration_sec)
        (run_full_pipeline env2 input_audio_path max_duration_sec).
Proof.
  intros Hhelp Hsame. unfold run_full_pipeline.
  assert (Hstages : agree (prefix_usable k)
                      (run_stages env1 input_audio_path max_duration_sec)
                      (run_stages env2 input_audio_path max_duration_sec)).
  { unfold run_stages.
    apply agree_bind;
      [apply agree_preprocess; intros Hk; apply Hsame; simpl; lia
      | apply keeps_preprocess | intros ?].
    apply agree_bind; [apply agree_refl | intros w Hw; exact Hw | intros wav].
    destruct (negb (exists_ wav)); [apply agree_refl |].
    apply agree_bind; [| apply keeps_cached_step | intros whisper_result].
    { apply agree_cached_step; [reflexivity |]. intros Hk.
      apply (Hsame whisper_raw Hk). }
    apply agree_bind; [| apply keeps_cached_step | intros diarization_list].
    { apply agree_cached_step; [reflexivity |]. intros Hk.
      unfold perform_speaker_diarization. now rewrite (Hsame diarization_raw Hk). }
    destruct Hhelp as (_ & _ & Hann). rewrite Hann.
    apply agree_bind; [apply agree_refl | apply keeps_cached_step | intros diarized_segments].
    destruct diarized_segments as [|seg0 segs]; [apply agree_refl |].
    apply agree_bind; [| apply keeps_cached_step | intros af].
    { apply agree_cached_step; [reflexivity |]. intros Hk.
      apply (Hsame audio_features Hk). }
    apply agree_bind; [| apply keeps_cached_step | intros emb].
    { apply agree_cached_step; [reflexivity |]. intros Hk.
      apply (Hsame text_embeddings Hk). }
    apply agree_bind; [| apply keeps_cached_step | intros temo].
    { apply agree_cached_step; [reflexivity |]. intros Hk.
      apply (Hsame text_emotions Hk). }
    apply agree_bind; [| apply keeps_cached_step | intros semo].
    { apply agree_cached_step; [reflexivity |]. intros Hk.
      apply run_speech_emotion_recognition_ext. apply (Hsame speech_emotions Hk). }
    apply agree_bind; [| apply keeps_cached_step | intros kws].
    { apply agree_cached_step; [reflexivity |]. intros Hk.
      apply extract_keywords_ext. apply (Hsame keywords Hk). }
    apply agree_refl. }
  intros w Hw. unfold bind. rewrite (Hstages w Hw).
  destruct (run_stages env2 input_audio_path max_duration_sec w) as [[c| |e] w'];
    [apply (f_equal (fun m => m w')), finish_ext; exact Hhelp | reflexivity ..].
Qed.

(** What a run that returns has left in the cache. *)

Lemma bind_val_inv {A B : Type} (m : Run A) (k : A -> Run B) (w w'' : World) (b : B) :
  bind m k w = (Val b, w'') ->
  exists a w', m w = (Val a, w') /\ k a w' = (Val b, w'').
Proof.
  unfold bind. destruct (m w) as [[a| |e] w']; intros H; try discriminate. eauto.
Qed.

Lemma cached_step_val (s : Stage) (compute : result (payload s)) (w w' : World)
    (v : payload s) :
  cached_step s compute w = (Val v, w') ->
  get s (cache w') = Stored v /\
  (forall t, t <> s -> get t (cache w') = get t (cache w)) /\
  outputs w' = outputs w.
Proof.
  destruct (stored (get s (cache w))) eqn:Est.
  - apply stored_true in Est. destruct Est as [v0 Hv].
    rewrite (cached_step_hit s compute w v0 Hv). intros H. inversion H; subst.
    simpl. auto.
  - rewrite (cached_step_miss s compute w Est).
    destruct compute as [v0|e]; intros H; inversion H; subst. simpl.
    split; [apply get_put_same | split].
    + intros t Hne. rewrite get_put_other by exact Hne. now rewrite after_miss_cache.
    + apply after_miss_outputs.
Qed.

Lemma preprocess_step_val (env : Env) (input_audio_path : string) (max_duration_sec : Z)
    (w w' : World) (u : unit) :
  preprocess_step env input_audio_path max_duration_sec w = (Val u, w') ->
  exists_ (get audio_trimmed (cache w')) = true /\
  (forall t, t <> audio_trimmed -> get t (cache w') = get t (cache w)) /\
  outputs w' = outputs w.
Proof.
  unfold preprocess_step, preprocess_audio.
  destruct (exists_ (get audio_trimmed (cache w))) eqn:Ex.
  - intros H. inversion H; subst. simpl. auto.
  - destruct (from_file env input_audio_path); intros H; inversion H; subst.
    simpl. split; [reflexivity | split; [| reflexivity]].
    intros t Hne. destruct t; try reflexivity. congruence.
Qed.

(** A run that gets through its eight stages leaves every value it
    collected in the file of its stage. *)
Lemma run_stages_holds (env : Env) (input_audio_path : string) (max_duration_sec : Z)
    (w w' : World) (c : Collected) :
  run_stages env input_audio_path max_duration_sec w = (Val c, w') ->
  holds c (cache w') /\ outputs w' = outputs w.
Proof.
  unfold run_stages. intros H.
  apply bind_val_inv in H. destruct H as (u & w1 & H1 & H).
  apply preprocess_step_val in H1. destruct H1 as (Hwav & F1 & O1).
  apply bind_val_inv in H. destruct H as (wav & w1' & Hr & H).
  unfold read_wav in Hr. inversion Hr; subst w1' wav. clear Hr.
  match type of H with context [if ?b then _ else _] => destruct b end.
  { apply bind_val_inv in H. destruct H as (? & ? & _ & H). discriminate. }
  apply bind_val_inv in H. destruct H as (v2 & w2 & H2 & H).
  apply cached_step_val in H2. destruct H2 as (S2 & F2 & O2).
  apply bind_val_inv in H. destruct H as (v3 & w3 & H3 & H).
  apply cached_step_val in H3. destruct H3 as (S3 & F3 & O3).
  apply bind_val_inv in H. destruct H as (v4 & w4 & H4 & H).
  apply cached_step_val in H4. destruct H4 as (S4 & F4 & O4).
  destruct v4 as [|seg0 segs].
  { apply bind_val_inv in H. destruct H as (? & ? & _ & H). discriminate. }
  apply bind_val_inv in H. destruct H as (v5 & w5 & H5 & H).
  apply cached_step_val in H5. destruct H5 as (S5 & F5 & O5).
  apply bind_val_inv in H. destruct H as (v6 & w6 & H6 & H).
  apply cached_step_val in H6. destruct H6 as (S6 & F6 & O6).
  apply bind_val_inv in H. destruct H as (v7 & w7 & H7 & H).
  apply cached_step_val in H7. destruct H7 as (S7 & F7 & O7).
  apply bind_val_inv in H. destruct H as (v8 & w8 & H8 & H).
  apply cached_step_val in H8. destruct H8 as (S8 & F8 & O8).
  apply bind_val_inv in H. destruct H as (v9 & w9 & H9 & H).
  apply cached_step_val in H9. destruct H9 as (S9 & F9 & O9).
  unfold ret in H. inversion H; subst c w'. clear H.
  split; [| congruence].
  unfold holds. simpl c_whisper_result. simpl c_diarized_segments.
  simpl c_audio_features. simpl c_text_embeddings. simpl c_text_emotions.
  simpl c_speech_emotions. simpl c_keywords.
  repeat split.
  - rewrite F9, F8, F7, F6, F5, F4, F3, F2 by discriminate. exact Hwav.
  - rewrite F9, F8, F7, F6, F5, F4, F3 by discriminate. exact S2.
  - exists v3. rewrite F9, F8, F7, F6, F5, F4 by discriminate. exact S3.
  - rewrite F9, F8, F7, F6, F5 by discriminate. exact S4.
  - discriminate.
  - rewrite F9, F8, F7, F6 by discriminate. exact S5.
  - rewrite F9, F8, F7 by discriminate. exact S6.
  - rewrite F9, F8 by discriminate. exact S7.
  - rewrite F9 by discriminate. exact S8.
  - exact S9.
Qed.

(** ** Going on from cached stages *)

Section ResumeOn.

Variables (env : Env) (input_audio_path : string) (max_duration_sec : Z).
Variables (c0 : Cache) (k : nat).
Hypothesis Hprefix : forall s, (stage_index s <= k)%nat -> usable s c0 = true.

Lemma resumed_usable (n : nat) (w : World) (s : Stage) :
  resumed c0 k n w -> (stage_index s <= k)%nat -> usable s (cache w) = true.
Proof.
  intros (_ & H2 & _) Hs. unfold usable. rewrite (H2 s Hs). exact (Hprefix s Hs).
Qed.

Lemma resumed_no_wav (n : nat) (w : World) :
  resumed c0 k n w -> exists_ (get audio_trimmed (cache w)) = false -> k = O.
Proof.
  intros Hw Hex. destruct (Nat.eq_dec k O) as [Hk|Hk]; [exact Hk | exfalso].
  assert (Hu : usable audio_trimmed (cache w) = true).
  { apply (resumed_usable n w audio_trimmed Hw). simpl. lia. }
  unfold usable in Hu. change (json_stage audio_trimmed) with false in Hu.
  cbv iota in Hu. congruence.
Qed.

Lemma resumed_other (n : nat) (w : World) (x : Event) :
  resumed c0 k n w -> (forall t, x <> Call t) -> resumed c0 k n (emit x w).
Proof.
  intros (H1 & H2 & H3) Hx. split; [| split; [exact H2 |]].
  - intros t Ht. apply in_emit in Ht. destruct Ht as [Ht|Ht]; [auto |].
    symmetry in Ht. destruct (Hx t Ht).
  - intros t Hk Hn. apply in_emit. left. auto.
Qed.

Lemma on_pre :
  triple (resumed c0 k 0) (preprocess_step env input_audio_path max_duration_sec)
         (fun _ w => resumed c0 k 1 w)
         (fun w => resumed c0 k 0 w /\ stopped_after k w).
Proof.
  intros w Hw.
  pose proof (resumed_pre env input_audio_path max_duration_sec c0 k Hprefix w Hw) as H.
  unfold preprocess_step, preprocess_audio in *.
  destruct (exists_ (get audio_trimmed (cache w))) eqn:Ex; [exact H |].
  destruct (from_file env input_audio_path); [exact H |].
  split; [exact H |]. right.
  pose proof (resumed_no_wav 0 w Hw Ex) as Hk.
  exists audio_trimmed, "preprocessing error"%string. split; [| split].
  - rewrite Hk. simpl. lia.
  - apply in_emit. right. reflexivity.
  - intros s Hs. pose proof (stage_index_range s). lia.
Qed.

Lemma on_step (t : Stage) (compute : result (payload t)) :
  json_stage t = true ->
  triple (resumed c0 k (stage_index t - 1)) (cached_step t compute)
         (fun _ w => resumed c0 k (stage_index t) w)
         (fun w => resumed c0 k 0 w /\ stopped_after k w).
Proof.
  intros Hj w Hw.
  pose proof (resumed_step c0 k Hprefix t compute Hj w Hw) as H.
  destruct (stored (get t (cache w))) eqn:Est.
  - destruct (stored_true _ Est) as [v Hv].
    rewrite (cached_step_hit t compute w v Hv) in *. exact H.
  - rewrite (cached_step_miss t compute w Est) in *.
    destruct compute as [v|e]; [exact H |].
    split; [exact H |]. right. exists t, e.
    assert (Hk : (k < stage_index t)%nat).
    { destruct (le_lt_dec (stage_index t) k) as [Hle|Hlt]; [exfalso | exact Hlt].
      pose proof (resumed_usable _ w t Hw Hle) as Hu.
      unfold usable in Hu. rewrite Hj in Hu. congruence. }
    split; [exact Hk | split].
    + apply in_emit. right. reflexivity.
    + intros s Hs. destruct Hw as (_ & _ & H3).
      apply in_emit. left. apply in_emit. left. apply after_miss_log. left.
      apply H3; [exact Hs | lia].
Qed.

Lemma on_no_wav (w : World) :
  resumed c0 k 1 w -> exists_ (get audio_trimmed (cache w)) = false ->
  resumed c0 k 0 (emit (PipelineStopped audio_trimmed "Preprocessed WAV file not found") w)
  /\ stopped_after k
       (emit (PipelineStopped audio_trimmed "Preprocessed WAV file not found") w).
Proof.
  intros Hw Hex. pose proof (resumed_no_wav 1 w Hw Hex) as Hk. split.
  - apply resumed_other; [exact (resumed_weaken c0 k 1 w Hw) | discriminate].
  - right. exists audio_trimmed, "Preprocessed WAV file not found"%string.
    split; [rewrite Hk; simpl; lia | split].
    + apply in_emit. right. reflexivity.
    + intros s Hs. pose proof (stage_index_range s). lia.
Qed.

Lemma on_no_segments (w : World) :
  resumed c0 k 4 w ->
  resumed c0 k 0 (emit NoValidSegments w) /\ stopped_after k (emit NoValidSegments w).
Proof.
  intros Hw. split.
  - apply resumed_other; [exact (resumed_weaken c0 k 4 w Hw) | discriminate].
  - left. split; [apply in_emit; right; reflexivity |].
    intros s Hs H4. destruct Hw as (_ & _ & H3). apply in_emit. left. auto.
Qed.

Lemma on_finish (c : Collected) :
  triple (resumed c0 k 9) (finish env input_audio_path c)
         (fun _ w => resumed c0 k 9 w)
         (fun w => resumed c0 k 0 w /\ stopped_after k w).
Proof.
  intros w Hw.
  pose proof (resumed_finish env input_audio_path c0 k c w Hw) as H.
  destruct (finish_spec env input_audio_path c w) as (final & _ & Hfin).
  cbv zeta in Hfin. rewrite Hfin in *. exact H.
Qed.

Lemma resumed_on_run (o : gmap string OutFile) :
  match run_full_pipeline env input_audio_path max_duration_sec (initial c0 o) with
  | (Val _, w') => resumed c0 k 9 w'
  | (Stop, w') => resumed c0 k 0 w' /\ stopped_after k w'
  | (Exn _, _) => False
  end.
Proof.
  apply (run_full_pipeline_triple_computed env input_audio_path max_duration_sec
           (resumed c0 k) (fun w => resumed c0 k 0 w /\ stopped_after k w)
           (fun _ w => resumed c0 k 9 w)).
  - exact on_pre.
  - intros s compute Hj _. now apply on_step.
  - exact on_no_wav.
  - exact on_no_segments.
  - exact on_finish.
  - split; [| split].
    + intros s [].
    + reflexivity.
    + intros s _ Hn. pose proof (stage_index_range s). lia.
Qed.

End ResumeOn.

Lemma finish_cache (env : Env) (input_audio_path : string) (c : Collected) (w : World) :
  cache (snd (finish env input_audio_path c w)) = cache w.
Proof.
  destruct (finish_spec env input_audio_path c w) as (final & _ & Hfin).
  cbv zeta in Hfin. rewrite Hfin. cbn [snd]. unfold save_final_results.
  destruct (map simplify final); destruct (discrepancy _ _ _ _ _ _); reflexivity.
Qed.

(** The document a run returns is built from the values it collected, and
    these are the payloads of the files it found. *)
Lemma run_document_loaded (env : Env) (input_audio_path : string) (max_duration_sec : Z)
    (c0 : Cache) (k : nat) (w w' : World) (doc : Document) :
  run_full_pipeline env input_audio_path max_duration_sec w = (Val doc, w') ->
  (forall s, (stage_index s <= k)%nat -> get s (cache w') = get s c0) ->
  exists c, loaded c0 k c /\ built env input_audio_path c doc.
Proof.
  intros Hrun Hsame. unfold run_full_pipeline in Hrun.
  apply bind_val_inv in Hrun. destruct Hrun as (c & w1 & Hst & Hfin).
  apply run_stages_holds in Hst. destruct Hst as [Hh _].
  pose proof (finish_cache env input_audio_path c w1) as Hc.
  rewrite Hfin in Hc. cbn [snd] in Hc. rewrite <- Hc in Hh.
  destruct Hh as (_ & H2 & _ & H4 & _ & H5 & H6 & H7 & H8 & H9).
  exists c. split.
  - repeat split; intros Hk; (rewrite <- Hsame by (simpl; lia)); assumption.
  - destruct (finish_spec env input_audio_path c w1) as (final & Hagg & Hf).
    cbv zeta in Hf. rewrite Hf in Hfin.
    pose proof (f_equal fst Hfin) as Hdoc. cbn [fst] in Hdoc.
    injection Hdoc as Hdoc. subst doc. repeat split. exact Hagg.
Qed.

(** C4.  When the cache already holds usable files for the first [k]
    stages, a run calls the compute function of none of these stages and
    leaves their files as they are: it reads each of them, as far as it
    gets, and goes on: it returns a document built from the payloads of
    these files, or it stops for want of segments after step 4, or at a
    stage after the first [k]; it never stops at one of the first [k]
    stages.  What the collaborators of the first [k] stages would have
    answered is of no consequence: the run is the same with any other
    collaborators in their place. *)
Theorem C4_cached_stages_are_not_recomputed (env : Env) (input_audio_path : string)
    (max_duration_sec : Z) (c0 : Cache) (o : gmap string OutFile) (k : nat) :
  (forall s, (stage_index s <= k)%nat -> usable s c0 = true) ->
  let r := run_full_pipeline env input_audio_path max_duration_sec (initial c0 o) in
  (forall s, In (Call s) (log (snd r)) -> (k < stage_index s)%nat) /\
  (forall s, (stage_index s <= k)%nat -> get s (cache (snd r)) = get s c0) /\
  (forall s, (stage_index s <= k)%nat ->
     In (CacheHit s) (log (snd r)) \/
     ((4 < stage_index s)%nat /\ In NoValidSegments (log (snd r)))) /\
  ((exists doc c,
      fst r = Val doc /\ loaded c0 k c /\ built env input_audio_path c doc) \/
   (fst r = Stop /\ stopped_after k (snd r))) /\
  (forall env2,
     same_helpers env env2 ->
     (forall s, (k < stage_index s)%nat -> same_compute s env env2) ->
     run_full_pipeline env2 input_audio_path max_duration_sec (initial c0 o) = r).
Proof.
  intros Hprefix r.
  assert (Hsem : forall env2,
             same_helpers env env2 ->
             (forall s, (k < stage_index s)%nat -> same_compute s env env2) ->
             run_full_pipeline env2 input_audio_path max_duration_sec (initial c0 o) = r).
  { intros env2 Hhelp Hsame. subst r. symmetry.
    apply (run_ignores_cached_collaborators env env2 _ _ k Hhelp Hsame).
    exact Hprefix. }
  pose proof (resumed_on_run env input_audio_path max_duration_sec c0 k Hprefix o) as H.
  fold r in H. destruct r as [[doc| |e] w'] eqn:Hr; cbn [fst snd]; [| | destruct H].
  - destruct H as (H1 & H2 & H3). split; [exact H1 | split; [exact H2 | split; [| split]]].
    + intros s Hs. left. apply H3; [exact Hs | pose proof (stage_index_range s); lia].
    + left. destruct (run_document_loaded env input_audio_path max_duration_sec c0 k
                        (initial c0 o) w' doc Hr H2) as (c & Hl & Hb).
      exists doc, c. auto.
    + exact Hsem.
  - destruct H as ((H1 & H2 & _) & Hstop).
    split; [exact H1 | split; [exact H2 | split; [| split]]].
    + intros s Hs. destruct Hstop as [[Hn Hh]|(t & e & _ & _ & Hh)]; [| left; auto].
      destruct (le_lt_dec (stage_index s) 4) as [H4|H4]; [left; auto | right; auto].
    + right. auto.
    + exact Hsem.
Qed.

Lemma C4_cached_stages_are_not_recomputed_witness :
  let r := run_full_pipeline Demo.env "talk.mp3" 300 (initial Demo.four_stages ∅) in
  (forall s, In (Call s) (log (snd r)) -> (4 < stage_index s)%nat) /\
  (forall s, (stage_index s <= 4)%nat -> get s (cache (snd r)) = get s Demo.four_stages) /\
  In (CacheHit mapped_segments) (log (snd r)) /\
  exists doc c,
    fst r = Val doc /\
    get mapped_segments Demo.four_stages = Stored (c_diarized_segments c) /\
    aggregate (c_diarized_segments c) (c_audio_features c) (c_text_embeddings c)
      (c_text_emotions c) (c_speech_emotions c) (c_keywords c) = Some (segments doc).
Proof.
  destruct (C4_cached_stages_are_not_recomputed Demo.env "talk.mp3" 300
              Demo.four_stages ∅ 4) as (H1 & H2 & H3 & H4 & _).
  - intros s Hs. destruct s; simpl in Hs; try lia; reflexivity.
  - split; [exact H1 | split; [exact H2 | split]].
    + destruct (H3 mapped_segments) as [Hh|[Hlt _]]; [simpl; lia | exact Hh |].
      simpl in Hlt. lia.
    + destruct H4 as [(doc & c & Hdoc & Hl & Hb)|[Hstop _]].
      * exists doc, c. split; [exact Hdoc | split].
        -- destruct Hl as (_ & Hm & _). apply Hm. lia.
        -- destruct Hb as (_ & _ & Hagg). exact Hagg.
      * vm_compute in Hstop. discriminate.
Defined.

(** * Further properties of the code *)

(** ** [run_speech_emotion_recognition] and [extract_keywords] *)

(** X2.  The label of a segment depends on the classifier only through its
    answer on one slice [a:b] of the audio with [0 <= a < b <= n], where [n]
    is the number of samples: the classifier is never consulted on an empty
    slice or outside the audio. *)
Theorem segment_emotion_slice_in_range (env1 env2 : Env) (n : Z) (seg : MappedSegment) :
  (forall a b, (0 <= a < b)%Z -> (b <= n)%Z ->
               classify_batch env1 a b = classify_batch env2 a b) ->
  segment_emotion env1 n seg = segment_emotion env2 n seg.
Proof.
  intros Hsame. unfold segment_emotion.
  set (start_sample := Py.int (Float.mul (start seg) sr)).
  set (end_sample := Py.int (Float.mul (end_ seg) sr)).
  destruct ((start_sample >=? n)%Z || (end_sample <=? 0)%Z
            || (start_sample >=? end_sample)%Z) eqn:Hguard; [reflexivity |].
  destruct (Z.min end_sample n - slice_start n start_sample <=? 0)%Z eqn:Hlen;
    [reflexivity |].
  apply orb_false_iff in Hguard. destruct Hguard as [Hguard H3].
  apply orb_false_iff in Hguard. destruct Hguard as [H1 H2].
  rewrite Hsame; [reflexivity | |].
  - split; [| lia]. unfold slice_start. destruct (start_sample <? 0)%Z eqn:E; lia.
  - lia.
Qed.

Lemma segment_emotion_slice_in_range_witness :
  segment_emotion Demo.env 64000 {| start := 0; end_ := 2; text := "hello"; speaker := "A" |}
  = segment_emotion
      (Demo.env_with (Ok tt)
         (fun a b => if (0 <=? a)%Z && (a <? b)%Z && (b <=? 64000)%Z
                     then Ok ["hap"%string] else Raise "out of range"))
      64000 {| start := 0; end_ := 2; text := "hello"; speaker := "A" |}.
Proof.
  apply segment_emotion_slice_in_range.
  intros a b Hab Hb. simpl.
  destruct (0 <=? a)%Z eqn:E1; [| lia].
  destruct (a <? b)%Z eqn:E2; [| lia].
  destruct (b <=? 64000)%Z eqn:E3; [reflexivity | lia].
Defined.

(** X3.  [extract_keywords] returns a list exactly when the extractor
    succeeds on every text, and the list then holds the keywords of each
    text at the index of that text; an empty list of texts gives the empty
    list. *)
Theorem extract_keywords_pointwise (env : Env) (texts : list string)
    (all_keywords : list (list string)) :
  extract_keywords env texts = Ok all_keywords <->
  Forall2 (fun text_ kws => yake_keywords env text_ = Ok kws) texts all_keywords.
Proof.
  revert all_keywords. induction texts as [|t texts IH]; intros all_keywords; simpl.
  - split.
    + intros H. inversion H. constructor.
    + intros H. inversion H. reflexivity.
  - destruct (yake_keywords env t) as [kws|e] eqn:Ht.
    + destruct (extract_keywords env texts) as [rest|e] eqn:Hrest.
      * split.
        -- intros H. inversion H; subst. constructor; [exact Ht |]. now apply IH.
        -- intros H. inversion H as [|? ? ? ? Hy Hf]; subst.
           rewrite Ht in Hy. inversion Hy; subst.
           apply IH in Hf. inversion Hf; subst. reflexivity.
      * split; [discriminate |].
        intros H. inversion H as [|? ? ? ? Hy Hf]; subst.
        apply IH in Hf. discriminate.
    + split; [discriminate |].
      intros H. inversion H as [|? ? ? ? Hy Hf]; subst. congruence.
Qed.

(** ** The three aligners side by side *)

Lemma overlap_duration_positive (s e : Q) (turn : Segment) :
  s < e -> seg_start turn < seg_end turn ->
  Py.gt (Pipeline2.overlap_duration s e turn) 0
  = Py.lt s (seg_end turn) && Py.gt e (seg_start turn).
Proof.
  intros Hs Ht. pose proof (overlap_duration_sign s e turn) as [Hnn Hspec].
  destruct (Py.lt s (seg_end turn)) eqn:E1; simpl;
    [destruct (Py.gt e (seg_start turn)) eqn:E2 |].
  - apply lt_true in E1. apply gt_true in E2. apply gt_true.
    apply Hspec. exact (meets_positive_overlap s e turn Hs Ht E1 E2).
  - apply gt_false in E2. apply gt_false.
    destruct (Qlt_le_dec 0 (Pipeline2.overlap_duration s e turn)) as [Hpos|Hle]; [| lra].
    apply Hspec, positive_overlap_meets in Hpos. lra.
  - apply lt_false in E1. apply gt_false.
    destruct (Qlt_le_dec 0 (Spec.turn_overlap s e turn)) as [Hpos|Hle]; [| lra].
    apply positive_overlap_meets in Hpos. lra.
Qed.

(** X4.  On a segment and turns of positive length the three aligners
    select the same turns, in the same order: the turns [pipeline.py] and
    [python_diarization.py] keep by comparing end points are the turns for
    which [pipeline2.py] computes a positive overlap. *)
Theorem overlap_tests_agree (seg : WhisperSegment) (turns : Tracks) :
  ws_start seg < ws_end seg ->
  (forall turn spk, In (turn, spk) turns -> seg_start turn < seg_end turn) ->
  Pipeline1.overlapping (ws_start seg) (ws_end seg) turns
  = map fst (Pipeline2.overlapping_speakers (ws_start seg) (ws_end seg) turns) /\
  map snd (Diarization.overlapping seg (Diarization.segments_of turns))
  = map fst (Pipeline2.overlapping_speakers (ws_start seg) (ws_end seg) turns).
Proof.
  intros Hseg Hturns.
  induction turns as [|[turn spk] rest IH]; [split; reflexivity |].
  destruct IH as [IH1 IH2].
  { intros t k Hin. apply (Hturns t k). now right. }
  assert (Ht : seg_start turn < seg_end turn) by (apply (Hturns turn spk); now left).
  pose proof (overlap_duration_positive _ _ turn Hseg Ht) as Hpos.
  assert (Hd : negb (Py.le (ws_end seg) (seg_start turn) || Py.ge (ws_start seg) (seg_end turn))
               = Py.lt (ws_start seg) (seg_end turn) && Py.gt (ws_end seg) (seg_start turn)).
  { unfold Py.le, Py.ge, Py.lt, Py.gt. rewrite negb_orb. apply andb_comm. }
  split.
  - simpl. rewrite Hpos.
    destruct (Py.lt (ws_start seg) (seg_end turn) && Py.gt (ws_end seg) (seg_start turn));
      simpl; now rewrite IH1.
  - unfold Diarization.overlapping, Diarization.segments_of in *. simpl.
    rewrite Hd, Hpos.
    destruct (Py.lt (ws_start seg) (seg_end turn) && Py.gt (ws_end seg) (seg_start turn));
      simpl; now rewrite IH2.
Qed.

Lemma overlap_tests_agree_witness :
  Pipeline1.overlapping 0 2 Demo.tracks
  = map fst (Pipeline2.overlapping_speakers 0 2 Demo.tracks).
Proof.
  destruct (overlap_tests_agree {| ws_start := 0; ws_end := 2; ws_text := "hello" |}
              Demo.tracks) as [H _].
  - vm_compute. reflexivity.
  - intros turn spk Hin. simpl in Hin.
    destruct Hin as [Heq|[Heq|[Heq|[]]]]; inversion Heq; subst; vm_compute; reflexivity.
  - exact H.
Defined.

Lemma overlapping_speakers_app (s e : Q) (turns1 turns2 : Tracks) :
  Pipeline2.overlapping_speakers s e (turns1 ++ turns2)
  = Pipeline2.overlapping_speakers s e turns1 ++ Pipeline2.overlapping_speakers s e turns2.
Proof.
  induction turns1 as [|[turn spk] rest IH]; simpl; [reflexivity |].
  destruct (Py.gt (Pipeline2.overlap_duration s e turn) 0); simpl; now rewrite IH.
Qed.

(** X5.  Turns that do not overlap a segment have no influence on the
    speaker [pipeline2.py] gives it: inserting such turns anywhere in the
    diarization leaves the chosen speaker unchanged. *)
Theorem outside_turns_are_ignored (s e : Q) (before outside after : Tracks) :
  (forall turn spk, In (turn, spk) outside -> Spec.turn_overlap s e turn == 0) ->
  Pipeline2.choose_speaker s e (before ++ outside ++ after)
  = Pipeline2.choose_speaker s e (before ++ after).
Proof.
  intros Hout. unfold Pipeline2.choose_speaker.
  rewrite !overlapping_speakers_app.
  rewrite (overlapping_speakers_none s e outside Hout). reflexivity.
Qed.

Lemma outside_turns_are_ignored_witness :
  Pipeline2.choose_speaker 0 2
    ([(mkseg 0 1, "A")] ++ [(mkseg 5 9, "C")] ++ [(mkseg 1 2, "B")])
  = Pipeline2.choose_speaker 0 2 ([(mkseg 0 1, "A")] ++ [(mkseg 1 2, "B")]).
Proof.
  apply outside_turns_are_ignored.
  intros turn spk [Heq|[]]. inversion Heq; subst. vm_compute. reflexivity.
Defined.

(** X6.  [pipeline2.py] never invents a speaker: the speaker of every
    mapped segment is the label of a turn that overlaps the segment, or it
    is ["Unknown"], and it is ["Unknown"] whenever no turn overlaps. *)
Theorem speaker_is_a_label_or_Unknown (ws : list WhisperSegment) (turns : Tracks)
    (m : MappedSegment) :
  In m (Pipeline2.map_speakers_to_segments ws turns) ->
  (exists turn, In (turn, speaker m) turns /\ 0 < Spec.turn_overlap (start m) (end_ m) turn) \/
  (speaker m = "Unknown"%string /\
   forall turn spk, In (turn, spk) turns -> Spec.turn_overlap (start m) (end_ m) turn == 0).
Proof.
  intros Hin. unfold Pipeline2.map_speakers_to_segments in Hin.
  apply in_map_iff in Hin. destruct Hin as (seg & <- & _). simpl.
  destruct (Pipeline2.overlapping_speakers (ws_start seg) (ws_end seg) turns)
    as [|[k d] rest] eqn:Eov.
  - right. split.
    + unfold Pipeline2.choose_speaker. now rewrite Eov.
    + intros turn spk Hturn.
      pose proof (turn_overlap_nonneg (ws_start seg) (ws_end seg) turn) as Hnn.
      destruct (Qlt_le_dec 0 (Spec.turn_overlap (ws_start seg) (ws_end seg) turn))
        as [Hpos|Hle]; [| lra].
      assert (Hk : In spk (map fst (Pipeline2.overlapping_speakers
                                      (ws_start seg) (ws_end seg) turns))).
      { apply overlapping_speakers_in. eauto. }
      rewrite Eov in Hk. destruct Hk.
  - left. apply choose_speaker_max.
    assert (Hk : In k (map fst (Pipeline2.overlapping_speakers
                                  (ws_start seg) (ws_end seg) turns))).
    { rewrite Eov. now left. }
    apply overlapping_speakers_in in Hk. destruct Hk as (turn & Hturn & Hpos).
    exists turn, k. auto.
Qed.

Lemma speaker_is_a_label_or_Unknown_witness :
  exists m,
    In m (Pipeline2.map_speakers_to_segments Demo.segs Demo.tracks) /\
    exists turn, In (turn, speaker m) Demo.tracks.
Proof.
  exists (Pipeline2.map_segment Demo.tracks
            {| ws_start := 0; ws_end := 2; ws_text := " hello" |}).
  split; [left; reflexivity |].
  destruct (speaker_is_a_label_or_Unknown Demo.segs Demo.tracks
              (Pipeline2.map_segment Demo.tracks
                 {| ws_start := 0; ws_end := 2; ws_text := " hello" |}))
    as [(turn & Hin & _)|[Hunk _]].
  - left. reflexivity.
  - exists turn. exact Hin.
  - vm_compute in Hunk. discriminate.
Defined.

(** ** The order of the stages *)

Lemma entries_app (l1 l2 : list Event) : entries (l1 ++ l2) = entries l1 ++ entries l2.
Proof.
  induction l1 as [|x l1 IH]; simpl; [reflexivity |].
  destruct x; simpl; now rewrite IH.
Qed.

Lemma entries_emit (e : Event) (w : World) :
  entries (log (emit e w)) = entries (log w) ++ entries [e].
Proof. simpl. apply entries_app. Qed.

Lemma seq_snoc (n : nat) : (1 <= n)%nat -> seq 1 n = seq 1 (n - 1) ++ [n].
Proof.
  intros Hn. replace n with (S (n - 1)) at 1 by lia.
  rewrite seq_S. f_equal. f_equal. lia.
Qed.

Lemma stage_index_pos (s : Stage) : (1 <= stage_index s <= 9)%nat.
Proof. destruct s; simpl; lia. Qed.

Lemma after_miss_entries (s : Stage) (w : World) :
  entries (log (after_miss s w)) = entries (log w).
Proof.
  unfold after_miss. destruct (get s (cache w)); try reflexivity.
  rewrite entries_emit. simpl. apply app_nil_r.
Qed.

Lemma ordered_step (s : Stage) (compute : result (payload s)) :
  triple (fun w => entries (log w) = seq 1 (stage_index s - 1))
         (cached_step s compute)
         (fun _ w => entries (log w) = seq 1 (stage_index s))
         (fun w => exists m, (m <= 9)%nat /\ entries (log w) = seq 1 m).
Proof.
  intros w Hw. pose proof (stage_index_pos s) as Hpos.
  destruct (stored (get s (cache w))) eqn:Est.
  - apply stored_true in Est. destruct Est as [v Hv].
    rewrite (cached_step_hit s compute w v Hv).
    rewrite entries_emit, Hw. simpl. symmetry. apply seq_snoc. lia.
  - rewrite (cached_step_miss s compute w Est).
    assert (Hcall : entries (log (emit (Call s) (after_miss s w))) = seq 1 (stage_index s)).
    { rewrite entries_emit, after_miss_entries, Hw. simpl. symmetry. apply seq_snoc. lia. }
    destruct compute as [v|e].
    + unfold save_intermediate_json. rewrite entries_emit. simpl.
      rewrite app_nil_r. exact Hcall.
    + exists (stage_index s). split; [lia |].
      rewrite entries_emit. simpl. rewrite app_nil_r. exact Hcall.
Qed.

(** X7.  Every run enters the stages in their declared order, each one
    exactly once and none before all the earlier ones: the positions of the
    stages entered, read off the log, are 1, 2, ..., m for some m, and m is
    9 when the run returns a document. *)
Theorem stages_run_in_order (env : Env) (input_audio_path : string)
    (max_duration_sec : Z) (c0 : Cache) (o : gmap string OutFile) :
  let r := run_full_pipeline env input_audio_path max_duration_sec (initial c0 o) in
  exists m, (m <= 9)%nat /\ entries (log (snd r)) = seq 1 m /\
            (forall doc, fst r = Val doc -> m = 9%nat).
Proof.
  intros r.
  pose proof (run_full_pipeline_triple env input_audio_path max_duration_sec
                (fun n w => entries (log w) = seq 1 n)
                (fun w => exists m, (m <= 9)%nat /\ entries (log w) = seq 1 m)
                (fun _ w => entries (log w) = seq 1 9)) as Hwalk.
  assert (H : match r with
              | (Val _, w') => entries (log w') = seq 1 9
              | (Stop, w') => exists m, (m <= 9)%nat /\ entries (log w') = seq 1 m
              | (Exn _, _) => False
              end).
  { apply Hwalk; clear Hwalk.
    - intros w Hw. unfold preprocess_step, preprocess_audio.
      destruct (exists_ (get audio_trimmed (cache w))).
      + rewrite entries_emit, Hw. reflexivity.
      + destruct (from_file env input_audio_path).
        * change (entries (log (emit (Call audio_trimmed) w)) = seq 1 1).
          rewrite entries_emit, Hw. reflexivity.
        * exists 1%nat. split; [lia |].
          rewrite !entries_emit, Hw. reflexivity.
    - intros s compute _. apply ordered_step.
    - intros w Hw. exists 1%nat. split; [lia |]. rewrite entries_emit, Hw. reflexivity.
    - intros w Hw. exists 4%nat. split; [lia |]. rewrite entries_emit, Hw. reflexivity.
    - intros c w Hw.
      destruct (finish_spec env input_audio_path c w) as (final & _ & Hfin).
      simpl in Hfin. rewrite Hfin. clear Hfin.
      unfold save_final_results, discrepancy.
      destruct (_ <? _)%nat; destruct (map simplify final); simpl;
        rewrite ?entries_app, Hw; simpl; reflexivity.
    - reflexivity. }
  destruct r as [[doc| |e] w']; simpl.
  - exists 9%nat. split; [lia | split; [exact H | reflexivity]].
  - destruct H as (m & Hm & Hent). exists m. split; [exact Hm | split; [exact Hent |]].
    intros doc Hdoc. discriminate.
  - destruct H.
Qed.

(** ** Retrying after a failure *)

Lemma prefix_usable_emit (n : nat) (e : Event) (w : World) :
  prefix_usable n w -> prefix_usable n (emit e w).
Proof. intros H. exact H. Qed.

Lemma prefix_usable_extend (s : Stage) (w : World) :
  prefix_usable (stage_index s - 1) w -> usable s (cache w) = true ->
  prefix_usable (stage_index s) w.
Proof.
  intros Hp Hs t Ht.
  destruct (decide (t = s)) as [->|Hne]; [exact Hs |].
  apply Hp. assert (stage_index t <> stage_index s) by (intros E; apply Hne, stage_index_inj, E).
  lia.
Qed.

Lemma prefix_done_emit (n : nat) (x : Event) (w : World) :
  prefix_done n w -> (forall t e, x <> PipelineStopped t e) -> prefix_done n (emit x w).
Proof.
  intros [Hp Hs] Hx. split; [exact Hp |].
  intros t e Hin. apply in_emit in Hin. destruct Hin as [Hin|Hin]; [exact (Hs t e Hin) |].
  symmetry in Hin. exact (Hx t e Hin).
Qed.

Lemma prefix_done_stopped (s : Stage) (e : string) (w : World) :
  prefix_done (stage_index s - 1) w -> resumable (emit (PipelineStopped s e) w).
Proof.
  intros [Hp Hs] s' e' Hin.
  apply in_emit in Hin. destruct Hin as [Hin|Hin]; [destruct (Hs s' e' Hin) |].
  inversion Hin; subst. exact Hp.
Qed.

Lemma prefix_done_resumable (n : nat) (w : World) : prefix_done n w -> resumable w.
Proof. intros [_ Hs] s e Hin. destruct (Hs s e Hin). Qed.

Lemma prefix_done_step (s : Stage) (compute : result (payload s)) :
  json_stage s = true ->
  triple (prefix_done (stage_index s - 1)) (cached_step s compute)
         (fun _ w => prefix_done (stage_index s) w) resumable.
Proof.
  intros Hjson w Hw.
  destruct (stored (get s (cache w))) eqn:Est.
  - pose proof Est as Est'. apply stored_true in Est. destruct Est as [v Hv].
    rewrite (cached_step_hit s compute w v Hv).
    apply prefix_done_emit; [| discriminate].
    destruct Hw as [Hp Hs]. split; [| exact Hs].
    apply prefix_usable_extend; [exact Hp |]. unfold usable. now rewrite Hjson.
  - rewrite (cached_step_miss s compute w Est).
    assert (Hcall : prefix_done (stage_index s - 1) (emit (Call s) (after_miss s w))).
    { apply prefix_done_emit; [| discriminate].
      unfold after_miss. destruct (get s (cache w)); try exact Hw.
      apply prefix_done_emit; [exact Hw | discriminate]. }
    destruct compute as [v|e].
    + unfold save_intermediate_json. apply prefix_done_emit; [| discriminate].
      destruct Hcall as [Hp Hs]. split; [| exact Hs].
      apply prefix_usable_extend.
      * intros t Ht. simpl. apply usable_put_stored. apply Hp. exact Ht.
      * simpl. unfold usable. rewrite get_put_same, Hjson. reflexivity.
    + apply prefix_done_stopped. exact Hcall.
Qed.

Lemma prefix_done_run (env : Env) (input_audio_path : string) (max_duration_sec : Z)
    (c0 : Cache) (o : gmap string OutFile) :
  match run_full_pipeline env input_audio_path max_duration_sec (initial c0 o) with
  | (Val _, w') => prefix_done 9 w'
  | (Stop, w') => resumable w'
  | (Exn _, _) => False
  end.
Proof.
  apply (run_full_pipeline_triple env input_audio_path max_duration_sec
           prefix_done resumable (fun _ w => prefix_done 9 w)).
  - intros w Hw. unfold preprocess_step, preprocess_audio.
    destruct (exists_ (get audio_trimmed (cache w))) eqn:Ex.
    + apply prefix_done_emit; [| discriminate]. destruct Hw as [Hp Hs].
      split; [| exact Hs]. apply (prefix_usable_extend audio_trimmed); [exact Hp | exact Ex].
    + assert (Hcall : prefix_done 0 (emit (Call audio_trimmed) w))
        by (apply prefix_done_emit; [exact Hw | discriminate]).
      destruct (from_file env input_audio_path).
      * destruct Hcall as [Hp Hs]. split; [| exact Hs].
        apply (prefix_usable_extend audio_trimmed).
        -- intros t Ht. simpl. apply (usable_put_stored t audio_trimmed). apply Hp. exact Ht.
        -- reflexivity.
      * apply (prefix_done_stopped audio_trimmed). exact Hcall.
  - exact prefix_done_step.
  - intros w Hw. apply (prefix_done_stopped audio_trimmed).
    destruct Hw as [Hp Hs]. split; [| exact Hs].
    intros t Ht. apply Hp. simpl in Ht. lia.
  - intros w Hw. apply (prefix_done_resumable 4). apply prefix_done_emit; [exact Hw | discriminate].
  - intros c w [Hp Hs].
    destruct (finish_spec env input_audio_path c w) as (final & _ & Hfin).
    simpl in Hfin. rewrite Hfin. clear Hfin.
    set (w1 := match discrepancy _ _ _ _ _ _ with Some warning => emit warning w | None => w end).
    assert (Hw1 : prefix_done 9 w1).
    { subst w1. unfold discrepancy. destruct (_ <? _)%nat; [| split; assumption].
      apply prefix_done_emit; [split; assumption | discriminate]. }
    unfold save_final_results. simpl.
    destruct (map simplify final);
      repeat (apply prefix_done_emit; [| discriminate]); exact Hw1.
  - split; [intros t Ht; destruct t; simpl in Ht; lia | intros t e []].
Qed.

(** X8.  A run that stops because stage [s] raised leaves usable files for
    every stage before [s] (those it found and those it computed), so that a
    second run over these files, with whatever collaborators, calls the
    compute function of no stage before [s]. *)
Theorem failed_run_is_resumable (env env2 : Env) (input_audio_path : string)
    (max_duration_sec : Z) (c0 : Cache) (o : gmap string OutFile)
    (s : Stage) (e : string) :
  let r := run_full_pipeline env input_audio_path max_duration_sec (initial c0 o) in
  let r2 := run_full_pipeline env2 input_audio_path max_duration_sec
              (initial (cache (snd r)) (outputs (snd r))) in
  In (PipelineStopped s e) (log (snd r)) ->
  (forall t, (stage_index t < stage_index s)%nat -> usable t (cache (snd r)) = true) /\
  (forall t, In (Call t) (log (snd r2)) -> (stage_index s <= stage_index t)%nat).
Proof.
  intros r r2 Hin.
  pose proof (prefix_done_run env input_audio_path max_duration_sec c0 o) as H.
  fold r in H.
  assert (Hprefix : prefix_usable (stage_index s - 1) (snd r)).
  { destruct r as [[doc| |e'] w']; simpl in *.
    - destruct H as [_ Hs]. destruct (Hs s e Hin).
    - exact (H s e Hin).
    - destruct H. }
  split.
  - intros t Ht. apply Hprefix. lia.
  - intros t Ht.
    pose proof (resumed_run env2 input_audio_path max_duration_sec (cache (snd r))
                  (stage_index s - 1) Hprefix (outputs (snd r))) as H2.
    fold r2 in H2. destruct r2 as [[doc| |e'] w2]; simpl in *.
    + destruct H2 as (Hc & _). specialize (Hc t Ht). lia.
    + destruct H2 as (Hc & _). specialize (Hc t Ht). lia.
    + destruct H2.
Qed.

Lemma failed_run_is_resumable_witness :
  let r := run_full_pipeline Demo.env_ser_fails "talk.mp3" 300
             (initial Demo.empty_cache ∅) in
  In (PipelineStopped speech_emotions "Failed to load Speech Emotion Recognition models")
     (log (snd r)) /\
  usable text_emotions (cache (snd r)) = true.
Proof.
  assert (Hin : In (PipelineStopped speech_emotions
                      "Failed to load Speech Emotion Recognition models")
                   (log (snd (run_full_pipeline Demo.env_ser_fails "talk.mp3" 300
                                (initial Demo.empty_cache ∅)))))
    by (vm_compute; tauto).
  split; [exact Hin |].
  destruct (failed_run_is_resumable Demo.env_ser_fails Demo.env "talk.mp3" 300
              Demo.empty_cache ∅ speech_emotions
              "Failed to load Speech Emotion Recognition models" Hin) as [H _].
  apply H. simpl. lia.
Defined.

(** ** Running again over the files of a complete run *)

Lemma bind_eq {A B : Type} (m : Run A) (k : A -> Run B) (w w' : World) (a : A) :
  m w = (Val a, w') -> bind m k w = k a w'.
Proof. intros H. unfold bind. now rewrite H. Qed.

Lemma preprocess_step_hit (env : Env) (input_audio_path : string) (max_duration_sec : Z)
    (w : World) :
  exists_ (get audio_trimmed (cache w)) = true ->
  preprocess_step env input_audio_path max_duration_sec w
  = (Val tt, emit (CacheHit audio_trimmed) w).
Proof. intros H. unfold preprocess_step, preprocess_audio. now rewrite H. Qed.

(** Over such files the eight stages only read: whatever the collaborators,
    they return the same values and change no file. *)
Lemma run_stages_replay (env : Env) (input_audio_path : string) (max_duration_sec : Z)
    (w : World) (c : Collected) :
  holds c (cache w) ->
  exists w',
    run_stages env input_audio_path max_duration_sec w = (Val c, w') /\
    cache w' = cache w /\ outputs w' = outputs w /\
    (forall x, In x (log w') -> In x (log w) \/ exists s, x = CacheHit s).
Proof.
  intros (Hwav & H2 & (dl & H3) & H4 & Hne & H5 & H6 & H7 & H8 & H9).
  unfold run_stages.
  erewrite bind_eq; [| apply preprocess_step_hit; exact Hwav].
  erewrite bind_eq; [| reflexivity].
  change (get audio_trimmed (cache (emit (CacheHit audio_trimmed) w)))
    with (get audio_trimmed (cache w)).
  match goal with
  | |- context [negb ?b] => replace b with true by (symmetry; exact Hwav)
  end.
  change (negb true) with false. cbv iota.
  erewrite bind_eq; [| apply cached_step_hit; exact H2].
  erewrite bind_eq; [| apply cached_step_hit; exact H3].
  erewrite bind_eq; [| apply cached_step_hit; exact H4].
  destruct (c_diarized_segments c) as [|seg0 segs] eqn:Eseg; [congruence |].
  erewrite bind_eq; [| apply cached_step_hit; exact H5].
  erewrite bind_eq; [| apply cached_step_hit; exact H6].
  erewrite bind_eq; [| apply cached_step_hit; exact H7].
  erewrite bind_eq; [| apply cached_step_hit; exact H8].
  erewrite bind_eq; [| apply cached_step_hit; exact H9].
  unfold ret.
  match goal with
  | |- exists w', (Val ?r, ?w1) = _ /\ _ => assert (Hc : r = c); [| exists w1]
  end.
  { destruct c; simpl in *. now rewrite Eseg. }
  split; [now rewrite Hc | split; [reflexivity | split; [reflexivity |]]].
  - intros x Hx. simpl in Hx.
    repeat (apply in_app_iff in Hx; destruct Hx as [Hx|[<-|[]]]; [| right; eauto]).
    now left.
Qed.

Lemma insert_twice_same (o : gmap string OutFile) (a b c : string) (x y z : OutFile) :
  <[c := z]> (<[b := y]> (<[a := x]> (<[c := z]> (<[b := y]> (<[a := x]> o)))))
  = <[c := z]> (<[b := y]> (<[a := x]> o)).
Proof.
  apply map_eq. intros i.
  rewrite !lookup_insert.
  destruct (decide (c = i)); [reflexivity |].
  destruct (decide (b = i)); [reflexivity |].
  destruct (decide (a = i)); reflexivity.
Qed.

Lemma insert_twice_same2 (o : gmap string OutFile) (a c : string) (x z : OutFile) :
  <[c := z]> (<[a := x]> (<[c := z]> (<[a := x]> o))) = <[c := z]> (<[a := x]> o).
Proof.
  apply map_eq. intros i.
  rewrite !lookup_insert.
  destruct (decide (c = i)); [reflexivity |].
  destruct (decide (a = i)); reflexivity.
Qed.

(** X9.  Running the pipeline again over the files a complete run has left
    is a replay: whatever the collaborators now are, none of them is called,
    the same document is returned, and every stage file and final file is
    left as the first run wrote it. *)
Theorem rerun_is_a_replay (env env2 : Env) (input_audio_path : string)
    (max_duration_sec max_duration_sec2 : Z) (c0 : Cache) (o : gmap string OutFile)
    (doc : Document) (w1 : World) :
  run_full_pipeline env input_audio_path max_duration_sec (initial c0 o) = (Val doc, w1) ->
  (forall p, basename env2 p = basename env p) ->
  (forall p, splitext_root env2 p = splitext_root env p) ->
  exists w2,
    run_full_pipeline env2 input_audio_path max_duration_sec2
      (initial (cache w1) (outputs w1)) = (Val doc, w2) /\
    cache w2 = cache w1 /\
    outputs w2 = outputs w1 /\
    (forall s, ~ In (Call s) (log w2)).
Proof.
  intros Hrun Hb Hs. unfold run_full_pipeline in Hrun.
  apply bind_val_inv in Hrun. destruct Hrun as (c & w & Hstages & Hfin).
  apply run_stages_holds in Hstages. destruct Hstages as [Hholds Hout].
  destruct (finish_spec env input_audio_path c w) as (final & Hagg & Hspec).
  simpl in Hspec. rewrite Hspec in Hfin. clear Hspec.
  injection Hfin as Hdoc Hw1.
  set (w0 := match discrepancy _ _ _ _ _ _ with Some warning => emit warning w | None => w end)
    in *.
  assert (Hw0 : cache w0 = cache w /\ outputs w0 = outputs w).
  { subst w0. destruct (discrepancy _ _ _ _ _ _); auto. }
  destruct Hw0 as [Hc0 Ho0].
  assert (Hc1 : cache w1 = cache w).
  { rewrite <- Hw1. unfold save_final_results. simpl.
    destruct (map simplify final); simpl; exact Hc0. }
  destruct (run_stages_replay env2 input_audio_path max_duration_sec2
              (initial (cache w1) (outputs w1)) c) as (w' & Hreplay & Hc' & Ho' & Hlog').
  { simpl. rewrite Hc1. exact Hholds. }
  unfold run_full_pipeline. erewrite bind_eq; [| exact Hreplay].
  destruct (finish_spec env2 input_audio_path c w') as (final2 & Hagg2 & Hspec2).
  rewrite Hagg in Hagg2. inversion Hagg2; subst final2. clear Hagg2.
  simpl in Hspec2. rewrite Hspec2. clear Hspec2.
  rewrite !Hb, !Hs, Hdoc.
  set (w0' := match discrepancy _ _ _ _ _ _ with Some warning => emit warning w' | None => w' end).
  assert (Hw0' : cache w0' = cache w' /\ outputs w0' = outputs w' /\
                 forall x, In x (log w0') -> In x (log w') \/ exists a b, x = Discrepancy a b).
  { subst w0'. unfold discrepancy. destruct (_ <? _)%nat; [| auto].
    split; [reflexivity | split; [reflexivity |]].
    intros x Hx. apply in_emit in Hx. destruct Hx as [Hx| ->]; eauto. }
  destruct Hw0' as (Hc0' & Ho0' & Hl0').
  eexists. split; [reflexivity |].
  unfold save_final_results in *. simpl in Hw1. simpl.
  remember (map simplify final) as rows eqn:Erows in *.
  assert (Hno : forall s, ~ In (Call s) (log w0')).
  { intros s Hx. destruct (Hl0' _ Hx) as [Hx'|(a & b & Hx')]; [| discriminate].
    destruct (Hlog' _ Hx') as [[]|(t & Ht)]. discriminate. }
  destruct rows as [|r rows]; simpl in *.
  - split; [now rewrite Hc0', Hc' | split].
    + rewrite Ho0', Ho'. simpl. rewrite <- Hw1. simpl. rewrite Ho0.
      apply insert_twice_same2.
    + intros s Hin.
      repeat (apply in_app_iff in Hin; simpl in Hin;
              destruct Hin as [Hin|[Hin|[]]]; [| discriminate]).
      exact (Hno s Hin).
  - split; [now rewrite Hc0', Hc' | split].
    + rewrite Ho0', Ho'. simpl. rewrite <- Hw1. simpl. rewrite Ho0.
      apply insert_twice_same.
    + intros s Hin.
      repeat (apply in_app_iff in Hin; simpl in Hin;
              destruct Hin as [Hin|[Hin|[]]]; [| discriminate]).
      exact (Hno s Hin).
Qed.

Lemma rerun_is_a_replay_witness :
  exists doc w1 w2,
    run_full_pipeline Demo.env "talk.mp3" 300 (initial Demo.empty_cache ∅) = (Val doc, w1) /\
    run_full_pipeline Demo.env_ser_fails "talk.mp3" 60
      (initial (cache w1) (outputs w1)) = (Val doc, w2) /\
    outputs w2 = outputs w1.
Proof.
  destruct (run_full_pipeline Demo.env "talk.mp3" 300 (initial Demo.empty_cache ∅))
    as [[doc| |e] w1] eqn:Hrun; [| vm_compute in Hrun; discriminate ..].
  destruct (rerun_is_a_replay Demo.env Demo.env_ser_fails "talk.mp3" 300 60
              Demo.empty_cache ∅ doc w1 Hrun) as (w2 & H2 & _ & Ho & _).
  - reflexivity.
  - reflexivity.
  - exists doc, w1, w2. split; [reflexivity | split; [exact H2 | exact Ho]].
Defined.

(** ** Segments without audio *)

Lemma int_mono (x y : Q) : x <= y -> (Py.int x <= Py.int y)%Z.
Proof.
  intros Hxy. unfold Py.int.
  destruct (Qle_bool 0 x) eqn:Ex; destruct (Qle_bool 0 y) eqn:Ey.
  - now apply Qfloor_resp_le.
  - apply Qle_bool_iff in Ex.
    assert (~ 0 <= y) by (intros H; apply Qle_bool_iff in H; congruence). lra.
  - assert (Hx : ~ 0 <= x) by (intros H; apply Qle_bool_iff in H; congruence).
    apply Qle_bool_iff in Ey.
    assert (H1 : (Qceiling x <= Qceiling 0)%Z) by (apply Qceiling_resp_le; lra).
    assert (H2 : (Qfloor 0 <= Qfloor y)%Z) by (apply Qfloor_resp_le; exact Ey).
    change (Qceiling 0) with 0%Z in H1. change (Qfloor 0) with 0%Z in H2. lia.
  - now apply Qceiling_resp_le.
Qed.

Lemma int_of_Z (n : Z) : Py.int (inject_Z n) = n.
Proof.
  unfold Py.int. destruct (Qle_bool 0 (inject_Z n)); [apply Qfloor_Z | apply Qceiling_Z].
Qed.

(** For a sample count that a float holds exactly, a start whose exact
    product with the rate is [n] or more is at the end of the audio. *)
Lemma degenerate_exact (n : Z) (seg : MappedSegment) :
  (0 <= n <= 2 ^ 53)%Z ->
  end_ seg <= start seg \/ end_ seg <= 0 \/ inject_Z n <= start seg * sr ->
  degenerate n seg.
Proof.
  intros Hn [H|[H|H]]; [left; exact H | right; left; exact H |].
  right. right. unfold Float.mul. rewrite <- (round_Z0 n Hn).
  apply round_mono. exact H.
Qed.

Lemma degenerate_guard (n : Z) (seg : MappedSegment) :
  degenerate n seg ->
  ((Py.int (Float.mul (start seg) sr) >=? n)%Z || (Py.int (Float.mul (end_ seg) sr) <=? 0)%Z
   || (Py.int (Float.mul (start seg) sr) >=? Py.int (Float.mul (end_ seg) sr))%Z) = true.
Proof.
  assert (Hsr : 0 < sr) by (vm_compute; reflexivity).
  unfold Float.mul. intros [H|[H|H]].
  - assert (Hm : (Py.int (Float.round (end_ seg * sr))
                  <= Py.int (Float.round (start seg * sr)))%Z).
    { apply int_mono, round_mono. apply Qmult_le_compat_r; lra. }
    apply orb_true_iff. right. apply Z.geb_le. exact Hm.
  - assert (Hm : (Py.int (Float.round (end_ seg * sr)) <= Py.int (Float.round 0))%Z).
    { apply int_mono, round_mono. rewrite <- (Qmult_0_l sr). apply Qmult_le_compat_r; lra. }
    change (Py.int (Float.round 0)) with 0%Z in Hm.
    apply orb_true_iff. left. apply orb_true_iff. right. apply Z.leb_le. exact Hm.
  - assert (Hm : (Py.int (inject_Z n) <= Py.int (Float.round (start seg * sr)))%Z)
      by (apply int_mono; exact H).
    rewrite int_of_Z in Hm.
    apply orb_true_iff. left. apply orb_true_iff. left. apply Z.geb_le. exact Hm.
Qed.

(** X10.  A segment that ends where it starts or before, that ends at time
    zero or before, or that starts at or after the end of the audio is
    labelled ["unknown"] by the speech-emotion step, whatever the
    classifier would say. *)
Theorem degenerate_segment_is_unknown (env : Env) (n : Z) (seg : MappedSegment) :
  degenerate n seg -> segment_emotion env n seg = "unknown"%string.
Proof.
  intros H. unfold segment_emotion. now rewrite (degenerate_guard n seg H).
Qed.

Lemma degenerate_segment_is_unknown_witness :
  segment_emotion Demo.env 64000 {| start := 5; end_ := 5; text := "hm"; speaker := "A" |}
  = "unknown"%string.
Proof.
  apply degenerate_segment_is_unknown. left. vm_compute. discriminate.
Defined.

(** ** [extract_audio_features] *)

Lemma Forall2_nth_error_l {A B : Type} (R : A -> B -> Prop) (l : list A) (k : list B)
    (i : nat) (x : A) :
  Forall2 R l k -> nth_error l i = Some x ->
  exists y, nth_error k i = Some y /\ R x y.
Proof.
  intros H. revert i. induction H as [|a b l k Hab _ IH]; intros [|i] Hi;
    simpl in *; try discriminate.
  - inversion Hi; subst. now exists b.
  - now apply IH.
Qed.

Section FeatureProperties.

Variable librosa_load : file AudioSegment -> result Z.
Variable librosa_feature : Z -> Z -> result AudioFeatures.

Lemma features_loop_pointwise (n : Z) (segs : list MappedSegment)
    (feats : list AudioFeatures) :
  Features.features_loop librosa_feature n segs = Ok feats <->
  Forall2 (fun seg f => Features.segment_features librosa_feature n seg = Ok f) segs feats.
Proof.
  revert feats. induction segs as [|seg segs IH]; intros feats; simpl.
  - split; intros H; inversion H; [constructor | reflexivity].
  - destruct (Features.segment_features librosa_feature n seg) as [f|e] eqn:Hs.
    + destruct (Features.features_loop librosa_feature n segs) as [rest|e] eqn:Hrest.
      * split.
        -- intros H. inversion H; subst. constructor; [exact Hs |]. now apply IH.
        -- intros H. inversion H as [|? ? ? ? Hy Hf]; subst.
           rewrite Hs in Hy. inversion Hy; subst.
           apply IH in Hf. inversion Hf; subst. reflexivity.
      * split; [discriminate |].
        intros H. inversion H as [|? ? ? ? Hy Hf]; subst.
        apply IH in Hf. discriminate.
    + split; [discriminate |].
      intros H. inversion H as [|? ? ? ? Hy Hf]; subst. congruence.
Qed.

(** X11.  When [extract_audio_features] returns, the WAV file exists and
    was loaded, there is one feature record per segment, in the order of the
    segments, and the record of a segment without audio (see [degenerate])
    is the zero record, whatever [librosa.feature] would compute. *)
Theorem extract_audio_features_shape (wav : file AudioSegment)
    (segs : list MappedSegment) (feats : list AudioFeatures) :
  Features.extract_audio_features librosa_load librosa_feature wav segs = Ok feats ->
  exists_ wav = true /\
  length feats = length segs /\
  exists n, librosa_load wav = Ok n /\
    forall i seg, nth_error segs i = Some seg -> degenerate n seg ->
      nth_error feats i = Some Features.zeros.
Proof.
  unfold Features.extract_audio_features.
  destruct (exists_ wav); simpl; [| discriminate].
  destruct (librosa_load wav) as [n|e]; [| discriminate].
  intros Hloop. apply features_loop_pointwise in Hloop.
  split; [reflexivity |].
  split; [symmetry; apply (Forall2_length _ _ _ Hloop) |].
  exists n. split; [reflexivity |].
  intros i seg Hseg Hdeg.
  destruct (Forall2_nth_error_l _ _ _ _ _ Hloop Hseg) as (f & Hf & Hsf).
  unfold Features.segment_features in Hsf.
  rewrite (degenerate_guard n seg Hdeg) in Hsf. inversion Hsf; subst. exact Hf.
Qed.

(** X12.  The features of a segment depend on [librosa.feature] only
    through its result on one slice [a:b] of the audio with
    [0 <= a < b <= n]: it is never applied to an empty slice or beyond the
    samples. *)
Theorem segment_features_slice_in_range (other_feature : Z -> Z -> result AudioFeatures)
    (n : Z) (seg : MappedSegment) :
  (forall a b, (0 <= a < b)%Z -> (b <= n)%Z -> librosa_feature a b = other_feature a b) ->
  Features.segment_features librosa_feature n seg
  = Features.segment_features other_feature n seg.
Proof.
  intros Hsame. unfold Features.segment_features.
  set (start_sample := Py.int (Float.mul (start seg) sr)).
  set (end_sample := Py.int (Float.mul (end_ seg) sr)).
  destruct ((start_sample >=? n)%Z || (end_sample <=? 0)%Z
            || (start_sample >=? end_sample)%Z) eqn:Hguard; [reflexivity |].
  destruct (0 <? Z.min end_sample n - slice_start n start_sample)%Z eqn:Hlen;
    [| reflexivity].
  apply orb_false_iff in Hguard. destruct Hguard as [Hguard H3].
  apply orb_false_iff in Hguard. destruct Hguard as [H1 H2].
  apply Hsame.
  - split; [| lia]. unfold slice_start. destruct (start_sample <? 0)%Z eqn:E; lia.
  - lia.
Qed.

End FeatureProperties.

Lemma extract_audio_features_shape_witness :
  let load := fun _ : file AudioSegment => Ok 64000%Z in
  let feature := fun a b : Z =>
    Ok {| mfccs := repeat (inject_Z a) 13; chroma := repeat (inject_Z b) 12;
          rms_energy := 1 |} in
  let segs := [ {| start := 1; end_ := 2; text := "hello"; speaker := "A" |};
                {| start := 5; end_ := 5; text := "hm"; speaker := "B" |} ] in
  exists feats,
    Features.extract_audio_features load feature (Stored Demo.stereo) segs = Ok feats /\
    length feats = 2%nat /\ nth_error feats 1 = Some Features.zeros.
Proof.
  intros load feature segs.
  destruct (Features.extract_audio_features load feature (Stored Demo.stereo) segs)
    as [feats|e] eqn:Hrun; [| vm_compute in Hrun; discriminate].
  exists feats. split; [reflexivity |].
  destruct (extract_audio_features_shape load feature _ _ _ Hrun)
    as (_ & Hlen & n & Hn & Hzero).
  split; [exact Hlen |].
  apply (Hzero 1%nat {| start := 5; end_ := 5; text := "hm"; speaker := "B" |});
    [reflexivity |].
  left. vm_compute. discriminate.
Defined.

Lemma segment_features_slice_in_range_witness :
  let seg := {| start := 3; end_ := 9; text := "tail"; speaker := "A" |} in
  Features.segment_features
    (fun a b => if (b <=? 64000)%Z then Ok Features.zeros else Raise "beyond the samples")
    64000 seg
  = Features.segment_features (fun _ _ => Ok Features.zeros) 64000 seg.
Proof.
  intros seg. apply segment_features_slice_in_range.
  intros a b _ Hb. apply Z.leb_le in Hb. now rewrite Hb.
Defined.

(** ** The trimmed WAV is never refreshed *)

(** X13.  Once the trimmed WAV of step 1 exists, a run no longer depends
    on [max_duration_sec]: the file is used as it is, whatever duration it
    was trimmed to. *)
Theorem trimmed_wav_fixes_the_duration (env : Env) (input_audio_path : string)
    (max_duration_sec other_duration_sec : Z) (w : World) :
  exists_ (get audio_trimmed (cache w)) = true ->
  run_full_pipeline env input_audio_path max_duration_sec w
  = run_full_pipeline env input_audio_path other_duration_sec w.
Proof.
  intros Hwav.
  assert (Hstages : run_stages env input_audio_path max_duration_sec w
                    = run_stages env input_audio_path other_duration_sec w).
  { unfold run_stages.
    rewrite (bind_eq _ _ _ _ _
               (preprocess_step_hit env input_audio_path max_duration_sec w Hwav)).
    rewrite (bind_eq _ _ _ _ _
               (preprocess_step_hit env input_audio_path other_duration_sec w Hwav)).
    reflexivity. }
  unfold run_full_pipeline, bind. now rewrite Hstages.
Qed.

Lemma trimmed_wav_fixes_the_duration_witness :
  run_full_pipeline Demo.env "talk.mp3" 300 (initial Demo.full_cache ∅)
  = run_full_pipeline Demo.env "talk.mp3" 1 (initial Demo.full_cache ∅).
Proof.
  apply trimmed_wav_fixes_the_duration. reflexivity.
Defined.

(** ** The CSV summary *)

Lemma save_final_results_csv (name_base : string) (d : Document)
    (rows : list FinalSegment) (w : World) :
  outputs (snd (save_final_results name_base d rows w))
    !! (name_base +:+ "_summary.csv")%string
  = match rows with
    | [] => outputs w !! (name_base +:+ "_summary.csv")%string
    | _ :: _ => Some (CsvFile rows)
    end.
Proof.
  assert (Hcj : (name_base +:+ "_final_output.json")%string
                <> (name_base +:+ "_summary.csv")%string).
  { intros H. apply append_cancel_l in H. discriminate. }
  assert (Hct : (name_base +:+ "_transcript.txt")%string
                <> (name_base +:+ "_summary.csv")%string).
  { intros H. apply append_cancel_l in H. discriminate. }
  unfold save_final_results. destruct rows as [|r rows]; simpl.
  - rewrite lookup_insert_ne by exact Hct. now rewrite lookup_insert_ne by exact Hcj.
  - rewrite lookup_insert_ne by exact Hct. apply lookup_insert_eq.
Qed.

(** X14.  The CSV summary of a run that returns a document has one row per
    segment of the document, in order, with the segment's times, speaker,
    text, emotions and its keywords joined by ["; "]; its cells for the
    MFCCs, the chroma vector and the embedding are empty and its energy
    cell is zero, whatever the features of the segment in the returned
    document.  A document without segments leaves the CSV file as it
    was. *)
Theorem summary_csv_has_bare_rows (env : Env) (input_audio_path : string)
    (max_duration_sec : Z) (w w' : World) (doc : Document) :
  run_full_pipeline env input_audio_path max_duration_sec w = (Val doc, w') ->
  let csv_path :=
    ((splitext_root env (basename env input_audio_path) +:+ "_no_embeddings")
     +:+ "_summary.csv")%string in
  match segments doc with
  | [] => outputs w' !! csv_path = outputs w !! csv_path
  | _ :: _ =>
      exists rows,
        outputs w' !! csv_path = Some (CsvFile rows) /\
        map csv_row rows = map bare_row (segments doc)
  end.
Proof.
  intros Hrun csv_path. unfold run_full_pipeline in Hrun.
  apply bind_val_inv in Hrun. destruct Hrun as (c & w1 & Hst & Hfin).
  apply run_stages_holds in Hst. destruct Hst as [_ Ho].
  destruct (finish_spec env input_audio_path c w1) as (final & _ & Hf).
  cbv zeta in Hf. rewrite Hf in Hfin. clear Hf.
  pose proof (f_equal fst Hfin) as Hdoc. pose proof (f_equal snd Hfin) as Hw'.
  clear Hfin. cbn [fst snd] in Hdoc, Hw'.
  injection Hdoc as Hdoc. subst doc. cbn [segments].
  set (w2 := match discrepancy _ _ _ _ _ _ with Some warning => emit warning w1 | None => w1 end)
    in Hw'.
  assert (Ho2 : outputs w2 = outputs w).
  { subst w2. destruct (discrepancy _ _ _ _ _ _); simpl; exact Ho. }
  rewrite <- Hw'. subst csv_path. rewrite save_final_results_csv.
  destruct final as [|seg final]; simpl.
  - now rewrite Ho2.
  - eexists. split; [reflexivity |]. simpl. f_equal.
    rewrite map_map. apply map_ext. reflexivity.
Qed.

Lemma summary_csv_has_bare_rows_witness :
  exists w' doc rows,
    run_full_pipeline Demo.env "talk.mp3" 300 (initial Demo.empty_cache ∅) = (Val doc, w') /\
    outputs w' !! "talk_no_embeddings_summary.csv"%string = Some (CsvFile rows) /\
    map csv_row rows = map bare_row (segments doc).
Proof.
  destruct (run_full_pipeline Demo.env "talk.mp3" 300 (initial Demo.empty_cache ∅))
    as [[doc| |e] w'] eqn:Hrun; [| vm_compute in Hrun; discriminate ..].
  pose proof (summary_csv_has_bare_rows Demo.env "talk.mp3" 300 _ _ _ Hrun) as H.
  assert (Hsegs : segments doc <> []).
  { vm_compute in Hrun. injection Hrun as Hdoc _. subst doc. discriminate. }
  destruct (segments doc) as [|seg rest] eqn:E; [now destruct Hsegs |].
  destruct H as (rows & Hcsv & Hrows).
  exists w', doc, rows. rewrite E. auto.
Defined.

(** ** [pipeline.py]: [full_pipeline] *)

Lemma and_then_ok_inv {A B : Type} (r : result A) (k : A -> result B) (b : B) :
  and_then r k = Ok b -> exists a, r = Ok a /\ k a = Ok b.
Proof. destruct r as [a|e]; simpl; [eauto | discriminate]. Qed.

Lemma for_each_ok {A B : Type} (f : A -> result B) (xs : list A) (ys : list B) :
  for_each f xs = Ok ys <-> Forall2 (fun x y => f x = Ok y) xs ys.
Proof.
  revert ys. induction xs as [|x xs IH]; intros ys; simpl.
  - split; intros H; inversion H; [constructor | reflexivity].
  - destruct (f x) as [y|e] eqn:Hx.
    + destruct (for_each f xs) as [rest|e] eqn:Hrest.
      * split.
        -- intros H. inversion H; subst. constructor; [exact Hx |]. now apply IH.
        -- intros H. inversion H as [|? ? ? ? Hy Hf]; subst.
           rewrite Hx in Hy. inversion Hy; subst.
           apply IH in Hf. inversion Hf; subst. reflexivity.
      * split; [discriminate |].
        intros H. inversion H as [|? ? ? ? Hy Hf]; subst.
        apply IH in Hf. discriminate.
    + split; [discriminate |].
      intros H. inversion H as [|? ? ? ? Hy Hf]; subst. congruence.
Qed.

Lemma for_each_map {A B C : Type} (g : A -> B) (f : B -> result C) (xs : list A) :
  for_each f (map g xs) = for_each (fun x => f (g x)) xs.
Proof.
  induction xs as [|x xs IH]; simpl; [reflexivity |]. now rewrite IH.
Qed.

Lemma for_each_total {A B : Type} (f : A -> result B) (xs : list A) :
  (forall x, exists y, f x = Ok y) -> exists ys, for_each f xs = Ok ys.
Proof.
  intros Hf. induction xs as [|x xs [ys IH]]; simpl; [eauto |].
  destruct (Hf x) as [y Hy]. rewrite Hy, IH. eauto.
Qed.

Lemma Forall2_map_left {A B C : Type} (g : A -> B) (R : B -> C -> Prop)
    (xs : list A) (ys : list C) :
  Forall2 R (map g xs) ys -> Forall2 (fun x y => R (g x) y) xs ys.
Proof.
  revert ys. induction xs as [|x xs IH]; intros ys H; inversion H; subst;
    constructor; auto.
Qed.

(** The loop that adds the emotions and the keywords stays in range when
    the three lists were computed from the segments, one value each. *)
Lemma annotate_spec (P Q' : MappedSegment -> string -> Prop)
    (R : MappedSegment -> list string -> Prop) (segs : list MappedSegment) :
  forall (te se : list string) (kw : list (list string))
         (pt ps : list string) (pk : list (list string)),
    Forall2 P segs te -> Forall2 Q' segs se -> Forall2 R segs kw ->
    length ps = length pt -> length pk = length pt ->
    exists out,
      Pipeline1Steps.annotate (length pt) segs (pt ++ te) (ps ++ se) (pk ++ kw) = Ok out /\
      Forall2 (fun seg fs =>
                 fs_segment fs = seg /\
                 P seg (fs_text_emotion fs) /\
                 Q' seg (fs_speech_emotion fs) /\
                 R seg (fs_keywords fs) /\
                 fs_audio_features fs = None /\
                 fs_text_embedding fs = None)
              segs out.
Proof.
  induction segs as [|seg segs IH]; intros te se kw pt ps pk Ht Hs Hk Lps Lpk.
  - exists []. split; [reflexivity | constructor].
  - inversion Ht as [|? t ? te' Pt Ht']; subst.
    inversion Hs as [|? s ? se' Ps Hs']; subst.
    inversion Hk as [|? k ? kw' Pk Hk']; subst.
    cbn [Pipeline1Steps.annotate].
    rewrite (list_lookup_middle pt te' t (length pt) eq_refl).
    rewrite (list_lookup_middle ps se' s (length pt) (eq_sym Lps)).
    rewrite (list_lookup_middle pk kw' k (length pt) (eq_sym Lpk)).
    destruct (IH te' se' kw' (pt ++ [t]) (ps ++ [s]) (pk ++ [k]) Ht' Hs' Hk')
      as (out & Hout & Hall).
    { rewrite !length_app. simpl. lia. }
    { rewrite !length_app. simpl. lia. }
    rewrite length_app in Hout. simpl in Hout.
    rewrite Nat.add_1_r, <- !app_assoc in Hout. simpl in Hout.
    rewrite Hout. simpl.
    eexists. split; [reflexivity |].
    constructor; [simpl; auto 10 | exact Hall].
Qed.

Section FullPipeline.

Variable tools : Pipeline1Steps.Tools.
Variable set_iter : list string -> list string.

Lemma analyse_ok (input_audio : string) (wav : file AudioSegment) (doc : Document) :
  Pipeline1Steps.analyse set_iter tools input_audio wav = Ok doc ->
  exists whisper_result diarization,
    Pipeline1Steps.run_whisper tools wav = Ok whisper_result /\
    Pipeline1Steps.run_pyannote_diarization tools wav = Ok diarization /\
    audio_file doc = Pipeline1Steps.basename tools input_audio /\
    full_transcript doc = wr_text whisper_result /\
    Forall2 (Pipeline1Steps.enriched tools set_iter diarization) (wr_segments whisper_result) (segments doc).
Proof.
  unfold Pipeline1Steps.analyse. intros H.
  apply and_then_ok_inv in H. destruct H as (whisper_result & Hw & H).
  apply and_then_ok_inv in H. destruct H as (diarization & Hd & H).
  apply and_then_ok_inv in H. destruct H as (te & Hte & H).
  apply and_then_ok_inv in H. destruct H as (se & Hse & H).
  apply and_then_ok_inv in H. destruct H as (kw & Hkw & H).
  apply and_then_ok_inv in H. destruct H as (annotated & Hann & H).
  inversion H; subst doc. clear H. simpl.
  exists whisper_result, diarization. repeat (split; [assumption || reflexivity |]).
  unfold Pipeline1Steps.run_text_emotion_analysis in Hte.
  apply and_then_ok_inv in Hte. destruct Hte as (_ & _ & Hte).
  rewrite for_each_map in Hte. apply for_each_ok in Hte.
  unfold Pipeline1Steps.run_speech_emotion_recognition in Hse.
  apply and_then_ok_inv in Hse. destruct Hse as (_ & _ & Hse).
  apply and_then_ok_inv in Hse. destruct Hse as (_ & _ & Hse).
  apply for_each_ok in Hse.
  unfold Pipeline1Steps.extract_keywords in Hkw.
  rewrite for_each_map in Hkw. apply for_each_ok in Hkw.
  destruct (annotate_spec _ _ _ _ te se kw [] [] [] Hte Hse Hkw eq_refl eq_refl)
    as (out & Hout & Hall).
  simpl in Hout. rewrite Hann in Hout. inversion Hout; subst out. clear Hout.
  unfold Pipeline1.map_speakers_to_segments in Hall.
  apply Forall2_map_left in Hall.
  eapply Forall2_impl; [exact Hall |].
  intros ws fs (H1 & H2 & H3 & H4 & H5 & H6). unfold Pipeline1Steps.enriched.
  repeat split; assumption.
Qed.

(** X15.  For a bound [0 <= max_duration]: the document [full_pipeline] of
    [pipeline.py] returns is the one it has written to [final_output.json];
    it was computed on the WAV the run has just trimmed to the bound; its
    transcript is Whisper's text as it is; and it has one segment per
    Whisper segment, in order, holding the segment with its speaker, the
    label of the text classifier and the keywords for its text, the label
    predicted for its samples (from [int(start * 16000)] to
    [int(end * 16000)], the products as floats give them), and neither
    audio features nor an embedding. *)
Theorem full_pipeline_document (input_audio : string) (max_duration : Z)
    (disk disk' : Pipeline1Steps.Disk) (doc : Document) :
  (0 <= max_duration)%Z ->
  Pipeline1Steps.full_pipeline set_iter tools input_audio max_duration disk = (Ok doc, disk') ->
  Pipeline1Steps.final_output_json disk' = Some doc /\
  exists audio whisper_result diarization,
    Pipeline1Steps.from_file tools input_audio = Ok audio /\
    Pipeline1Steps.trimmed_wav disk' = Stored (Pydub.slice_to audio (max_duration * 1000)) /\
    Pipeline1Steps.run_whisper tools (Pipeline1Steps.trimmed_wav disk') = Ok whisper_result /\
    Pipeline1Steps.run_pyannote_diarization tools (Pipeline1Steps.trimmed_wav disk')
      = Ok diarization /\
    audio_file doc = Pipeline1Steps.basename tools input_audio /\
    full_transcript doc = wr_text whisper_result /\
    Forall2 (Pipeline1Steps.enriched tools set_iter diarization) (wr_segments whisper_result) (segments doc).
Proof.
  intros _. unfold Pipeline1Steps.full_pipeline, convert_and_trim.
  destruct (Pipeline1Steps.from_file tools input_audio) as [audio|e]; [| discriminate].
  destruct (Pipeline1Steps.analyse set_iter tools input_audio _) as [output_json|e] eqn:Han;
    [| discriminate].
  intros H. inversion H; subst. clear H. simpl.
  split; [reflexivity |].
  destruct (analyse_ok _ _ _ Han) as (whisper_result & diarization & Hw & Hd & Ha & Ht & Hall).
  exists audio, whisper_result, diarization. auto 10.
Qed.

(** X16.  When every library call answers, [full_pipeline] returns a
    document: the loop that adds the emotions and the keywords to the
    segments never indexes a list out of its range. *)
Theorem full_pipeline_returns (input_audio : string) (max_duration : Z)
    (disk : Pipeline1Steps.Disk) :
  Pipeline1Steps.reliable tools ->
  exists doc,
    fst (Pipeline1Steps.full_pipeline set_iter tools input_audio max_duration disk) = Ok doc.
Proof.
  intros (Hfrom & Hwhisper & Hpy & Hcls & Hclassify & Hser & Hload & Hpredict & Hyake).
  unfold Pipeline1Steps.full_pipeline, convert_and_trim.
  destruct (Hfrom input_audio) as [audio ->].
  set (wav := Stored (Pydub.slice_to audio (max_duration * 1000))).
  assert (Han : exists doc, Pipeline1Steps.analyse set_iter tools input_audio wav = Ok doc).
  { unfold Pipeline1Steps.analyse.
    destruct (Hwhisper wav) as [whisper_result ->].
    destruct (Hpy wav) as [diarization ->]. simpl.
    set (segs := Pipeline1.map_speakers_to_segments set_iter _ _).
    unfold Pipeline1Steps.run_text_emotion_analysis,
      Pipeline1Steps.run_speech_emotion_recognition, Pipeline1Steps.extract_keywords.
    rewrite Hcls, Hser, Hload. simpl. rewrite !for_each_map.
    destruct (for_each_total (fun x => Pipeline1Steps.classify tools (text x)) segs)
      as [te Hte]; [intros x; apply Hclassify |].
    destruct (for_each_total
                (fun seg => Pipeline1Steps.predict tools (Py.int (Float.mul (start seg) 16000))
                              (Py.int (Float.mul (end_ seg) 16000))) segs)
      as [se Hse]; [intros x; apply Hpredict |].
    destruct (for_each_total (fun x => Pipeline1Steps.yake_keywords tools 5 (text x)) segs)
      as [kw Hkw]; [intros x; apply Hyake |].
    rewrite Hte, Hse, Hkw. simpl.
    apply for_each_ok in Hte, Hse, Hkw.
    destruct (annotate_spec _ _ _ _ te se kw [] [] [] Hte Hse Hkw eq_refl eq_refl)
      as (out & Hout & _).
    simpl in Hout. rewrite Hout. simpl. eauto. }
  destruct Han as [doc Han]. rewrite Han. simpl. eauto.
Qed.

End FullPipeline.

Lemma full_pipeline_document_witness :
  exists doc disk',
    Pipeline1Steps.full_pipeline Pipeline1.first_seen Pipeline1Steps.demo_tools
      "talk.mp3" 300 Pipeline1Steps.empty_disk = (Ok doc, disk') /\
    Pipeline1Steps.final_output_json disk' = Some doc /\
    length (segments doc) = 2%nat.
Proof.
  destruct (Pipeline1Steps.full_pipeline Pipeline1.first_seen Pipeline1Steps.demo_tools
              "talk.mp3" 300 Pipeline1Steps.empty_disk) as [[doc|e] disk'] eqn:Hrun;
    [| vm_compute in Hrun; discriminate].
  exists doc, disk'. split; [reflexivity |].
  assert (Hbound : (0 <= 300)%Z) by lia.
  destruct (full_pipeline_document _ _ _ _ _ _ _ Hbound Hrun)
    as (Hjson & audio & wr & d & _ & _ & Hw & _ & _ & _ & Hall).
  split; [exact Hjson |].
  apply Forall2_length in Hall. rewrite <- Hall.
  simpl in Hw. inversion Hw; subst wr. reflexivity.
Defined.

Lemma full_pipeline_returns_witness :
  exists doc,
    fst (Pipeline1Steps.full_pipeline Pipeline1.last_seen Pipeline1Steps.demo_tools
           "talk.mp3" 300 Pipeline1Steps.empty_disk) = Ok doc.
Proof.
  apply full_pipeline_returns.
  unfold Pipeline1Steps.reliable, Pipeline1Steps.demo_tools; simpl.
  repeat split; eauto.
Defined.

(** ** [python_diarization.py]: [main] *)

(** X18.  When [main] returns, a non-empty token was set, and the two
    transcripts it has written go line by line with the Whisper segments:
    the raw transcript holds the text of each segment without the
    whitespace around it, and the diarized transcript holds, for the same
    segment, its times, the speaker the aligner chose and the same trimmed
    text. *)
Theorem main_transcripts_agree (tools : DiarizationMain.Tools) (api_key : option string)
    (input_mp3 : string) (disk disk' : DiarizationMain.Disk) :
  DiarizationMain.main tools api_key input_mp3 disk = (Ok tt, disk') ->
  exists hf_token whisper_segments diarization raw lines,
    api_key = Some hf_token /\ hf_token <> ""%string /\
    DiarizationMain.transcribe_whisper tools (DiarizationMain.wav disk')
      = Ok whisper_segments /\
    DiarizationMain.pipeline tools (DiarizationMain.wav disk') = Ok diarization /\
    DiarizationMain.raw_transcription disk' = Some raw /\
    DiarizationMain.diarized_transcription disk' = Some lines /\
    raw = map (fun seg => Py.strip (ws_text seg)) whisper_segments /\
    map DiarizationMain.line_text lines = raw /\
    Forall2 (fun seg line =>
               DiarizationMain.line_start line = ws_start seg /\
               DiarizationMain.line_end line = ws_end seg /\
               DiarizationMain.line_speaker line
               = Diarization.choose_speaker seg (Diarization.segments_of diarization) /\
               Spec.trimmed_of (ws_text seg) (DiarizationMain.line_text line))
            whisper_segments lines.
Proof.
  unfold DiarizationMain.main. intros H.
  destruct api_key as [hf_token|]; [| discriminate].
  assert (Htok : hf_token <> ""%string) by (intros ->; discriminate).
  destruct hf_token as [|c hf_token]; [discriminate |].
  unfold trim_to_wav in H.
  destruct (DiarizationMain.from_file tools input_mp3) as [audio|e]; [| discriminate].
  match type of H with
  | context [DiarizationMain.transcribe_and_align tools ?w ?t] =>
      destruct (DiarizationMain.transcribe_and_align tools w t)
        as [[whisper_segments aligned]|e] eqn:Hal; [| discriminate]
  end.
  inversion H; subst disk'. clear H. simpl.
  unfold DiarizationMain.transcribe_and_align in Hal.
  apply and_then_ok_inv in Hal. destruct Hal as (ws & Hws & Hal).
  apply and_then_ok_inv in Hal. destruct Hal as (ds & Hds & Hal).
  inversion Hal; subst. clear Hal.
  unfold DiarizationMain.diarize_pyannote in Hds.
  destruct (DiarizationMain.from_pretrained tools _); [| discriminate].
  apply and_then_ok_inv in Hds. destruct Hds as (diarization & Hd & Hds).
  inversion Hds; subst ds. clear Hds.
  exists (String c hf_token), whisper_segments, diarization.
  eexists. eexists.
  split; [reflexivity |]. split; [exact Htok |].
  split; [exact Hws |]. split; [exact Hd |].
  split; [reflexivity |]. split; [reflexivity |]. split; [reflexivity |].
  split.
  - unfold Diarization.align_segments. rewrite !map_map. reflexivity.
  - unfold Diarization.align_segments. rewrite map_map.
    clear Hws. induction whisper_segments as [|seg rest IH]; simpl; constructor; auto.
    simpl. split; [reflexivity |]. split; [reflexivity |]. split; [reflexivity |].
    apply strip_trimmed.
Qed.

Lemma main_transcripts_agree_witness :
  exists disk' raw lines,
    DiarizationMain.main (DiarizationMain.demo_tools (Ok tt)) (Some "hf_x"%string)
      "talk.mp3" DiarizationMain.empty_disk = (Ok tt, disk') /\
    DiarizationMain.raw_transcription disk' = Some raw /\
    DiarizationMain.diarized_transcription disk' = Some lines /\
    map DiarizationMain.line_text lines = raw.
Proof.
  destruct (DiarizationMain.main (DiarizationMain.demo_tools (Ok tt)) (Some "hf_x"%string)
              "talk.mp3" DiarizationMain.empty_disk) as [[[]|e] disk'] eqn:Hrun;
    [| vm_compute in Hrun; discriminate].
  destruct (main_transcripts_agree _ _ _ _ _ Hrun)
    as (tok & ws & d & raw & lines & _ & _ & _ & _ & Hraw & Hlines & _ & Htext & _).
  exists disk', raw, lines. auto.
Defined.

(** X19.  [main] writes its transcripts last: when it raises, whether for
    a missing token, an input that does not decode, Whisper or pyannote,
    both transcript files are as they were. *)
Theorem main_failure_writes_no_transcript (tools : DiarizationMain.Tools)
    (api_key : option string) (input_mp3 : string) (disk : DiarizationMain.Disk)
    (e : string) :
  fst (DiarizationMain.main tools api_key input_mp3 disk) = Raise e ->
  DiarizationMain.raw_transcription (snd (DiarizationMain.main tools api_key input_mp3 disk))
  = DiarizationMain.raw_transcription disk /\
  DiarizationMain.diarized_transcription
    (snd (DiarizationMain.main tools api_key input_mp3 disk))
  = DiarizationMain.diarized_transcription disk.
Proof.
  unfold DiarizationMain.main.
  destruct api_key as [[|c hf_token]|]; [auto | | auto].
  destruct (trim_to_wav _ 300) as [wav_path|e']; [| auto].
  destruct (DiarizationMain.transcribe_and_align tools wav_path _)
    as [[whisper_segments aligned]|e']; [discriminate | auto].
Qed.

Lemma main_failure_writes_no_transcript_witness :
  DiarizationMain.raw_transcription
    (snd (DiarizationMain.main (DiarizationMain.demo_tools (Raise "401")) (Some "hf_x"%string)
            "talk.mp3" DiarizationMain.empty_disk)) = None.
Proof.
  eapply (main_failure_writes_no_transcript (DiarizationMain.demo_tools (Raise "401"))
            (Some "hf_x"%string) "talk.mp3" DiarizationMain.empty_disk).
  reflexivity.
Defined.

(** ** The models, loaded on first use *)

Lemma calls_cached {M L : Type} (get : L -> option M -> result M * option M) (model : M) :
  (forall load, get load (Some model) = (Ok model, Some model)) ->
  forall loads, Models.calls get loads (Some model) = repeat (Ok model) (length loads).
Proof.
  intros Hget. induction loads as [|load loads IH]; simpl; [reflexivity |].
  now rewrite Hget, IH.
Qed.

(** X20.  Calls of [get_whisper_model], [get_sentence_transformer_model] or
    [get_text_emotion_classifier] while the library fails to load each make
    a fresh attempt and raise its error under the loader's message; the
    first model loaded is returned by that call and by every later call,
    whatever the library would answer then. *)
Theorem model_is_loaded_once {M : Type} (message : string) (errors : list string)
    (model : M) (later : list (result M)) :
  Models.calls (Models.load_once message) (map Raise errors ++ Ok model :: later) None
  = map (fun e => Raise (message +:+ e)) errors ++ repeat (Ok model) (S (length later)).
Proof.
  induction errors as [|e errors IH]; simpl.
  - f_equal. now apply calls_cached.
  - now rewrite IH.
Qed.

(** X21.  [get_ser_models] and [get_pyannote_pipeline] set their global
    before they move the model to the device: when the library has answered
    a model and the move raises, the call raises, and every later call
    returns the model that was not moved, without loading, moving or, for
    pyannote, looking at the token.  When [Pipeline.from_pretrained]
    answers [None] instead, the call raises and nothing is kept: the next
    call looks at the token and loads again. *)
Theorem unmoved_model_is_kept {M : Type} (model : M) (to : M -> result unit) (e : string)
    (c : ascii) (hf_token : string) (from_pretrained : string -> result (option M)) :
  to model = Raise e ->
  from_pretrained (String c hf_token) = Ok (Some model) ->
  let ser := Models.get_ser_models (Ok model) to None in
  let pyannote :=
    Models.get_pyannote_pipeline (Some (String c hf_token)) from_pretrained to None in
  fst ser = Raise ("Failed to load Speech Emotion Recognition models: " +:+ e) /\
  (forall later_load later_to,
     Models.get_ser_models later_load later_to (snd ser) = (Ok model, Some model)) /\
  fst pyannote = Raise ("Failed to load pyannote.audio pipeline: " +:+ e) /\
  (forall later_token later_load later_to,
     Models.get_pyannote_pipeline later_token later_load later_to (snd pyannote)
     = (Ok model, Some model)) /\
  (forall refused later_load,
     refused (String c hf_token) = Ok None ->
     let first := Models.get_pyannote_pipeline (Some (String c hf_token)) refused to None in
     (exists msg, fst first = Raise msg) /\
     Models.get_pyannote_pipeline (Some (String c hf_token)) later_load to (snd first)
     = Models.get_pyannote_pipeline (Some (String c hf_token)) later_load to None).
Proof.
  intros Hto Hload ser pyannote.
  assert (Hser : ser = (Raise ("Failed to load Speech Emotion Recognition models: " +:+ e),
                        Some model)).
  { subst ser. unfold Models.get_ser_models. now rewrite Hto. }
  assert (Hpy : pyannote = (Raise ("Failed to load pyannote.audio pipeline: " +:+ e),
                            Some model)).
  { subst pyannote. unfold Models.get_pyannote_pipeline. now rewrite Hload, Hto. }
  rewrite Hser, Hpy. cbn [fst snd].
  split; [reflexivity |]. split; [reflexivity |].
  split; [reflexivity |]. split; [reflexivity |].
  intros refused later_load Href.
  assert (Hfirst : Models.get_pyannote_pipeline (Some (String c hf_token)) refused to None
                   = (Raise ("Failed to load pyannote.audio pipeline: "
                             +:+ "'NoneType' object has no attribute 'to'"), None)).
  { unfold Models.get_pyannote_pipeline. now rewrite Href. }
  rewrite Hfirst. cbn [fst snd]. eauto.
Qed.

Lemma unmoved_model_is_kept_witness :
  Models.get_pyannote_pipeline None (fun _ => Raise "offline")
    (fun _ => Raise "no device")
    (snd (Models.get_pyannote_pipeline (Some "hf_x"%string) (fun _ => Ok (Some 7%nat))
            (fun _ => Raise "no device") None))
  = (Ok 7%nat, Some 7%nat).
Proof.
  apply (unmoved_model_is_kept 7%nat (fun _ => Raise "no device") "no device"
           "h"%char "f_x" (fun _ => Ok (Some 7%nat)) eq_refl eq_refl).
Defined.

Lemma extractor_is_kept
    (extract : Models.KeywordExtractor -> string -> result (list string))
    (extractor : Models.KeywordExtractor) (later : list (list string * Z)) :
  fold_left (fun cached call =>
               snd (Models.extract_keywords extract (fst call) (snd call) cached))
            later (Some extractor)
  = Some extractor.
Proof.
  induction later as [|call later IH]; simpl; [reflexivity | exact IH].
Qed.

(** X22.  The extractor of [extract_keywords] is made once: after any
    number of calls, a call extracts with the [max_keywords] of the very
    first call, whatever [max_keywords] it is given. *)
Theorem max_keywords_counts_once
    (extract : Models.KeywordExtractor -> string -> result (list string))
    (first_texts : list string) (first_max_keywords : Z)
    (later : list (list string * Z)) (texts : list string) (max_keywords : Z) :
  let cached :=
    fold_left (fun cached call =>
                 snd (Models.extract_keywords extract (fst call) (snd call) cached))
              ((first_texts, first_max_keywords) :: later) None in
  Models.extract_keywords extract texts max_keywords cached
  = (match for_each (extract {| Models.top := first_max_keywords |}) texts with
     | Ok all_keywords => Ok all_keywords
     | Raise e => Raise ("Error during keyword extraction: " +:+ e)
     end,
     Some {| Models.top := first_max_keywords |}).
Proof.
  intros cached. subst cached. cbn [fold_left].
  change (snd (Models.extract_keywords extract
                 (fst (first_texts, first_max_keywords))
                 (snd (first_texts, first_max_keywords)) None))
    with (Some {| Models.top := first_max_keywords |}).
  rewrite extractor_is_kept. reflexivity.
Qed.
